(** * ASCII Waves: a shallow embedding of the wave synthesis and its rendering

    The development follows the JavaScript sources

      - [public/js/utils.js]        (the numeric helpers of [Utils])
      - [public/js/noise.js]        (class [SimplexNoise])
      - [public/js/wave-engine.js]  (class [WaveEngine])
      - [renderer.js]               (class [Renderer])
      - [public/js/presets.js]      ([Presets])
      - [public/js/controls.js], [public/js/main.js], [public/js/export.js]
                                    (loading, saving and reseeding)

    Numbers.  A JavaScript number is modelled by [num]: an exact rational,
    one of the two infinities, or NaN.  Arithmetic on finite values is exact
    (no rounding, no overflow, a single zero); the special values follow the
    IEEE-754 rules the language prescribes (x/0, 0/0, comparisons with NaN,
    NaN-propagating [Math.min]/[Math.max], ...).  Decimal literals of the
    sources denote the corresponding exact decimals.  The program computes
    in double precision, with which the model agrees on integers up to 2^53
    in magnitude and wherever no intermediate result overflows; a statement
    whose truth depends on that agreement names the range of its inputs
    ([exact_seed], [safe_bound], [max_exact_integer]) among its
    hypotheses.

    [Math.sin] is implementation-approximated by the language definition; it
    enters as a parameter [sin_impl] of the engine section, and so does
    [Math.sqrt], whose values are not rational.  [Math.random] is the
    ambient generator of the [World].  A loop whose bound is read from the
    configuration runs on fuel.

    Objects used as records of numbers (the two [config] objects and the
    partial configurations merged into them) are finite maps from property
    names to values; typed arrays are lists of integers with the language's
    out-of-range behaviour written out. *)

From Stdlib Require Import ZArith QArith Qround Lqa Lia HexString.
From stdpp Require Import base option gmap strings list.

Open Scope Q_scope.

(* ===================================================================== *)
(** ** JavaScript numbers *)
(* ===================================================================== *)

Inductive num : Type :=
| Fin (q : Q)
| PInf
| NInf
| NaN.

Coercion Fin : Q >-> num.

Declare Scope num_scope.
Delimit Scope num_scope with num.
Bind Scope num_scope with num.

Definition Qltb (a b : Q) : bool := negb (Qle_bool b a).

(** The infinity with the sign of a comparison against zero; NaN at zero. *)
Definition inf_of (c : comparison) : num :=
  match c with
  | Gt => PInf
  | Lt => NInf
  | Eq => NaN
  end.

Definition num_neg (a : num) : num :=
  match a with
  | Fin x => Fin (- x)
  | PInf => NInf
  | NInf => PInf
  | NaN => NaN
  end.

Definition num_add (a b : num) : num :=
  match a, b with
  | NaN, _ | _, NaN => NaN
  | Fin x, Fin y => Fin (x + y)
  | PInf, NInf | NInf, PInf => NaN
  | PInf, _ | _, PInf => PInf
  | NInf, _ | _, NInf => NInf
  end.

Definition num_sub (a b : num) : num :=
  match a, b with
  | NaN, _ | _, NaN => NaN
  | Fin x, Fin y => Fin (x - y)
  | PInf, PInf | NInf, NInf => NaN
  | PInf, _ | _, NInf => PInf
  | NInf, _ | _, PInf => NInf
  end.

Definition num_mul (a b : num) : num :=
  match a, b with
  | NaN, _ | _, NaN => NaN
  | Fin x, Fin y => Fin (x * y)
  | Fin x, PInf | PInf, Fin x => inf_of (x ?= 0)
  | Fin x, NInf | NInf, Fin x => inf_of (CompOpp (x ?= 0))
  | PInf, PInf | NInf, NInf => PInf
  | PInf, NInf | NInf, PInf => NInf
  end.

(** Division: a finite non-zero value over zero is an infinity, 0/0 is NaN. *)
Definition num_div (a b : num) : num :=
  match a, b with
  | NaN, _ | _, NaN => NaN
  | Fin x, Fin y => if Qeq_bool y 0 then inf_of (x ?= 0) else Fin (x / y)
  | Fin _, (PInf | NInf) => Fin 0
  | PInf, Fin y => if Qltb y 0 then NInf else PInf
  | NInf, Fin y => if Qltb y 0 then PInf else NInf
  | (PInf | NInf), (PInf | NInf) => NaN
  end.

(** Truncation toward zero. *)
Definition Qtrunc (q : Q) : Z :=
  if Qle_bool 0 q then Qfloor q else Qceiling q.

(** The remainder operator [%]: the result has the sign of the dividend. *)
Definition num_rem (a b : num) : num :=
  match a, b with
  | NaN, _ | _, NaN => NaN
  | (PInf | NInf), _ => NaN
  | Fin x, (PInf | NInf) => Fin x
  | Fin x, Fin y =>
      if Qeq_bool y 0 then NaN else Fin (x - y * inject_Z (Qtrunc (x / y)))
  end.

(** Relational operators; every comparison with NaN is false. *)
Definition num_ltb (a b : num) : bool :=
  match a, b with
  | NaN, _ | _, NaN => false
  | Fin x, Fin y => Qltb x y
  | NInf, (Fin _ | PInf) => true
  | Fin _, PInf => true
  | _, _ => false
  end.

Definition num_leb (a b : num) : bool :=
  match a, b with
  | NaN, _ | _, NaN => false
  | Fin x, Fin y => Qle_bool x y
  | NInf, _ => true
  | _, PInf => true
  | _, _ => false
  end.

Definition num_gtb (a b : num) : bool := num_ltb b a.
Definition num_geb (a b : num) : bool := num_leb b a.

Infix "+" := num_add : num_scope.
Infix "-" := num_sub : num_scope.
Infix "*" := num_mul : num_scope.
Infix "/" := num_div : num_scope.
Infix "rem" := num_rem (at level 40, no associativity) : num_scope.
Notation "- x" := (num_neg x) : num_scope.
Infix "<?" := num_ltb (at level 70) : num_scope.
Infix ">?" := num_gtb (at level 70) : num_scope.
Infix ">=?" := num_geb (at level 70) : num_scope.
Infix "<=?" := num_leb (at level 70) : num_scope.

Open Scope num_scope.

Definition is_finite (a : num) : Prop :=
  match a with Fin _ => True | _ => False end.

(** The test behind [Number.isFinite] and behind the argument checks of the
    host. *)
Definition finiteb (a : num) : bool :=
  match a with Fin _ => true | _ => false end.

(** Numbers that denote the same value: rationals are compared as fractions. *)
Definition num_eq (a b : num) : Prop :=
  match a, b with
  | Fin x, Fin y => (x == y)%Q
  | PInf, PInf | NInf, NInf | NaN, NaN => True
  | _, _ => False
  end.

Infix "=n=" := num_eq (at level 70, no associativity) : num_scope.

Definition num_of_Z (z : Z) : num := Fin (inject_Z z).
Definition num_of_nat (n : nat) : num := num_of_Z (Z.of_nat n).

(** *** The [Math] object *)

Definition Math_max (a b : num) : num :=
  match a, b with
  | NaN, _ | _, NaN => NaN
  | _, _ => if a <? b then b else a
  end.

Definition Math_min (a b : num) : num :=
  match a, b with
  | NaN, _ | _, NaN => NaN
  | _, _ => if b <? a then b else a
  end.

Definition Math_min3 (a b c : num) : num := Math_min (Math_min a b) c.

Definition Math_floor (a : num) : num :=
  match a with
  | Fin x => num_of_Z (Qfloor x)
  | _ => a
  end.

(** [Math.round] rounds half-way cases toward positive infinity. *)
Definition Math_round (a : num) : num :=
  match a with
  | Fin x => num_of_Z (Qfloor (x + (1 # 2))%Q)
  | _ => a
  end.

Definition Math_ceil (a : num) : num :=
  match a with
  | Fin x => num_of_Z (Qceiling x)
  | _ => a
  end.

(** The value of [Math.PI]: the double 0x400921FB54442D18. *)
Definition Math_PI : num := Fin (7074237752028440 # 2251799813685248).

(** *** Values, conversions *)

Inductive jsval : Type :=
| JUndefined
| JNum (n : num).

Definition ToNumber (v : jsval) : num :=
  match v with
  | JUndefined => NaN
  | JNum n => n
  end.

(** Strict equality [===] of numbers: NaN differs from everything. *)
Definition num_eqb (a b : num) : bool :=
  match a, b with
  | Fin x, Fin y => Qeq_bool x y
  | PInf, PInf | NInf, NInf => true
  | _, _ => false
  end.

(** Strict equality [===] of values. *)
Definition strict_eq (a b : jsval) : bool :=
  match a, b with
  | JUndefined, JUndefined => true
  | JNum x, JNum y => num_eqb x y
  | _, _ => false
  end.

(** Truthiness of a number: zero and NaN are falsy. *)
Definition num_truthy (a : num) : bool :=
  match a with
  | Fin x => negb (Qeq_bool x 0)
  | NaN => false
  | _ => true
  end.

(** [ToInt32]: truncate, wrap modulo 2^32, read as a signed word. *)
Definition ToInt32 (a : num) : Z :=
  match a with
  | Fin x =>
      let m := (Qtrunc x mod 4294967296)%Z in
      if (2147483648 <=? m)%Z then (m - 4294967296)%Z else m
  | _ => 0%Z
  end.

(** The [&] operator. *)
Definition num_and (a b : num) : num :=
  num_of_Z (Z.land (ToInt32 a) (ToInt32 b)).

Infix "&" := num_and (at level 40, left associativity) : num_scope.

(** A property key that is a valid integer index below [len]. *)
Definition index_of (len : nat) (k : num) : option nat :=
  match k with
  | Fin x =>
      let z := Qfloor x in
      if Qeq_bool x (inject_Z z) && (0 <=? z)%Z && (z <? Z.of_nat len)%Z
      then Some (Z.to_nat z) else None
  | _ => None
  end.

(** *** [Uint8Array]

    A typed array of fixed length.  Reading outside the array (or at a key
    that is not an integer index) yields [undefined]; writing there does
    nothing; a stored value is converted with [ToUint8]. *)

Abbreviation Uint8Array := (list Z).

(** The range of a stored element. *)
Definition is_u8 (z : Z) : Prop := (0 <= z < 256)%Z.

Definition new_Uint8Array (len : nat) : Uint8Array := replicate len 0%Z.

Definition ToUint8 (v : jsval) : Z :=
  match ToNumber v with
  | Fin x => (Qtrunc x mod 256)%Z
  | _ => 0%Z
  end.

Definition ta_get (a : Uint8Array) (k : num) : jsval :=
  match index_of (length a) k with
  | Some i =>
      match a !! i with
      | Some z => JNum (num_of_Z z)
      | None => JUndefined
      end
  | None => JUndefined
  end.

Definition ta_set (a : Uint8Array) (k : num) (v : jsval) : Uint8Array :=
  match index_of (length a) k with
  | Some i => <[i := ToUint8 v]> a
  | None => a
  end.

(** *** The ambient random generator

    [Math.random()] hands out the next draw of the world's sequence. *)

Record World : Type := mkWorld {
  draws : nat -> Q;
  cursor : nat
}.

Definition Math_random (w : World) : num * World :=
  (Fin (draws w (cursor w)), mkWorld (draws w) (S (cursor w))).

(** The contract of [Math.random]: every draw lies in [0, 1). *)
Definition random_contract (w : World) : Prop :=
  forall n, (0 <= draws w n)%Q /\ (draws w n < 1)%Q.

#[global] Instance num_inhabited : Inhabited num := populate NaN.

(* ===================================================================== *)
(** ** utils.js *)
(* ===================================================================== *)

Module Utils.

(** [clamp(value, min, max)]: [Math.max(min, Math.min(max, value))]. *)
Definition clamp (value min max : num) : num :=
  Math_max min (Math_min max value).

(** The channel function [f] of [hslToRgb], closed over [h], [l], [a]. *)
Definition hsl_f (h l a n : num) : num :=
  let k := (n + h * 12) rem 12 in
  l - a * Math_max (- 1) (Math_min3 (k - 3) (9 - k) 1).

(** [hslToRgb(h, s, l)]: the three rounded channels. *)
Definition hslToRgb (h s l : num) : num * num * num :=
  let h := h / 360 in
  let a := s * Math_min l (1 - l) in
  (Math_round (hsl_f h l a 0 * 255),
   Math_round (hsl_f h l a 8 * 255),
   Math_round (hsl_f h l a 4 * 255)).

(** [Number.prototype.toString(16)] on an integer. *)
Definition toString16 (z : Z) : string :=
  match z with
  | Z0 => "0"
  | Zpos p => HexString.Raw.of_pos p ""
  | Zneg p => String.append "-" (HexString.Raw.of_pos p "")
  end.

(** The arrow function of [rgbToHex]: pad a single digit with a zero. *)
Definition hex_pad (x : Z) : string :=
  let hex := toString16 x in
  if Nat.eqb (String.length hex) 1 then String.append "0" hex else hex.

(** [rgbToHex(r, g, b)] on integer-valued channels. *)
Definition rgbToHex (r g b : Z) : string :=
  String.append "#" (String.concat "" (List.map hex_pad [r; g; b])).

(** [map(value, inMin, inMax, outMin, outMax)] *)
Definition map (value inMin inMax outMin outMax : num) : num :=
  (value - inMin) * (outMax - outMin) / (inMax - inMin) + outMin.

(** [randomInt(min, max)] *)
Definition randomInt (min max : num) (w : World) : num * World :=
  let '(r, w) := Math_random w in
  (Math_floor (r * (max - min + 1)) + min, w).

End Utils.

(* ===================================================================== *)
(** ** noise.js: class SimplexNoise

    The 2D sampler ([noise2D], [dot2], [F2], [G2]) is not used by the wave
    engine and is left out. *)
(* ===================================================================== *)

Module SimplexNoise.

Record t : Type := mk {
  p : Uint8Array;
  perm : Uint8Array;
  permMod12 : Uint8Array;
  F3 : num;
  G3 : num;
  grad3 : list (list num)
}.

(** One call of the closure returned by [seededRandom]: the captured
    variable [seed] is updated and the quotient returned.  The step of the
    program is this exact step while [seed * 9301 + 49297] is an integer
    of magnitude at most 2^53 ([exact_seed]); from the second call on the
    state of an integer seed is below 233280 in magnitude. *)
Definition seededRandom_call (seed : num) : num * num :=
  let seed' := (seed * 9301 + 49297) rem 233280 in
  (seed' / 233280, seed').

(** [for (let i = 0; i < 256; i++) this.p[i] = i;] *)
Definition init_p (p : Uint8Array) : Uint8Array :=
  foldl (fun p i => ta_set p (num_of_nat i) (JNum (num_of_nat i)))
        p (seq 0 256).

(** Body of the shuffle loop: draw [j], then the destructuring swap
    [[p[i], p[j]] = [p[j], p[i]]] (both reads happen before both writes). *)
Definition shuffle_step (st : Uint8Array * num) (i : nat)
  : Uint8Array * num :=
  let '(p, seed) := st in
  let '(r, seed') := seededRandom_call seed in
  let j := Math_floor (r * (num_of_nat i + 1)) in
  let pj := ta_get p j in
  let pi := ta_get p (num_of_nat i) in
  (ta_set (ta_set p (num_of_nat i) pj) j pi, seed').

(** [for (let i = 255; i > 0; i--) ...] *)
Definition shuffle (p : Uint8Array) (seed : num) : Uint8Array * num :=
  foldl shuffle_step (p, seed) (rev (seq 1 255)).

(** Body of the extension loop. *)
Definition extend_step (p : Uint8Array) (st : Uint8Array * Uint8Array)
  (i : nat) : Uint8Array * Uint8Array :=
  let '(perm, permMod12) := st in
  let perm := ta_set perm (num_of_nat i) (ta_get p (num_of_nat i & 255)) in
  let permMod12 :=
    ta_set permMod12 (num_of_nat i)
           (JNum (ToNumber (ta_get perm (num_of_nat i)) rem 12)) in
  (perm, permMod12).

Definition extend (p : Uint8Array) : Uint8Array * Uint8Array :=
  foldl (extend_step p) (new_Uint8Array 512, new_Uint8Array 512)
        (seq 0 512).

Definition gradients : list (list num) :=
  [ [Fin 1; Fin 1; Fin 0]; [Fin (-1); Fin 1; Fin 0];
    [Fin 1; Fin (-1); Fin 0]; [Fin (-1); Fin (-1); Fin 0];
    [Fin 1; Fin 0; Fin 1]; [Fin (-1); Fin 0; Fin 1];
    [Fin 1; Fin 0; Fin (-1)]; [Fin (-1); Fin 0; Fin (-1)];
    [Fin 0; Fin 1; Fin 1]; [Fin 0; Fin (-1); Fin 1];
    [Fin 0; Fin 1; Fin (-1)]; [Fin 0; Fin (-1); Fin (-1)] ].

(** The constructor body once the seed is known. *)
Definition build (seed : num) : t :=
  let p := init_p (new_Uint8Array 256) in
  let '(p, _) := shuffle p seed in
  let '(perm, permMod12) := extend p in
  mk p perm permMod12 (1 / 3) (1 / 6) gradients.

(** [constructor(seed = Math.random())]: the default is evaluated only
    when the argument is [undefined]. *)
Definition new (seed : jsval) (w : World) : t * World :=
  match seed with
  | JUndefined => let '(r, w') := Math_random w in (build r, w')
  | JNum s => (build s, w)
  end.

(** [grad3[gi]]: an array element, or [undefined]. *)
Definition grad_get (n : t) (gi : jsval) : option (list num) :=
  match index_of (length (grad3 n)) (ToNumber gi) with
  | Some i => grad3 n !! i
  | None => None
  end.

(** [dot3(g, x, y, z)]; reading [g[0]] of [undefined] throws. *)
Definition dot3 (g : option (list num)) (x y z : num) : option num :=
  match g with
  | Some g => Some ((g !!! 0%nat) * x + (g !!! 1%nat) * y + (g !!! 2%nat) * z)
  | None => None
  end.

(** The gradient index
    [permMod12[ii + i1 + perm[jj + j1 + perm[kk + k1]]]]. *)
Definition gi (n : t) (ii jj kk i1 j1 k1 : num) : jsval :=
  ta_get (permMod12 n)
    (ii + i1 + ToNumber (ta_get (perm n)
       (jj + j1 + ToNumber (ta_get (perm n) (kk + k1))))).

(** The first corner omits the offsets:
    [permMod12[ii + perm[jj + perm[kk]]]]. *)
Definition gi0 (n : t) (ii jj kk : num) : jsval :=
  ta_get (permMod12 n)
    (ii + ToNumber (ta_get (perm n)
       (jj + ToNumber (ta_get (perm n) kk)))).

(** One corner contribution:
    [let t = 0.6 - x*x - y*y - z*z;
     if (t < 0) n = 0.0; else { t *= t; n = t * t * dot3(grad3[gi], x, y, z); }] *)
Definition corner (n : t) (g : jsval) (x y z : num) : option num :=
  let t := 0.6 - x * x - y * y - z * z in
  if t <? 0 then Some (Fin 0)
  else
    let t := t * t in
    d ← dot3 (grad_get n g) x y z;
    Some (t * t * d).

(** The simplex traversal order [(i1, j1, k1, i2, j2, k2)]. *)
Definition simplex_order (x0 y0 z0 : num)
  : num * num * num * num * num * num :=
  if x0 >=? y0 then
    if y0 >=? z0 then (Fin 1, Fin 0, Fin 0, Fin 1, Fin 1, Fin 0)
    else if x0 >=? z0 then (Fin 1, Fin 0, Fin 0, Fin 1, Fin 0, Fin 1)
    else (Fin 0, Fin 0, Fin 1, Fin 1, Fin 0, Fin 1)
  else
    if y0 <? z0 then (Fin 0, Fin 0, Fin 1, Fin 0, Fin 1, Fin 1)
    else if x0 <? z0 then (Fin 0, Fin 1, Fin 0, Fin 0, Fin 1, Fin 1)
    else (Fin 0, Fin 1, Fin 0, Fin 1, Fin 1, Fin 0).

(** [noise3D(xin, yin, zin)]; [None] stands for a thrown [TypeError]. *)
Definition noise3D (n : t) (xin yin zin : num) : option num :=
  let s := (xin + yin + zin) * F3 n in
  let i := Math_floor (xin + s) in
  let j := Math_floor (yin + s) in
  let k := Math_floor (zin + s) in
  let t := (i + j + k) * G3 n in
  let X0 := i - t in
  let Y0 := j - t in
  let Z0 := k - t in
  let x0 := xin - X0 in
  let y0 := yin - Y0 in
  let z0 := zin - Z0 in
  let '(i1, j1, k1, i2, j2, k2) := simplex_order x0 y0 z0 in
  let x1 := x0 - i1 + G3 n in
  let y1 := y0 - j1 + G3 n in
  let z1 := z0 - k1 + G3 n in
  let x2 := x0 - i2 + 2 * G3 n in
  let y2 := y0 - j2 + 2 * G3 n in
  let z2 := z0 - k2 + 2 * G3 n in
  let x3 := x0 - 1 + 3 * G3 n in
  let y3 := y0 - 1 + 3 * G3 n in
  let z3 := z0 - 1 + 3 * G3 n in
  let ii := i & 255 in
  let jj := j & 255 in
  let kk := k & 255 in
  let g0 := gi0 n ii jj kk in
  let g1 := gi n ii jj kk i1 j1 k1 in
  let g2 := gi n ii jj kk i2 j2 k2 in
  let g3 := gi n ii jj kk 1 1 1 in
  n0 ← corner n g0 x0 y0 z0;
  n1 ← corner n g1 x1 y1 z1;
  n2 ← corner n g2 x2 y2 z2;
  n3 ← corner n g3 x3 y3 z3;
  Some (32 * (n0 + n1 + n2 + n3)).

End SimplexNoise.

(* ===================================================================== *)
(** ** Objects *)
(* ===================================================================== *)

(** A configuration object: own properties only.  Reading an absent
    property yields [undefined]. *)
Definition prop (o : gmap string jsval) (k : string) : jsval :=
  default JUndefined (o !! k).

(** [Object.assign(target, source)] and the spread [{...a, ...b}]: the
    source's own properties override the target's. *)
Definition Object_assign (target source : gmap string jsval)
  : gmap string jsval :=
  source ∪ target.

(** An array element read [a[k]]: [None] is [undefined]. *)
Definition arr_get {A : Type} (a : list A) (k : num) : option A :=
  match index_of (length a) k with
  | Some i => a !! i
  | None => None
  end.

(** The own property names of [Object.prototype], which every object
    literal inherits. *)
Definition Object_prototype_keys : list string :=
  [ "constructor"; "__defineGetter__"; "__defineSetter__"; "hasOwnProperty";
    "__lookupGetter__"; "__lookupSetter__"; "isPrototypeOf";
    "propertyIsEnumerable"; "toString"; "valueOf"; "__proto__";
    "toLocaleString" ].

(* ===================================================================== *)
(** ** wave-engine.js: class WaveEngine *)
(* ===================================================================== *)

Module WaveEngine.

(** A character set: six bands of glyphs. *)
Record CharSet : Type := mkCharSet {
  sky : list string;
  surface : list string;
  shallow : list string;
  medium : list string;
  deep : list string;
  foam : list string
}.

Definition classic : CharSet := {|
  sky := [" "; "."; "·"; "˙"];
  surface := ["~"; "≈"; "∼"; "≋"];
  shallow := ["-"; "="; "≡"];
  medium := ["░"; "▒"; "▓"];
  deep := ["█"; "■"; "▮"];
  foam := ["*"; "※"; "✦"; "✱"; "⁂"]
|}.

Definition minimal : CharSet := {|
  sky := [" "; " "; "."; "."];
  surface := ["~"; "~"; "-"; "-"];
  shallow := ["-"; "-"; "="; "="];
  medium := ["="; "="; "#"; "#"];
  deep := ["#"; "#"; "@"; "@"];
  foam := ["*"; "*"; "+"; "+"; "o"]
|}.

Definition dense : CharSet := {|
  sky := [" "; "·"; "˙"; "⋅"];
  surface := ["≈"; "∽"; "∼"; "≋"; "≃"];
  shallow := ["▁"; "▂"; "▃"; "▄"];
  medium := ["▅"; "▆"; "▇"; "█"];
  deep := ["█"; "▓"; "▒"; "░"];
  foam := ["✦"; "✧"; "✶"; "✷"; "✸"; "✹"]
|}.

Definition unicode : CharSet := {|
  sky := [" "; "∙"; "·"; "⋅"; "•"];
  surface := ["〜"; "～"; "∿"; "≈"; "≋"];
  shallow := ["⎯"; "⎼"; "▬"; "═"];
  medium := ["░"; "▒"; "▓"; "█"];
  deep := ["█"; "▉"; "▊"; "▋"; "▌"];
  foam := ["⁕"; "※"; "✢"; "✣"; "✤"; "✥"]
|}.

(** [this.characterSets]: assigned once by the constructor and never
    written again. *)
Definition characterSets : gmap string CharSet :=
  <["classic" := classic]> (<["minimal" := minimal]>
    (<["dense" := dense]> (<["unicode" := unicode]> ∅))).

(** The result of the property read [this.characterSets[name]]: an own
    property, a member inherited from [Object.prototype], or [undefined]. *)
Inductive propval : Type :=
| PVCharSet (c : CharSet)
| PVBuiltin (name : string)
| PVUndefined.

Definition get_charset (name : string) : propval :=
  match characterSets !! name with
  | Some c => PVCharSet c
  | None =>
      if decide (name ∈ Object_prototype_keys) then PVBuiltin name
      else PVUndefined
  end.

(** Truthiness: objects and functions are truthy, [undefined] is not. *)
Definition truthy (v : propval) : bool :=
  match v with
  | PVUndefined => false
  | _ => true
  end.

(** The engine.  [noise_id] is ghost state: the identity of the owned
    [SimplexNoise] object, advanced by every [new SimplexNoise]. *)
Record t : Type := mk {
  config : gmap string jsval;
  time : num;
  noise : SimplexNoise.t;
  noise_id : nat;
  currentCharacterSet : string
}.

(** The literal defaults of the constructor, with the drawn seed. *)
Definition defaults (seed : num) : gmap string jsval :=
  <["amplitude" := JNum 0.8]> (<["speed" := JNum 1.0]>
  (<["frequency" := JNum 1.5]> (<["layers" := JNum 3]>
  (<["choppiness" := JNum 0.3]> (<["foamThreshold" := JNum 0.7]>
  (<["depthEffect" := JNum 0.5]> (<["noiseSeed" := JNum seed]>
  (<["timeSpeed" := JNum 1.5]> ∅)))))))).

(** [constructor(config = {})] *)
Definition new (config : gmap string jsval) (w : World) : t * World :=
  let '(r, w) := Math_random w in
  let cfg := Object_assign (defaults (Math_floor (r * 999999))) config in
  let '(n, w) := SimplexNoise.new (prop cfg "noiseSeed") w in
  (mk cfg (Fin 0) n 1 "classic", w).

(** [updateConfig(newConfig)] *)
Definition updateConfig (e : t) (newConfig : gmap string jsval) (w : World)
  : t * World :=
  let cfg := Object_assign (config e) newConfig in
  match prop newConfig "noiseSeed" with
  | JUndefined =>
      (mk cfg (time e) (noise e) (noise_id e) (currentCharacterSet e), w)
  | JNum _ =>
      let '(n, w) := SimplexNoise.new (prop cfg "noiseSeed") w in
      (mk cfg (time e) n (S (noise_id e)) (currentCharacterSet e), w)
  end.

(** [setCharacterSet(setName)] *)
Definition setCharacterSet (e : t) (setName : string) : t :=
  if truthy (get_charset setName)
  then mk (config e) (time e) (noise e) (noise_id e) setName
  else e.

(** [update(deltaTime)] *)
Definition update (e : t) (deltaTime : num) : t :=
  mk (config e)
     (time e + deltaTime * ToNumber (prop (config e) "timeSpeed"))
     (noise e) (noise_id e) (currentCharacterSet e).

(** [resetTime()] *)
Definition resetTime (e : t) : t :=
  mk (config e) (Fin 0) (noise e) (noise_id e) (currentCharacterSet e).

(** [getConfig()]: a shallow copy. *)
Definition getConfig (e : t) : gmap string jsval := config e.

(** A numeric read [this.config.k]. *)
Definition cfg (e : t) (k : string) : num := ToNumber (prop (config e) k).

(** The three layer-local quantities at the head of [calculateWave]. *)
Definition layerDepth (e : t) (layer : num) : num :=
  layer / Math_max (cfg e "layers") 1.

Definition layerSpeed (e : t) (layer : num) : num :=
  cfg e "speed" * (1 - layerDepth e layer * cfg e "depthEffect").

Definition layerAmplitude (e : t) (layer : num) : num :=
  cfg e "amplitude" * (1 - layerDepth e layer * 0.3).

(** The outcome of [selectCharacter]: a glyph, [undefined], or a thrown
    [TypeError]. *)
Inductive outcome : Type :=
| Glyph (c : string)
| Undefined
| TypeError.

(** [chars[Math.min(index, chars.length - 1)]] *)
Definition pick (chars : list string) (index : num) : outcome :=
  match arr_get chars (Math_min index (num_of_nat (length chars) - 1)) with
  | Some c => Glyph c
  | None => Undefined
  end.

(** [selectCharacter(waveValue, layer)] *)
Definition selectCharacter (e : t) (waveValue layer : num) (w : World)
  : outcome * World :=
  let charSet := get_charset (currentCharacterSet e) in
  let normalized :=
    Utils.clamp ((waveValue / cfg e "amplitude" + 1) / 2) 0 1 in
  if (normalized >? cfg e "foamThreshold") && (waveValue >? 0) then
    match charSet with
    | PVCharSet cs =>
        let foamChars := foam cs in
        let '(r, w) := Math_random w in
        let index :=
          Math_floor ((r * 0.3 + normalized * 0.7)
                      * num_of_nat (length foamChars)) in
        (pick foamChars index, w)
    | PVBuiltin _ =>
        (* [charSet.foam] is [undefined]; [Math.random()] is evaluated
           before [foamChars.length] throws. *)
        let '(_, w) := Math_random w in (TypeError, w)
    | PVUndefined => (TypeError, w)
    end
  else
    match charSet with
    | PVCharSet cs =>
        if normalized >? 0.75 then
          let chars := surface cs in
          let index :=
            Math_floor ((normalized - 0.75) * 4 * num_of_nat (length chars)) in
          (pick chars index, w)
        else if normalized >? 0.55 then
          let chars := shallow cs in
          let index :=
            Math_floor ((normalized - 0.55) * 5 * num_of_nat (length chars)) in
          (pick chars index, w)
        else if normalized >? 0.35 then
          let chars := medium cs in
          let index :=
            Math_floor ((normalized - 0.35) * 5 * num_of_nat (length chars)) in
          (pick chars index, w)
        else if normalized >? 0.15 then
          let chars := deep cs in
          let index :=
            Math_floor ((normalized - 0.15) * 5 * num_of_nat (length chars)) in
          (pick chars index, w)
        else
          let chars := sky cs in
          let index :=
            Math_floor (normalized * 6.67 * num_of_nat (length chars)) in
          (pick chars index, w)
    | _ => (TypeError, w)
    end.

Section Sine.

(** The host's [Math.sin] on finite arguments. *)
Variable sin_impl : Q -> Q.

Definition Math_sin (a : num) : num :=
  match a with
  | Fin x => Fin (sin_impl (Qred x))
  | _ => NaN
  end.

(** [calculateWave(x, y, layer)]: the running sum [wave] is threaded
    through the five [wave += ...] statements; [None] stands for a
    [TypeError] thrown inside [noise3D]. *)
Definition calculateWave (e : t) (x y layer : num) : option num :=
  let layerDepth := layerDepth e layer in
  let layerSpeed := layerSpeed e layer in
  let layerAmplitude := layerAmplitude e layer in
  let wave := Fin 0 in
  let wave :=
    wave + Math_sin (x * cfg e "frequency" * Math_PI * 2
                     + time e * layerSpeed) * layerAmplitude in
  let wave :=
    wave + Math_sin (x * cfg e "frequency" * 1.5 * Math_PI * 2
                     + time e * layerSpeed * 1.3) * layerAmplitude * 0.5 in
  let wave :=
    wave + Math_sin (x * cfg e "frequency" * 2.5 * Math_PI * 2
                     + time e * layerSpeed * 0.7) * layerAmplitude * 0.3 in
  noiseValue ←
    SimplexNoise.noise3D (noise e)
      (x * cfg e "frequency" * 2)
      (y * cfg e "frequency" * 2 + time e * layerSpeed * 0.1)
      (layer * 0.5);
  let wave := wave + noiseValue * cfg e "choppiness" * layerAmplitude in
  let wave :=
    wave + Math_sin (y * Math_PI + time e * layerSpeed * 0.5)
           * layerAmplitude * 0.3 in
  Some wave.

End Sine.

End WaveEngine.

(* ===================================================================== *)
(** ** Statements that loop *)
(* ===================================================================== *)

(** The way a statement ends: normally, by a thrown exception, or not
    within the iterations allowed.  The state reached is kept in the first
    two cases. *)
Inductive completion (St : Type) : Type :=
| Normal (s : St)
| Throw (s : St)
| OutOfFuel.

Arguments Normal {St} s.
Arguments Throw {St} s.
Arguments OutOfFuel {St}.

(** [for (let i = init; cond(i); i = step(i)) body], each loop running for
    at most [fuel] iterations. *)
Fixpoint for_loop {St : Type} (fuel : nat) (cond : num -> bool)
  (step : num -> num) (body : num -> St -> completion St) (i : num) (s : St)
  : completion St :=
  match fuel with
  | O => OutOfFuel
  | S fuel' =>
      if cond i then
        match body i s with
        | Normal s' => for_loop fuel' cond step body (step i) s'
        | c => c
        end
      else Normal s
  end.

(* ===================================================================== *)
(** ** renderer.js: class Renderer *)
(* ===================================================================== *)

Module Renderer.

(** The literal configuration of the constructor. *)
Definition default_config : gmap string jsval :=
  <["cellSize" := JNum 16]> (<["hue" := JNum 200]>
  (<["saturation" := JNum 0.6]> (<["brightness" := JNum 0.0]>
  (<["contrast" := JNum 1.0]> (<["vignetteIntensity" := JNum 0.4]>
  (<["vignetteRadius" := JNum 0.6]> ∅)))))).

(** [calculateColor(waveValue, layerDepth)] for a renderer whose
    configuration is [config] and whose engine is [engine].  The result
    is the triple interpolated into the string [rgb(r, g, b)]. *)
Definition calculateColor (config : gmap string jsval)
  (engine : WaveEngine.t) (waveValue layerDepth : num) : num * num * num :=
  let waveConfig := WaveEngine.config engine in
  let normalized :=
    Utils.clamp
      ((waveValue / ToNumber (prop waveConfig "amplitude") + 1) / 2) 0 1 in
  let lightness := 0.5 + ToNumber (prop config "brightness") in
  let lightness :=
    lightness
    * ((0.5 + normalized * 0.5) * ToNumber (prop config "contrast")) in
  let lightness :=
    lightness
    * (1 - layerDepth * ToNumber (prop waveConfig "depthEffect") * 0.5) in
  let lightness := Utils.clamp lightness 0 1 in
  Utils.hslToRgb (ToNumber (prop config "hue"))
                 (ToNumber (prop config "saturation")) lightness.

(** The renderer: the size of the canvas, the configuration, the derived
    grid, the timestamp of the last frame, and the value interpolated into
    [ctx.font] ([`${cellSize}px monospace`]).  The engine is a shared
    object and is passed beside the renderer. *)
Record t : Type := mk {
  canvas_width : num;
  canvas_height : num;
  config : gmap string jsval;
  gridWidth : num;
  gridHeight : num;
  lastTime : num;
  font_px : jsval
}.

(** [resizeCanvas()], for a window of the given inner size. *)
Definition resizeCanvas (r : t) (innerWidth innerHeight : num) : t :=
  mk innerWidth innerHeight (config r)
     (Math_ceil (innerWidth / ToNumber (prop (config r) "cellSize")))
     (Math_ceil (innerHeight / ToNumber (prop (config r) "cellSize")))
     (lastTime r)
     (prop (config r) "cellSize").

(** [constructor(canvas, waveEngine)]: the literal configuration, a zero
    grid and timestamp, then [resizeCanvas()].  The resize listener is not
    modelled. *)
Definition new (canvasWidth canvasHeight innerWidth innerHeight : num) : t :=
  resizeCanvas
    (mk canvasWidth canvasHeight default_config (Fin 0) (Fin 0) (Fin 0)
        JUndefined)
    innerWidth innerHeight.

(** [updateConfig(newConfig)] *)
Definition updateConfig (r : t) (newConfig : gmap string jsval) : t :=
  let oldCellSize := prop (config r) "cellSize" in
  let cfg := Object_assign (config r) newConfig in
  if negb (strict_eq (prop newConfig "cellSize") JUndefined)
     && negb (strict_eq (prop newConfig "cellSize") oldCellSize)
  then
    mk (canvas_width r) (canvas_height r) cfg
       (Math_ceil (canvas_width r / ToNumber (prop cfg "cellSize")))
       (Math_ceil (canvas_height r / ToNumber (prop cfg "cellSize")))
       (lastTime r)
       (prop cfg "cellSize")
  else
    mk (canvas_width r) (canvas_height r) cfg
       (gridWidth r) (gridHeight r) (lastTime r) (font_px r).

(** [getConfig()]: a shallow copy. *)
Definition getConfig (r : t) : gmap string jsval := config r.

(** A numeric read [this.config.k]. *)
Definition cfg (r : t) (k : string) : num := ToNumber (prop (config r) k).

(** The calls a frame makes on the 2D context, in order.  A colour is the
    triple interpolated into [fillStyle]; the text of [fillText] is a glyph
    or [undefined]; [Vignette] stands for the radial gradient
    [createRadialGradient(cx, cy, r0, cx, cy, r1)] with its two colour
    stops, the second of opacity [alpha], filled over
    [fillRect(0, 0, w, h)].  [fillRect], [fillText] and the assignment of
    [fillStyle] accept every argument (an unparsable colour is ignored). *)
Inductive draw : Type :=
| FillRect (color : num * num * num) (x y w h : num)
| FillText (color : num * num * num) (text : option string) (x y : num)
| Vignette (cx cy r0 r1 alpha w h : num).

Section Host.

(** The host's [Math.sin] and [Math.sqrt] on finite arguments. *)
Variables sin_impl sqrt_impl : Q -> Q.

Definition Math_sqrt (a : num) : num :=
  match a with
  | Fin x => if Qltb x 0 then NaN else Fin (sqrt_impl (Qred x))
  | PInf => PInf
  | _ => NaN
  end.

(** [applyVignette()]: the call it makes, if any.  The canvas checks what
    it is handed: [createRadialGradient] throws a [TypeError] on an
    argument that is not finite and an [IndexSizeError] on a negative
    radius, and [addColorStop] throws a [SyntaxError] on the colour
    [rgba(0, 0, 0, ${vignetteIntensity})] when the number printed is not
    finite.  Nothing is drawn when one of them throws. *)
Definition applyVignette (r : t) : completion (list draw) :=
  if cfg r "vignetteIntensity" <=? 0 then Normal []
  else
    let centerX := canvas_width r / 2 in
    let centerY := canvas_height r / 2 in
    let maxRadius := Math_sqrt (centerX * centerX + centerY * centerY) in
    let vignetteRadius := maxRadius * cfg r "vignetteRadius" in
    if negb (forallb finiteb [centerX; centerY; vignetteRadius; maxRadius])
    then Throw []
    else if (vignetteRadius <? 0) || (maxRadius <? 0) then Throw []
    else if negb (finiteb (cfg r "vignetteIntensity")) then Throw []
    else
      Normal [Vignette centerX centerY vignetteRadius maxRadius
                       (cfg r "vignetteIntensity")
                       (canvas_width r) (canvas_height r)].

(** The body of the innermost loop of [render], for the cell
    [(gridX, gridY)] of a layer.  The state is the ambient generator and
    the calls made so far. *)
Definition render_cell (r : t) (e : WaveEngine.t)
  (layer layerDepth gridY gridX : num) (s : World * list draw)
  : completion (World * list draw) :=
  let x := gridX / gridWidth r in
  let y := gridY / gridHeight r in
  match WaveEngine.calculateWave sin_impl e x y layer with
  | None => Throw s
  | Some waveValue =>
      let '(char, w) :=
        WaveEngine.selectCharacter e waveValue layer (fst s) in
      let color := calculateColor (config r) e waveValue layerDepth in
      match char with
      | WaveEngine.TypeError => Throw (w, snd s)
      | WaveEngine.Glyph c =>
          if String.eqb c " " then Normal (w, snd s)
          else
            Normal (w, snd s ++ [FillText color (Some c)
                                          (gridX * cfg r "cellSize")
                                          (gridY * cfg r "cellSize")])
      | WaveEngine.Undefined =>
          Normal (w, snd s ++ [FillText color None
                                        (gridX * cfg r "cellSize")
                                        (gridY * cfg r "cellSize")])
      end
  end.

(** [for (let gridX = 0; gridX < this.gridWidth; gridX++) ...] *)
Definition render_row (fuel : nat) (r : t) (e : WaveEngine.t)
  (layer layerDepth gridY : num) (s : World * list draw)
  : completion (World * list draw) :=
  for_loop fuel (fun gridX => gridX <? gridWidth r) (fun gridX => gridX + 1)
           (render_cell r e layer layerDepth gridY) (Fin 0) s.

(** The body of the layer loop: the depth of the layer, then
    [for (let gridY = 0; gridY < this.gridHeight; gridY++) ...] *)
Definition render_layer (fuel : nat) (r : t) (e : WaveEngine.t)
  (layer : num) (s : World * list draw) : completion (World * list draw) :=
  let layerDepth := layer / Math_max (WaveEngine.cfg e "layers") 1 in
  for_loop fuel (fun gridY => gridY <? gridHeight r) (fun gridY => gridY + 1)
           (render_row fuel r e layer layerDepth) (Fin 0) s.

(** [render(timestamp)]: the renderer and the engine after the call, and
    the way the frame ends with the calls it made.  The clock is advanced
    before anything is drawn; the vignette comes last, and an exception of
    the canvas there ends the frame with the calls made before it. *)
Definition render (fuel : nat) (r : t) (e : WaveEngine.t) (timestamp : num)
  (w : World) : t * WaveEngine.t * completion (World * list draw) :=
  let deltaTime :=
    if num_truthy (lastTime r) then (timestamp - lastTime r) / 1000
    else Fin 0 in
  let r :=
    mk (canvas_width r) (canvas_height r) (config r) (gridWidth r)
       (gridHeight r) timestamp (font_px r) in
  let e := WaveEngine.update e deltaTime in
  let bgColor := calculateColor (config r) e (- WaveEngine.cfg e "amplitude") 1 in
  let s := (w, [FillRect bgColor 0 0 (canvas_width r) (canvas_height r)]) in
  match
    for_loop fuel (fun layer => layer >=? 0) (fun layer => layer - 1)
             (render_layer fuel r e) (WaveEngine.cfg e "layers" - 1) s
  with
  | Normal (w, ds) =>
      match applyVignette r with
      | Normal vignette => (r, e, Normal (w, ds ++ vignette))
      | Throw _ => (r, e, Throw (w, ds))
      | OutOfFuel => (r, e, OutOfFuel)
      end
  | c => (r, e, c)
  end.

End Host.

End Renderer.

(* ===================================================================== *)
(** ** presets.js *)
(* ===================================================================== *)

Module Presets.

Record Preset : Type := mkPreset {
  name : string;
  description : string;
  wave : gmap string jsval;
  visual : gmap string jsval;
  characterSet : string
}.

(** A [wave] object literal of a theme. *)
Definition wave_of
  (amplitude speed frequency layers choppiness foamThreshold depthEffect
     timeSpeed : Q) : gmap string jsval :=
  <["amplitude" := JNum amplitude]> (<["speed" := JNum speed]>
  (<["frequency" := JNum frequency]> (<["layers" := JNum layers]>
  (<["choppiness" := JNum choppiness]>
  (<["foamThreshold" := JNum foamThreshold]>
  (<["depthEffect" := JNum depthEffect]>
  (<["timeSpeed" := JNum timeSpeed]> ∅))))))).

(** A [visual] object literal of a theme. *)
Definition visual_of
  (cellSize hue saturation brightness contrast vignetteIntensity
     vignetteRadius : Q) : gmap string jsval :=
  <["cellSize" := JNum cellSize]> (<["hue" := JNum hue]>
  (<["saturation" := JNum saturation]> (<["brightness" := JNum brightness]>
  (<["contrast" := JNum contrast]>
  (<["vignetteIntensity" := JNum vignetteIntensity]>
  (<["vignetteRadius" := JNum vignetteRadius]> ∅)))))).

(** [Presets.themes], in the order of the object literal. *)
Definition themes : list (string * Preset) :=
  [ ("ocean",
     mkPreset "Ocean" "Classic blue ocean waves"
       (wave_of 0.8 1.0 1.5 3 0.3 0.7 0.5 1.5)
       (visual_of 16 200 0.6 0.0 1.0 0.4 0.6) "classic");
    ("sunset",
     mkPreset "Sunset Waves" "Warm orange and red ocean at dusk"
       (wave_of 0.6 0.7 1.2 4 0.2 0.8 0.6 1.2)
       (visual_of 16 20 0.8 0.1 1.3 0.6 0.5) "minimal");
    ("storm",
     mkPreset "Storm" "Violent stormy seas"
       (wave_of 1.5 2.0 2.5 5 0.8 0.6 0.7 2.0)
       (visual_of 14 200 0.3 (-0.2) 1.5 0.7 0.4) "dense");
    ("night",
     mkPreset "Calm Night" "Peaceful nighttime ocean"
       (wave_of 0.4 0.5 0.8 2 0.1 0.9 0.4 1.0)
       (visual_of 18 240 0.4 (-0.3) 1.2 0.8 0.5) "minimal");
    ("tropical",
     mkPreset "Tropical" "Bright turquoise tropical waters"
       (wave_of 0.7 0.8 1.8 3 0.4 0.7 0.5 1.3)
       (visual_of 16 180 0.9 0.2 1.1 0.3 0.7) "classic");
    ("terminal",
     mkPreset "Terminal" "Retro monochrome terminal aesthetic"
       (wave_of 0.9 1.2 1.5 3 0.5 0.75 0.3 1.5)
       (visual_of 14 120 1.0 0.0 2.0 0.2 0.8) "minimal") ].

(** The value of [this.themes[key] || null]: a theme, a member inherited
    from [Object.prototype] (truthy, so it is returned), or [null]. *)
Inductive found : Type :=
| Theme (p : Preset)
| Inherited (key : string)
| Null.

Fixpoint assoc (key : string) (l : list (string * Preset)) : option Preset :=
  match l with
  | [] => None
  | (k, p) :: l => if String.eqb k key then Some p else assoc key l
  end.

(** [get(key)] *)
Definition get (key : string) : found :=
  match assoc key themes with
  | Some p => Theme p
  | None =>
      if decide (key ∈ Object_prototype_keys) then Inherited key else Null
  end.

(** [getKeys()]: [Object.keys(this.themes)]. *)
Definition getKeys : list string := List.map fst themes.

(** [getList()] *)
Definition getList : list (string * string * string) :=
  List.map (fun '(key, preset) => (key, name preset, description preset))
           themes.

(** The outcome of [apply]: the boolean returned with the states left
    behind, or a thrown [TypeError]. *)
Inductive applied : Type :=
| Returned (ok : bool) (e : WaveEngine.t) (r : Renderer.t) (w : World)
| TypeError.

(** [apply(key, waveEngine, renderer)].  For an inherited member,
    [preset.wave] is [undefined]: [Object.assign] ignores it and reading
    [newConfig.noiseSeed] throws. *)
Definition apply (key : string) (e : WaveEngine.t) (r : Renderer.t)
  (w : World) : applied :=
  match get key with
  | Null => Returned false e r w
  | Inherited _ => TypeError
  | Theme preset =>
      let '(e, w) := WaveEngine.updateConfig e (wave preset) w in
      let e := WaveEngine.setCharacterSet e (characterSet preset) in
      let r := Renderer.updateConfig r (visual preset) in
      Returned true e r w
  end.

(** [createFromCurrent(waveEngine, renderer)] *)
Definition createFromCurrent (e : WaveEngine.t) (r : Renderer.t) : Preset :=
  mkPreset "Custom" "User-defined configuration"
           (WaveEngine.getConfig e) (Renderer.getConfig r)
           (WaveEngine.currentCharacterSet e).

End Presets.

(* ===================================================================== *)
(** ** controls.js and main.js: configuration in and out *)
(* ===================================================================== *)

Module Controls.

(** A parsed configuration object
    [{wave: ..., visual: ..., characterSet: ...}]; an absent member is
    [None]. *)
Record Saved : Type := mkSaved {
  wave : option (gmap string jsval);
  visual : option (gmap string jsval);
  characterSet : option string
}.

(** [getConfig()] *)
Definition getConfig (e : WaveEngine.t) (r : Renderer.t) : Saved :=
  mkSaved (Some (WaveEngine.getConfig e)) (Some (Renderer.getConfig r))
          (Some (WaveEngine.currentCharacterSet e)).

(** The body shared by [loadFromStorage], [loadFromURL] and
    [ExportManager.loadJSON] once the text is parsed: each member is applied
    if it is truthy (an object always is, a string unless it is empty). *)
Definition load (c : Saved) (e : WaveEngine.t) (r : Renderer.t) (w : World)
  : WaveEngine.t * Renderer.t * World :=
  let '(e, w) :=
    match wave c with
    | Some wv => WaveEngine.updateConfig e wv w
    | None => (e, w)
    end in
  let r :=
    match visual c with
    | Some v => Renderer.updateConfig r v
    | None => r
    end in
  let e :=
    match characterSet c with
    | Some cs => if String.eqb cs "" then e else WaveEngine.setCharacterSet e cs
    | None => e
    end in
  (e, r, w).

(** The seed button and the Ctrl+R shortcut:
    [updateConfig({ noiseSeed: Utils.randomInt(0, 999999) })]. *)
Definition regenerateSeed (e : WaveEngine.t) (w : World)
  : WaveEngine.t * World :=
  let '(newSeed, w) := Utils.randomInt 0 999999 w in
  WaveEngine.updateConfig e (<["noiseSeed" := JNum newSeed]> ∅) w.

(** [applyPreset(presetKey)]: [Presets.apply]; the UI refresh that follows
    a success is not modelled. *)
Definition applyPreset (presetKey : string) (e : WaveEngine.t)
  (r : Renderer.t) (w : World) : Presets.applied :=
  Presets.apply presetKey e r w.

(** The keys bound to the digits 1 to 6 in [main.js]. *)
Definition presetKeys : list string :=
  ["ocean"; "sunset"; "storm"; "night"; "tropical"; "terminal"].

End Controls.

(* ===================================================================== *)
(** ** The specification's words, for comparison with the code *)
(* ===================================================================== *)

Module Spec.

(** The stated recurrence of the seeded generator, on integers; [mod] is
    the remainder of the language (sign of the dividend). *)
Definition lcg (seed : Z) : Z := Z.rem (seed * 9301 + 49297) 233280.

(** The normalised height [n = clamp((waveValue/amplitude + 1)/2, 0, 1)]. *)
Definition normalize (waveValue amplitude : num) : num :=
  Utils.clamp ((waveValue / amplitude + 1) / 2) 0 1.

Section Sine.

Variable sin_impl : Q -> Q.

Let sin := WaveEngine.Math_sin sin_impl.

Definition two_pi : num := 2 * Math_PI.

(** [sampleHeight(xNorm, yNorm, layer)] as the specification words it:
    the depth fraction, the two layer-local quantities, and the sum of
    the five terms.  [sample3] is the owned noise field's sampler. *)
Definition sampleHeight
  (amplitude speed frequency layers choppiness depthEffect clock : num)
  (sample3 : num -> num -> num -> option num)
  (xNorm yNorm layer : num) : option num :=
  let d := layer / Math_max layers 1 in
  let layerSpeed := speed * (1 - d * depthEffect) in
  let layerAmplitude := amplitude * (1 - d * 0.3) in
  noise ← sample3 (xNorm * frequency * 2)
                  (yNorm * frequency * 2 + clock * layerSpeed * 0.1)
                  (layer * 0.5);
  Some
    (sin (xNorm * frequency * two_pi + clock * layerSpeed)
       * layerAmplitude
     + sin (xNorm * frequency * 1.5 * two_pi + clock * layerSpeed * 1.3)
       * layerAmplitude * 0.5
     + sin (xNorm * frequency * 2.5 * two_pi + clock * layerSpeed * 0.7)
       * layerAmplitude * 0.3
     + noise * choppiness * layerAmplitude
     + sin (yNorm * Math_PI + clock * layerSpeed * 0.5)
       * layerAmplitude * 0.3).

End Sine.

End Spec.

(** The closure of [seededRandom] after [k] calls: its captured state. *)
Fixpoint closure_state (k : nat) (seed : num) : num :=
  match k with
  | O => seed
  | S k => snd (SimplexNoise.seededRandom_call (closure_state k seed))
  end.

(** The value returned by call number [k] (counting from zero). *)
Definition closure_output (k : nat) (seed : num) : num :=
  fst (SimplexNoise.seededRandom_call (closure_state k seed)).

(** Equality of optional numbers up to [num_eq]. *)
Definition onum_eq (a b : option num) : Prop :=
  match a, b with
  | Some x, Some y => x =n= y
  | None, None => True
  | _, _ => False
  end.

(** An integer-valued channel in the range of a colour byte. *)
Definition is_byte (a : num) : Prop :=
  exists z : Z, a = num_of_Z z /\ (0 <= z <= 255)%Z.

(** The fixed palette identifiers. *)
Definition palette_names : list string :=
  ["classic"; "minimal"; "dense"; "unicode"].

(** A world whose generator always returns [r]. *)
Definition const_world (r : Q) : World := mkWorld (fun _ => r) 0.

(** Engines used to instantiate the theorems: the constructor run on an
    explicit seed, with the defaults and with a single layer. *)
Definition demo_world : World := const_world (1 # 2).

Definition demo_engine : WaveEngine.t :=
  fst (WaveEngine.new (<["noiseSeed" := JNum 42]> ∅) demo_world).

Definition single_layer_engine : WaveEngine.t :=
  fst (WaveEngine.new
         (<["layers" := JNum 1]> (<["noiseSeed" := JNum 42]> ∅)) demo_world).

Definition zero_amplitude_engine : WaveEngine.t :=
  fst (WaveEngine.new
         (<["amplitude" := JNum 0]> (<["noiseSeed" := JNum 42]> ∅))
         demo_world).

(** Membership of a glyph in the bands of a character set. *)
Definition in_water_bands (cs : WaveEngine.CharSet) (c : string) : Prop :=
  c ∈ WaveEngine.sky cs \/ c ∈ WaveEngine.surface cs
  \/ c ∈ WaveEngine.shallow cs \/ c ∈ WaveEngine.medium cs
  \/ c ∈ WaveEngine.deep cs.

Definition in_bands (cs : WaveEngine.CharSet) (c : string) : Prop :=
  in_water_bands cs c \/ c ∈ WaveEngine.foam cs.

(** The range of a gradient index. *)
Definition is_grad_index (z : Z) : Prop := (0 <= z < 12)%Z.

(** Well-formed tables: the three typed arrays have their declared lengths,
    [p] and [perm] hold bytes, [permMod12] holds gradient indices, and there
    are twelve gradient vectors. *)
Definition tables_ok (n : SimplexNoise.t) : Prop :=
  length (SimplexNoise.p n) = 256%nat
  /\ Forall is_u8 (SimplexNoise.p n)
  /\ length (SimplexNoise.perm n) = 512%nat
  /\ Forall is_u8 (SimplexNoise.perm n)
  /\ length (SimplexNoise.permMod12 n) = 512%nat
  /\ Forall is_grad_index (SimplexNoise.permMod12 n)
  /\ length (SimplexNoise.grad3 n) = 12%nat.

(** A state of the seeded generator from which the next call returns a
    number of [0, 1) and reaches a non-negative state. *)
Definition good_seed (seed : num) : Prop :=
  exists r s' : Q,
    SimplexNoise.seededRandom_call seed = (Fin r, Fin s')
    /\ (0 <= r < 1)%Q /\ (0 <= s')%Q.

(** The elements of a table from which 255 has been lost. *)
Definition below_255 (z : Z) : Prop := (0 <= z < 255)%Z.

(** The engines a program can hold: built by the constructor and changed
    only through the methods of the class. *)
Inductive reachable : WaveEngine.t -> Prop :=
| reach_new (config : gmap string jsval) (w : World) :
    reachable (fst (WaveEngine.new config w))
| reach_updateConfig (e : WaveEngine.t) (newConfig : gmap string jsval)
    (w : World) :
    reachable e -> reachable (fst (WaveEngine.updateConfig e newConfig w))
| reach_setCharacterSet (e : WaveEngine.t) (setName : string) :
    reachable e -> reachable (WaveEngine.setCharacterSet e setName)
| reach_update (e : WaveEngine.t) (deltaTime : num) :
    reachable e -> reachable (WaveEngine.update e deltaTime)
| reach_resetTime (e : WaveEngine.t) :
    reachable e -> reachable (WaveEngine.resetTime e).

(** The configuration entries read by [calculateWave]. *)
Definition wave_keys : list string :=
  ["amplitude"; "speed"; "frequency"; "layers"; "choppiness"; "depthEffect"].

Definition finite_config (e : WaveEngine.t) : Prop :=
  Forall (fun k => is_finite (WaveEngine.cfg e k)) wave_keys.

(** Values that denote the same thing: [undefined], or the same number. *)
Definition jsval_eq (a b : jsval) : Prop :=
  match a, b with
  | JUndefined, JUndefined => True
  | JNum x, JNum y => x =n= y
  | _, _ => False
  end.

(** The grid and the font of a renderer agree with its canvas and its cell
    size. *)
Definition grid_consistent (r : Renderer.t) : Prop :=
  Renderer.gridWidth r
  = Math_ceil (Renderer.canvas_width r
               / ToNumber (prop (Renderer.config r) "cellSize"))
  /\ Renderer.gridHeight r
     = Math_ceil (Renderer.canvas_height r
                  / ToNumber (prop (Renderer.config r) "cellSize"))
  /\ jsval_eq (Renderer.font_px r) (prop (Renderer.config r) "cellSize").

(** A renderer on a window of 800 by 600 pixels. *)
Definition demo_renderer : Renderer.t :=
  Renderer.new (Fin 300) (Fin 150) (Fin 800) (Fin 600).

(** A loop counter: a number that denotes a non-negative integer. *)
Definition is_index (i : num) : Prop :=
  exists k : Z, (0 <= k)%Z /\ i =n= num_of_Z k.

(** A call that draws the glyph of a cell of the grid: the text is not a
    space, and the position is that of a cell
    [(gridX * cellSize, gridY * cellSize)] with [gridX] and [gridY] inside
    the grid. *)
Definition cell_draw (r : Renderer.t) (d : Renderer.draw) : Prop :=
  match d with
  | Renderer.FillText _ text x y =>
      text <> Some " "
      /\ exists gridX gridY : num,
           is_index gridX /\ is_index gridY
           /\ (gridX <? Renderer.gridWidth r) = true
           /\ (gridY <? Renderer.gridHeight r) = true
           /\ x = gridX * Renderer.cfg r "cellSize"
           /\ y = gridY * Renderer.cfg r "cellSize"
  | _ => False
  end.

(** A frame that was not cut short by the fuel. *)
Definition completed {St : Type} (c : completion St) : Prop :=
  match c with
  | OutOfFuel => False
  | _ => True
  end.

(** The calls of a frame in progress: the background [bg], then glyphs of
    cells. *)
Definition frame_so_far (r : Renderer.t) (bg : Renderer.draw)
  (s : World * list Renderer.draw) : Prop :=
  exists cells : list Renderer.draw,
    snd s = bg :: cells /\ Forall (cell_draw r) cells.

(** The renderer after a cell size of 0 was loaded. *)
Definition zero_cell_renderer : Renderer.t :=
  Renderer.updateConfig demo_renderer (<["cellSize" := JNum 0]> ∅).

(** What every theme of [Presets.themes] provides: no seed, one of the four
    palettes, a positive amplitude, at least one layer, a saturation of the
    unit interval and a positive cell size. *)
Definition theme_ok (preset : Presets.Preset) : Prop :=
  Presets.wave preset !! "noiseSeed" = None
  /\ Presets.characterSet preset ∈ palette_names
  /\ (exists a l : Q,
        Presets.wave preset !! "amplitude" = Some (JNum (Fin a))
        /\ Presets.wave preset !! "layers" = Some (JNum (Fin l))
        /\ (0 < a)%Q /\ (1 <= l)%Q)
  /\ (exists sat c : Q,
        Presets.visual preset !! "saturation" = Some (JNum (Fin sat))
        /\ Presets.visual preset !! "cellSize" = Some (JNum (Fin c))
        /\ (0 <= sat <= 1)%Q /\ (0 < c)%Q).

(** A colour whose three channels are bytes, and a canvas call whose
    colour is one. *)
Definition is_rgb (c : num * num * num) : Prop :=
  is_byte (fst (fst c)) /\ is_byte (snd (fst c)) /\ is_byte (snd c).

Definition draw_rgb (d : Renderer.draw) : Prop :=
  match d with
  | Renderer.FillRect c _ _ _ _ | Renderer.FillText c _ _ _ => is_rgb c
  | Renderer.Vignette _ _ _ _ _ _ _ => True
  end.

(** The visual settings read by [calculateColor] are finite, with a
    saturation of the unit interval. *)
Definition finite_visual (r : Renderer.t) : Prop :=
  is_finite (Renderer.cfg r "hue")
  /\ is_finite (Renderer.cfg r "brightness")
  /\ is_finite (Renderer.cfg r "contrast")
  /\ exists sat : Q,
       Renderer.cfg r "saturation" = Fin sat /\ (0 <= sat <= 1)%Q.

(** ** Where the arithmetic of the model is the arithmetic of the program

    The program computes in double precision.  Its arithmetic is exact on
    integers up to 2^53 in magnitude, and a product of the few factors it
    multiplies cannot overflow while each factor stays of moderate size.
    The statements whose truth depends on it name the range. *)

(** The largest integer up to which every integer is a double. *)
Definition max_exact_integer : Z := 2 ^ 53.

(** Integer seeds whose first step [seed * 9301 + 49297] is computed
    exactly. *)
Definition exact_seed (seed : Z) : Prop :=
  (Z.abs seed * 9301 + 49297 <= max_exact_integer)%Z.

(** A magnitude far beyond every control of the application and far below
    the overflow threshold. *)
Definition safe_bound : Q := 1000000000.

(** A finite number of magnitude at most [B]. *)
Definition within (B : Q) (a : num) : Prop :=
  exists q : Q, a = Fin q /\ (- B <= q <= B)%Q.

Definition bounded_config (e : WaveEngine.t) : Prop :=
  Forall (fun k => within safe_bound (WaveEngine.cfg e k)) wave_keys.

(** The visual settings read by [calculateColor]: a finite hue, a
    brightness and a contrast of moderate size, a saturation of the unit
    interval. *)
Definition bounded_visual (r : Renderer.t) : Prop :=
  is_finite (Renderer.cfg r "hue")
  /\ within safe_bound (Renderer.cfg r "brightness")
  /\ within safe_bound (Renderer.cfg r "contrast")
  /\ exists sat : Q,
       Renderer.cfg r "saturation" = Fin sat /\ (0 <= sat <= 1)%Q.

(** The clock data of a frame: the last timestamp, the engine clock and
    its multiplier. *)
Definition bounded_clock (r : Renderer.t) (e : WaveEngine.t) : Prop :=
  within safe_bound (Renderer.lastTime r)
  /\ within safe_bound (WaveEngine.time e)
  /\ within safe_bound (WaveEngine.cfg e "timeSpeed").

(** A canvas and vignette settings that the gradient of the canvas
    accepts: a canvas of at most 2^32 pixels each way, a radius fraction
    that is finite and not negative, a finite intensity. *)
Definition vignette_ok (r : Renderer.t) : Prop :=
  within 4294967296 (Renderer.canvas_width r)
  /\ within 4294967296 (Renderer.canvas_height r)
  /\ (exists q : Q,
        Renderer.cfg r "vignetteRadius" = Fin q
        /\ (0 <= q <= safe_bound)%Q)
  /\ is_finite (Renderer.cfg r "vignetteIntensity").

(** The contract of [Math.sqrt] on finite arguments that are not negative:
    the root is not negative. *)
Definition sqrt_contract (sqrt_impl : Q -> Q) : Prop :=
  forall x : Q, (0 <= x)%Q -> (0 <= sqrt_impl x)%Q.

(** The sixteen hexadecimal digits, and a byte written with two of
    them. *)
Definition hex_digit (n : Z) : Ascii.ascii :=
  match String.get (Z.to_nat n) "0123456789abcdef" with
  | Some c => c
  | None => Ascii.ascii_of_nat 48
  end.

Definition two_hex_digits (x : Z) : string :=
  String (hex_digit (x / 16)%Z)
         (String (hex_digit (x mod 16)%Z) EmptyString).

(** The value of a loop counter after [k] increments from 0. *)
Definition count_up (k : nat) : num := Nat.iter k (fun i => i + 1) (Fin 0).

(** The glyph calls of a frame in which every cell draws the text
    [undefined] in a colour of NaN channels: the cells of one row, the
    rows of one layer, and the layers of the frame, each in the order of
    its loop. *)
Definition undefined_row (cellSize : num) (cols gridY : nat)
  : list Renderer.draw :=
  flat_map
    (fun gridX : nat =>
       [Renderer.FillText (NaN, NaN, NaN) None
          (count_up gridX * cellSize) (count_up gridY * cellSize)])
    (seq 0 cols).

Definition undefined_grid (cellSize : num) (rows cols : nat)
  : list Renderer.draw :=
  flat_map (undefined_row cellSize cols) (seq 0 rows).

Definition undefined_cells (cellSize : num) (layers rows cols : nat)
  : list Renderer.draw :=
  flat_map (fun _ : nat => undefined_grid cellSize rows cols) (seq 0 layers).

(* ===================================================================== *)
(** * Properties *)
(* ===================================================================== *)

(** ** Numbers *)

Section NumFacts.

Lemma Qltb_true (a b : Q) : Qltb a b = true <-> (a < b)%Q.
Proof.
  unfold Qltb. rewrite negb_true_iff. split; intros H.
  - apply Qnot_le_lt. intros Hle. apply Qle_bool_iff in Hle. congruence.
  - destruct (Qle_bool b a) eqn:E; [|reflexivity].
    apply Qle_bool_iff in E. lra.
Qed.

Lemma Qltb_false (a b : Q) : Qltb a b = false <-> (b <= a)%Q.
Proof.
  unfold Qltb. rewrite negb_false_iff. apply Qle_bool_iff.
Qed.

Lemma Qle_bool_false (a b : Q) : Qle_bool a b = false <-> (b < a)%Q.
Proof.
  split; intros H.
  - apply Qnot_le_lt. intros Hle. apply Qle_bool_iff in Hle. congruence.
  - destruct (Qle_bool a b) eqn:E; [|reflexivity].
    apply Qle_bool_iff in E. lra.
Qed.

Lemma Qeq_bool_false (a b : Q) : Qeq_bool a b = false <-> ~ (a == b)%Q.
Proof.
  split; intros H.
  - intros Heq. apply Qeq_bool_iff in Heq. congruence.
  - destruct (Qeq_bool a b) eqn:E; [|reflexivity].
    apply Qeq_bool_iff in E. contradiction.
Qed.

Lemma Qcompare_Gt (a b : Q) : (b < a)%Q -> (a ?= b)%Q = Gt.
Proof. intros H. now apply Qgt_alt. Qed.

Lemma Qcompare_Lt (a b : Q) : (a < b)%Q -> (a ?= b)%Q = Lt.
Proof. intros H. now apply Qlt_alt. Qed.

Lemma Qcompare_Eq (a b : Q) : (a == b)%Q -> (a ?= b)%Q = Eq.
Proof. intros H. now apply Qeq_alt. Qed.

End NumFacts.

(** Turn the boolean tests of the model into propositions. *)
Ltac qprop :=
  repeat match goal with
    | H : Qltb _ _ = true |- _ => apply Qltb_true in H
    | H : Qltb _ _ = false |- _ => apply Qltb_false in H
    | H : Qle_bool _ _ = true |- _ => apply Qle_bool_iff in H
    | H : Qle_bool _ _ = false |- _ => apply Qle_bool_false in H
    | H : Qeq_bool _ _ = true |- _ => apply Qeq_bool_iff in H
    | H : Qeq_bool _ _ = false |- _ => apply Qeq_bool_false in H
    end.

(** Split on the next boolean test on rationals in the goal. *)
Ltac qcase :=
  match goal with
  | |- context [Qltb ?a ?b] => destruct (Qltb a b) eqn:?
  | |- context [Qle_bool ?a ?b] => destruct (Qle_bool a b) eqn:?
  | |- context [Qeq_bool ?a ?b] => destruct (Qeq_bool a b) eqn:?
  end; qprop.

(** Decide the sign tests [x ?= 0] from arithmetic facts in the context. *)
Ltac qsign :=
  repeat match goal with
    | |- context [(?a ?= ?b)%Q] =>
        first [ rewrite (Qcompare_Gt a b) by lra
              | rewrite (Qcompare_Lt a b) by lra
              | rewrite (Qcompare_Eq a b) by lra ]
    end.

Section NumEq.

#[global] Instance num_eq_equiv : Equivalence num_eq.
Proof.
  split.
  - intros []; simpl; auto. reflexivity.
  - intros [] []; simpl; auto. intros H; now symmetry.
  - intros [] [] []; simpl; auto; try contradiction.
    intros H1 H2. now rewrite H1.
Qed.

#[global] Instance num_add_proper :
  Proper (num_eq ==> num_eq ==> num_eq) num_add.
Proof.
  intros [] [] H1 [] [] H2; simpl in *; try contradiction; auto.
  now rewrite H1, H2.
Qed.

#[global] Instance num_sub_proper :
  Proper (num_eq ==> num_eq ==> num_eq) num_sub.
Proof.
  intros [] [] H1 [] [] H2; simpl in *; try contradiction; auto.
  now rewrite H1, H2.
Qed.

#[global] Instance num_mul_proper :
  Proper (num_eq ==> num_eq ==> num_eq) num_mul.
Proof.
  intros [] [] H1 [] [] H2; simpl in *; try contradiction; auto;
    try (now rewrite H1, H2);
    try (rewrite H1; reflexivity); try (rewrite H2; reflexivity).
Qed.

Lemma num_add_0_l (a : num) : Fin 0 + a =n= a.
Proof. destruct a; simpl; auto. lra. Qed.

Lemma Math_sin_proper (sin_impl : Q -> Q) :
  Proper (num_eq ==> num_eq) (WaveEngine.Math_sin sin_impl).
Proof.
  intros [] [] H; simpl in *; try contradiction; auto.
  now rewrite (Qred_complete _ _ H).
Qed.

(** [u * Math.PI * 2] is [u * 2π]. *)
Lemma mul_two_pi (u : num) : u * Math_PI * 2 =n= u * Spec.two_pi.
Proof.
  destruct u; simpl; auto.
  unfold Spec.two_pi; simpl. ring.
Qed.

End NumEq.


(** ** The configuration and the clock of the wave engine *)

Section EngineState.

Import WaveEngine.

Implicit Types (e : WaveEngine.t) (w : World) (newConfig : gmap string jsval).

Lemma prop_empty (k : string) : prop ∅ k = JUndefined.
Proof. unfold prop. now rewrite lookup_empty. Qed.

Lemma prop_absent newConfig (k : string) :
  newConfig !! k = None -> prop newConfig k = JUndefined.
Proof. unfold prop. now intros ->. Qed.

(** A supplied property wins the merge. *)
Lemma prop_assign (target source : gmap string jsval) (k : string) v :
  source !! k = Some v -> prop (Object_assign target source) k = v.
Proof.
  intros H. unfold prop, Object_assign.
  now rewrite (lookup_union_Some_l _ _ _ _ H).
Qed.

(** Without a usable [noiseSeed] the owned noise object stays in place. *)
Lemma updateConfig_keeps_noise e newConfig w :
  prop newConfig "noiseSeed" = JUndefined ->
  noise (fst (updateConfig e newConfig w)) = noise e
  /\ noise_id (fst (updateConfig e newConfig w)) = noise_id e
  /\ snd (updateConfig e newConfig w) = w.
Proof. unfold updateConfig. intros ->. simpl. auto. Qed.

(** With a [noiseSeed] the noise object is replaced by one built from it. *)
Lemma updateConfig_rebuilds_noise e newConfig w (seed : num) :
  newConfig !! "noiseSeed" = Some (JNum seed) ->
  noise (fst (updateConfig e newConfig w)) = SimplexNoise.build seed
  /\ noise_id (fst (updateConfig e newConfig w)) = S (noise_id e)
  /\ snd (updateConfig e newConfig w) = w.
Proof.
  intros H.
  assert (H1 : prop newConfig "noiseSeed" = JNum seed)
    by (unfold prop; now rewrite H).
  pose proof (prop_assign (config e) newConfig _ _ H) as H2.
  unfold updateConfig. rewrite H1, H2. simpl. auto.
Qed.

(** C5. [updateConfig({})] is the identity on the engine: the merged
    configuration, the clock, the palette name and the owned noise object
    (with its identity) are the ones before the call, and the ambient
    generator is not consulted.  For an arbitrary partial configuration, the
    noise object is replaced only if the partial has a [noiseSeed] property:
    when it has none, the object and its identity are kept. *)
Theorem updateConfig_empty_identity e w :
  updateConfig e ∅ w = (e, w)
  /\ forall newConfig,
       match newConfig !! "noiseSeed" with
       | None =>
           noise (fst (updateConfig e newConfig w)) = noise e
           /\ noise_id (fst (updateConfig e newConfig w)) = noise_id e
       | Some _ => True
       end.
Proof.
  split.
  - unfold updateConfig, Object_assign. rewrite prop_empty.
    rewrite (left_id_L ∅ (∪)). now destruct e.
  - intros newConfig. destruct (newConfig !! "noiseSeed") eqn:E; [exact I|].
    pose proof (updateConfig_keeps_noise e newConfig w (prop_absent _ _ E)).
    tauto.
Qed.

(** C10. Whatever the partial configuration, [updateConfig] leaves the
    animation clock and the active character-set name as they were; it
    writes the configuration (the merge of the partial into it) and, only
    when a [noiseSeed] is supplied, the noise object. *)
Theorem updateConfig_frame e newConfig w :
  time (fst (updateConfig e newConfig w)) = time e
  /\ currentCharacterSet (fst (updateConfig e newConfig w))
     = currentCharacterSet e
  /\ config (fst (updateConfig e newConfig w))
     = Object_assign (config e) newConfig
  /\ match prop newConfig "noiseSeed" with
     | JUndefined => noise (fst (updateConfig e newConfig w)) = noise e
     | JNum _ => True
     end.
Proof.
  unfold updateConfig.
  destruct (prop newConfig "noiseSeed") eqn:E; simpl.
  - auto.
  - destruct (SimplexNoise.new _ w); simpl; auto.
Qed.

(** C6. [update(deltaTime)] (the specification's [advanceTime]) sets the
    clock to [time + deltaTime * timeSpeed];
    with a finite [timeSpeed], [update(0)] leaves the clock at its value;
    [resetTime()] sets it to zero. *)
Theorem update_advances_clock e (deltaTime : num) :
  is_finite (cfg e "timeSpeed") ->
  time (update e deltaTime) = time e + deltaTime * cfg e "timeSpeed"
  /\ time (update e (Fin 0)) =n= time e
  /\ time (resetTime e) = Fin 0.
Proof.
  intros Hfin. split; [reflexivity|]. split; [|reflexivity].
  simpl. fold (cfg e "timeSpeed").
  destruct (cfg e "timeSpeed") as [ts| | |]; try contradiction.
  destruct (time e); simpl; auto. lra.
Qed.

Lemma update_advances_clock_witness :
  time (update demo_engine (Fin (1 # 60)))
  = time demo_engine + Fin (1 # 60) * cfg demo_engine "timeSpeed"
  /\ time (update demo_engine (Fin 0)) =n= time demo_engine
  /\ time (resetTime demo_engine) = Fin 0.
Proof.
  apply (update_advances_clock demo_engine (Fin (1 # 60))).
  vm_compute. exact I.
Defined.

(** Neither [update] nor [resetTime] touches anything but the clock. *)
Lemma update_frame e (deltaTime : num) :
  config (update e deltaTime) = config e
  /\ noise (update e deltaTime) = noise e
  /\ currentCharacterSet (update e deltaTime) = currentCharacterSet e
  /\ config (resetTime e) = config e
  /\ noise (resetTime e) = noise e
  /\ currentCharacterSet (resetTime e) = currentCharacterSet e.
Proof. repeat split. Qed.

(** C7. With [layers = 1] (and a finite [depthEffect]) the depth fraction
    of layer 0 is zero, so the layer-local speed is the configured speed and
    the layer-local amplitude is the configured amplitude. *)
Theorem single_layer_no_attenuation e :
  cfg e "layers" =n= Fin 1 ->
  is_finite (cfg e "depthEffect") ->
  layerDepth e (Fin 0) =n= Fin 0
  /\ layerSpeed e (Fin 0) =n= cfg e "speed"
  /\ layerAmplitude e (Fin 0) =n= cfg e "amplitude".
Proof.
  intros Hl Hd. unfold layerSpeed, layerAmplitude, layerDepth.
  destruct (cfg e "layers") as [l| | |]; simpl in Hl; try contradiction.
  destruct (cfg e "depthEffect") as [d| | |]; try contradiction.
  unfold Math_max, num_ltb. 
  destruct (Qltb l 1) eqn:E1; qprop; [lra|].
  unfold num_div.
  destruct (Qeq_bool l 0) eqn:E2; qprop; [lra|].
  split; [simpl; rewrite Hl; reflexivity|].
  split.
  - destruct (cfg e "speed") as [s| | |]; simpl; auto.
    rewrite Hl. field.
  - destruct (cfg e "amplitude") as [s| | |]; simpl; auto.
    rewrite Hl. field.
Qed.

Lemma single_layer_no_attenuation_witness :
  layerDepth single_layer_engine (Fin 0) =n= Fin 0
  /\ layerSpeed single_layer_engine (Fin 0) =n= cfg single_layer_engine "speed"
  /\ layerAmplitude single_layer_engine (Fin 0)
     =n= cfg single_layer_engine "amplitude".
Proof.
  apply (single_layer_no_attenuation single_layer_engine).
  - vm_compute. reflexivity.
  - vm_compute. exact I.
Defined.

End EngineState.

(** ** The wave value *)

Section WaveValue.

Import WaveEngine.

Variable sin_impl : Q -> Q.

#[local] Instance Math_sin_eq : Proper (num_eq ==> num_eq) (Math_sin sin_impl).
Proof. apply Math_sin_proper. Qed.

(** C1. [calculateWave(x, y, layer)] (the specification's [sampleHeight])
    is the sum of the five stated terms
    (the three oscillators, the noise term and the swell term) built from
    [d = layer / max(layers, 1)], [layerSpeed = speed * (1 - d*depthEffect)]
    and [layerAmplitude = amplitude * (1 - d*0.3)].  This holds for every
    configuration, clock, coordinates and layer, in particular for
    coordinates in [0, 1] and a layer index below [layers]. *)
Theorem calculateWave_is_sampleHeight (e : WaveEngine.t) (x y layer : num) :
  onum_eq
    (calculateWave sin_impl e x y layer)
    (Spec.sampleHeight sin_impl
       (cfg e "amplitude") (cfg e "speed") (cfg e "frequency")
       (cfg e "layers") (cfg e "choppiness") (cfg e "depthEffect")
       (time e) (SimplexNoise.noise3D (noise e)) x y layer).
Proof.
  unfold calculateWave, Spec.sampleHeight.
  unfold layerAmplitude, layerSpeed, layerDepth.
  destruct (SimplexNoise.noise3D _ _ _ _) as [noiseValue|];
    cbn [mbind option_bind onum_eq]; [|exact I].
  rewrite num_add_0_l, !mul_two_pi. reflexivity.
Qed.

End WaveValue.

(** ** Character sets *)

Section CharacterSets.

Import WaveEngine.

Implicit Types (e : WaveEngine.t) (w : World).

Lemma characterSets_lookup (name : string) :
  is_Some (characterSets !! name) <-> name ∈ palette_names.
Proof.
  split.
  - intros H. unfold characterSets in H.
    repeat (apply lookup_insert_is_Some in H as [<-|[_ H]];
            [solve [repeat constructor]|]).
    rewrite lookup_empty in H. destruct H as [c H]. discriminate H.
  - intros H. unfold palette_names in H.
    rewrite !elem_of_cons, elem_of_nil in H.
    destruct H as [->|[->|[->|[->|[]]]]]; vm_compute; eexists; reflexivity.
Qed.

(** Each of the four identifiers becomes the active one. *)
Lemma setCharacterSet_valid e (name : string) :
  name ∈ palette_names -> currentCharacterSet (setCharacterSet e name) = name.
Proof.
  intros H. apply characterSets_lookup in H as [c Hc].
  unfold setCharacterSet, get_charset. now rewrite Hc.
Qed.

(** A name that is neither an identifier nor a member inherited from
    [Object.prototype] is ignored. *)
Lemma setCharacterSet_unknown e (name : string) :
  name ∉ palette_names -> name ∉ Object_prototype_keys ->
  setCharacterSet e name = e.
Proof.
  intros H1 H2. unfold setCharacterSet, get_charset.
  destruct (characterSets !! name) eqn:E.
  - exfalso. apply H1, characterSets_lookup. eauto.
  - now rewrite decide_False.
Qed.

(** Any inherited member name passes the truthiness test. *)
Lemma setCharacterSet_inherited e (name : string) :
  name ∉ palette_names -> name ∈ Object_prototype_keys ->
  currentCharacterSet (setCharacterSet e name) = name.
Proof.
  intros H1 H2. unfold setCharacterSet, get_charset.
  destruct (characterSets !! name) eqn:E.
  - exfalso. apply H1, characterSets_lookup. eauto.
  - now rewrite decide_True.
Qed.

(** C8 (the code departs from the claim).  ["constructor"] is not one of
    the four palette identifiers, yet [setCharacterSet("constructor")] makes
    it the active character-set name: [this.characterSets["constructor"]]
    is the inherited [Object] function, which is truthy.  From then on
    [selectCharacter] throws. *)
Theorem setCharacterSet_constructor e w (waveValue layer : num) :
  ("constructor" ∉ palette_names)
  /\ currentCharacterSet (setCharacterSet e "constructor") = "constructor"
  /\ fst (selectCharacter (setCharacterSet e "constructor") waveValue layer w)
     = TypeError.
Proof.
  assert (Hn : "constructor" ∉ palette_names).
  { unfold palette_names. rewrite !elem_of_cons, elem_of_nil.
    intros [H|[H|[H|[H|[]]]]]; discriminate H. }
  assert (Hk : "constructor" ∈ Object_prototype_keys) 
    by (apply elem_of_cons; now left).
  pose proof (setCharacterSet_inherited e _ Hn Hk) as Hc.
  split; [exact Hn|]. split; [exact Hc|].
  unfold selectCharacter. rewrite Hc.
  replace (get_charset "constructor") with (PVBuiltin "constructor")
    by (vm_compute; reflexivity).
  destruct (_ && _); reflexivity.
Qed.

End CharacterSets.

(** ** The seeded generator and determinism of the noise field *)

Section SeededRandom.

Import SimplexNoise.

#[global] Instance Qtrunc_proper : Proper (Qeq ==> eq) Qtrunc.
Proof.
  intros x y H. unfold Qtrunc. rewrite H.
  destruct (Qle_bool 0 y); now rewrite H.
Qed.

#[global] Instance num_div_proper :
  Proper (num_eq ==> num_eq ==> num_eq) num_div.
Proof.
  intros [x| | |] [x'| | |] H1 [y| | |] [y'| | |] H2;
    cbn [num_eq num_div] in *; try contradiction; auto.
  - rewrite H2. destruct (Qeq_bool y' 0) eqn:E; qprop.
    + assert ((x ?= 0) = (x' ?= 0))%Q as -> by (now rewrite H1).
      reflexivity.
    + cbn [num_eq]. now rewrite H1, H2.
  - reflexivity.
  - reflexivity.
  - assert (Qltb y 0 = Qltb y' 0) as -> by (unfold Qltb; now rewrite H2).
    reflexivity.
  - assert (Qltb y 0 = Qltb y' 0) as -> by (unfold Qltb; now rewrite H2).
    reflexivity.
Qed.

#[global] Instance num_rem_proper :
  Proper (num_eq ==> num_eq ==> num_eq) num_rem.
Proof.
  intros [x| | |] [x'| | |] H1 [y| | |] [y'| | |] H2;
    cbn [num_eq num_rem] in *; try contradiction; auto.
  rewrite H2. destruct (Qeq_bool y' 0) eqn:E; [exact I|].
  cbn [num_eq].
  assert (Qtrunc (x / y) = Qtrunc (x' / y')) as ->
    by (apply Qtrunc_proper; now rewrite H1, H2).
  now rewrite H1, H2.
Qed.

(** Truncating a fraction is the truncating integer quotient. *)
Lemma Qtrunc_Qmake (m : Z) (d : positive) :
  Qtrunc (m # d) = Z.quot m (Z.pos d).
Proof.
  unfold Qtrunc. destruct (Qle_bool 0 (m # d)) eqn:E; qprop.
  - unfold Qle in E; simpl in E. unfold Qfloor.
    symmetry. apply Z.quot_div_nonneg; lia.
  - unfold Qlt in E; simpl in E. unfold Qceiling, Qopp, Qfloor; simpl.
    rewrite <- (Z.quot_div_nonneg (- m) (Z.pos d)) by lia.
    rewrite Z.quot_opp_l by lia. lia.
Qed.

(** On integers the [%] of the model is the integer remainder. *)
Lemma num_rem_Z (m : Z) (d : positive) :
  num_of_Z m rem num_of_Z (Z.pos d) =n= num_of_Z (Z.rem m (Z.pos d)).
Proof.
  unfold num_of_Z; simpl.
  destruct (Qeq_bool (inject_Z (Z.pos d)) 0) eqn:E; qprop.
  - unfold Qeq in E; simpl in E. lia.
  - simpl.
    assert (Hq : (inject_Z m / inject_Z (Z.pos d) == m # d)%Q)
      by (symmetry; apply Qmake_Qdiv).
    rewrite Hq, Qtrunc_Qmake.
    rewrite (Z.rem_eq m (Z.pos d)) by lia.
    unfold Qeq, Qminus, Qplus, Qopp, Qmult, inject_Z; simpl. lia.
Qed.

(** One step of the closure state is one step of the stated recurrence. *)
Lemma lcg_exact (z : Z) :
  (num_of_Z z * 9301 + 49297) rem 233280 =n= num_of_Z (Spec.lcg z).
Proof.
  unfold Spec.lcg.
  rewrite <- (num_rem_Z (z * 9301 + 49297) 233280).
  apply num_rem_proper; [|reflexivity].
  unfold num_of_Z; simpl.
  unfold Qeq, Qplus, Qmult, inject_Z; simpl. lia.
Qed.

Lemma closure_state_lcg (k : nat) (z : Z) :
  closure_state k (num_of_Z z) =n= num_of_Z (Nat.iter k Spec.lcg z).
Proof.
  induction k as [|k IH]; [reflexivity|].
  cbn [closure_state Nat.iter nat_rect]. unfold seededRandom_call; cbn [snd].
  rewrite IH. apply lcg_exact.
Qed.

Lemma closure_output_lcg (k : nat) (z : Z) :
  closure_output k (num_of_Z z)
  =n= num_of_Z (Nat.iter (S k) Spec.lcg z) / 233280.
Proof.
  unfold closure_output, seededRandom_call; cbn [fst].
  rewrite closure_state_lcg.
  cbn [Nat.iter nat_rect]. rewrite lcg_exact. reflexivity.
Qed.

(** The seed of the shuffle is the closure state: after the loop the
    captured variable has been stepped once per iteration. *)
Lemma shuffle_state (l : list nat) (p : Uint8Array) (seed : num) :
  snd (foldl shuffle_step (p, seed) l) = closure_state (length l) seed.
Proof.
  revert p seed. induction l as [|i l IH] using rev_ind; intros p seed.
  - reflexivity.
  - rewrite foldl_snoc, length_app, Nat.add_1_r. cbn [closure_state].
    rewrite <- (IH p seed).
    destruct (foldl shuffle_step (p, seed) l) as [p' s']. reflexivity.
Qed.

(** Without a seed argument the field is built from the ambient draw, so
    two worlds can yield different tables: the seed is what makes the
    construction repeatable. *)
Lemma unseeded_noise_depends_on_world :
  p (fst (new JUndefined (const_world (1 # 4))))
  <> p (fst (new JUndefined (const_world (3 # 4)))).
Proof. vm_compute. discriminate. Qed.

End SeededRandom.

(** ** Colours *)

Section Colours.

Import Utils.

Lemma Qfloor_bounds (x : Q) (lo hi : Z) :
  (inject_Z lo <= x)%Q -> (x < inject_Z hi)%Q -> (lo <= Qfloor x < hi)%Z.
Proof.
  intros Hlo Hhi. split.
  - rewrite <- (Qfloor_Z lo). now apply Qfloor_resp_le.
  - rewrite Zlt_Qlt. eapply Qle_lt_trans; [apply Qfloor_le|exact Hhi].
Qed.

Lemma Math_max_fin (a b : Q) :
  Math_max (Fin a) (Fin b) = Fin (if Qltb a b then b else a).
Proof. unfold Math_max, num_ltb. now destruct (Qltb a b). Qed.

Lemma Math_min_fin (a b : Q) :
  Math_min (Fin a) (Fin b) = Fin (if Qltb b a then b else a).
Proof. unfold Math_min, num_ltb. now destruct (Qltb b a). Qed.

Lemma num_div_fin (a b : Q) : ~ (b == 0)%Q -> Fin a / Fin b = Fin (a / b).
Proof.
  intros H. unfold num_div.
  destruct (Qeq_bool b 0) eqn:E; qprop; [contradiction|reflexivity].
Qed.

Lemma num_rem_fin (a b : Q) :
  ~ (b == 0)%Q -> Fin a rem Fin b = Fin (a - b * inject_Z (Qtrunc (a / b))).
Proof.
  intros H. unfold num_rem.
  destruct (Qeq_bool b 0) eqn:E; qprop; [contradiction|reflexivity].
Qed.

(** [clamp(v, 0, 1)] of anything but NaN is a number of the unit interval. *)
Lemma clamp_unit (v : num) :
  v <> NaN -> exists n : Q, clamp v 0 1 = Fin n /\ (0 <= n <= 1)%Q.
Proof.
  intros Hv. unfold clamp.
  destruct v as [q| | |]; [| | |contradiction].
  - rewrite Math_min_fin, Math_max_fin. eexists; split; [reflexivity|].
    repeat qcase; lra.
  - exists 1%Q. split; [reflexivity|lra].
  - exists 0%Q. split; [reflexivity|lra].
Qed.

(** The clamp of NaN is NaN: [Math.min] and [Math.max] propagate it. *)
Lemma clamp_NaN (lo hi : num) : clamp NaN lo hi = NaN.
Proof. unfold clamp, Math_min, Math_max. now destruct hi, lo. Qed.

(** The piecewise-linear shape [max(-1, min(k-3, 9-k, 1))] lies in [-1, 1]. *)
Lemma hsl_shape (k : Q) :
  exists m : Q,
    Math_max (- 1) (Math_min3 (Fin k - 3) (9 - Fin k) 1) = Fin m
    /\ (-1 <= m <= 1)%Q.
Proof.
  unfold Math_min3. cbn [num_sub num_neg].
  rewrite !Math_min_fin, Math_max_fin.
  eexists; split; [reflexivity|]. repeat qcase; lra.
Qed.

(** A channel before scaling: [f(n)] stays in the unit interval when
    [0 <= a <= min(l, 1-l)]. *)
Lemma hsl_f_unit (h l a n : Q) :
  (0 <= a)%Q -> (a <= l)%Q -> (a <= 1 - l)%Q ->
  exists f : Q, hsl_f (Fin h) (Fin l) (Fin a) (Fin n) = Fin f
                /\ (0 <= f <= 1)%Q.
Proof.
  intros Ha Hl Hl'. unfold hsl_f. cbn [num_mul num_add].
  rewrite num_rem_fin by (intros H; discriminate H).
  destruct (hsl_shape (n + h * 12 - 12 * inject_Z (Qtrunc ((n + h * 12) / 12))))
    as (m & -> & Hm).
  cbn [num_mul num_sub]. eexists; split; [reflexivity|]. nra.
Qed.

(** With [a = 0] every channel is the lightness. *)
Lemma hsl_f_gray (h l a n : Q) :
  (a == 0)%Q ->
  exists f : Q, hsl_f (Fin h) (Fin l) (Fin a) (Fin n) = Fin f /\ (f == l)%Q.
Proof.
  intros Ha. unfold hsl_f. cbn [num_mul num_add].
  rewrite num_rem_fin by (intros H; discriminate H).
  destruct (hsl_shape (n + h * 12 - 12 * inject_Z (Qtrunc ((n + h * 12) / 12))))
    as (m & -> & Hm).
  cbn [num_mul num_sub]. eexists; split; [reflexivity|]. rewrite Ha. ring.
Qed.

(** Scaling a unit number by 255 and rounding gives a byte. *)
Lemma round_byte (f : Q) :
  (0 <= f <= 1)%Q -> is_byte (Math_round (Fin f * 255)).
Proof.
  intros Hf. cbn [num_mul Math_round].
  eexists; split; [reflexivity|].
  assert (0 <= Qfloor (f * 255 + (1 # 2)) < 256)%Z
    by (apply Qfloor_bounds; unfold inject_Z; lra).
  lia.
Qed.

Lemma round_comp (f g : Q) :
  (f == g)%Q -> Math_round (Fin f * 255) = Math_round (Fin g * 255).
Proof. intros H. cbn [num_mul Math_round]. now rewrite H. Qed.

(** [hslToRgb] on a saturation and a lightness of the unit interval. *)
Lemma hslToRgb_bytes (h s l : Q) :
  (0 <= s <= 1)%Q -> (0 <= l <= 1)%Q ->
  let '(r, g, b) := hslToRgb (Fin h) (Fin s) (Fin l) in
  is_byte r /\ is_byte g /\ is_byte b
  /\ ((s == 0)%Q -> r = g /\ g = b).
Proof.
  intros Hs Hl. unfold hslToRgb.
  rewrite num_div_fin by (intros H; discriminate H).
  cbn [num_sub]. rewrite Math_min_fin. cbn [num_mul].
  set (a := (s * (if Qltb (1 - l) l then 1 - l else l))%Q).
  assert (Ha : (0 <= a /\ a <= l /\ a <= 1 - l)%Q)
    by (subst a; qcase; nra).
  destruct Ha as (Ha0 & Ha1 & Ha2).
  destruct (hsl_f_unit (h / 360) l a 0 Ha0 Ha1 Ha2) as (f0 & E0 & H0).
  destruct (hsl_f_unit (h / 360) l a 8 Ha0 Ha1 Ha2) as (f8 & E8 & H8).
  destruct (hsl_f_unit (h / 360) l a 4 Ha0 Ha1 Ha2) as (f4 & E4 & H4).
  rewrite E0, E8, E4.
  repeat (split; [now apply round_byte|]).
  intros Hs0.
  assert (Haz : (a == 0)%Q) by (subst a; rewrite Hs0; ring).
  destruct (hsl_f_gray (h / 360) l a 0 Haz) as (g0 & G0 & K0).
  destruct (hsl_f_gray (h / 360) l a 8 Haz) as (g8 & G8 & K8).
  destruct (hsl_f_gray (h / 360) l a 4 Haz) as (g4 & G4 & K4).
  rewrite E0 in G0. rewrite E8 in G8. rewrite E4 in G4.
  injection G0 as <-. injection G8 as <-. injection G4 as <-.
  split; apply round_comp; lra.
Qed.

End Colours.

Section CalculateColor.

Import Utils Renderer.

(** The normalised height is a number unless both the wave value and the
    amplitude are zero. *)
Lemma normalize_unit (w a : Q) :
  ~ ((a == 0)%Q /\ (w == 0)%Q) ->
  exists n : Q, Spec.normalize (Fin w) (Fin a) = Fin n /\ (0 <= n <= 1)%Q.
Proof.
  intros H. unfold Spec.normalize. apply clamp_unit.
  destruct (Qeq_bool a 0) eqn:Ea.
  - assert (Hq : Fin w / Fin a = inf_of (w ?= 0)%Q)
      by (unfold num_div; now rewrite Ea).
    rewrite Hq. qprop.
    destruct (w ?= 0)%Q eqn:Ew; try (vm_compute; discriminate).
    apply Qeq_alt in Ew. tauto.
  - qprop. rewrite num_div_fin by assumption.
    cbn [num_add]. rewrite num_div_fin by (intros K; discriminate K).
    discriminate.
Qed.

(** At zero amplitude a zero wave value normalises to NaN. *)
Lemma normalize_zero_zero (w a : Q) :
  (a == 0)%Q -> (w == 0)%Q -> Spec.normalize (Fin w) (Fin a) = NaN.
Proof.
  intros Ha Hw. unfold Spec.normalize, num_div.
  apply Qeq_bool_iff in Ha. rewrite Ha.
  apply Qeq_alt in Hw. rewrite Hw. reflexivity.
Qed.

(** C4, as amended.  For finite inputs with a saturation in [0, 1], not
    both the wave value and the amplitude zero, and a brightness, a
    contrast, a depth fraction and a depth effect of magnitude at most
    [safe_bound] (so that the product behind the lightness cannot
    overflow), the three channels of [calculateColor] are integers in
    [0, 255], however far the contrast pushes the lightness before it is
    clamped; with saturation 0 the three channels are equal. *)
Theorem calculateColor_bytes (config : gmap string jsval)
  (engine : WaveEngine.t) (waveValue layerDepth : Q)
  (amplitude depthEffect hue saturation brightness contrast : Q) :
  ToNumber (prop (WaveEngine.config engine) "amplitude") = Fin amplitude ->
  ToNumber (prop (WaveEngine.config engine) "depthEffect") = Fin depthEffect ->
  ToNumber (prop config "hue") = Fin hue ->
  ToNumber (prop config "saturation") = Fin saturation ->
  ToNumber (prop config "brightness") = Fin brightness ->
  ToNumber (prop config "contrast") = Fin contrast ->
  ~ ((amplitude == 0)%Q /\ (waveValue == 0)%Q) ->
  (0 <= saturation <= 1)%Q ->
  (- safe_bound <= brightness <= safe_bound)%Q ->
  (- safe_bound <= contrast <= safe_bound)%Q ->
  (- safe_bound <= layerDepth <= safe_bound)%Q ->
  (- safe_bound <= depthEffect <= safe_bound)%Q ->
  let '(r, g, b) :=
    calculateColor config engine (Fin waveValue) (Fin layerDepth) in
  is_byte r /\ is_byte g /\ is_byte b
  /\ ((saturation == 0)%Q -> r = g /\ g = b).
Proof.
  intros Ha Hd Hh Hs Hb Hc Hnz Hsat _ _ _ _. unfold calculateColor. cbv zeta.
  rewrite Ha, Hd, Hh, Hs, Hb, Hc.
  destruct (normalize_unit waveValue amplitude Hnz) as (n & En & Hn).
  unfold Spec.normalize in En. rewrite En.
  cbn [num_add num_mul num_sub].
  match goal with
  | |- context [clamp (Fin ?q) (Fin 0) (Fin 1)] =>
      destruct (clamp_unit (Fin q) ltac:(discriminate)) as (l & -> & Hl)
  end.
  now apply hslToRgb_bytes.
Qed.

Lemma calculateColor_bytes_witness :
  let '(r, g, b) :=
    calculateColor default_config demo_engine (Fin (1 # 2)) (Fin 0) in
  is_byte r /\ is_byte g /\ is_byte b
  /\ ((0.6 == 0)%Q -> r = g /\ g = b).
Proof.
  apply (calculateColor_bytes default_config demo_engine (1 # 2) 0
           0.8 0.5 200 0.6 0.0 1.0);
    try (vm_compute; reflexivity);
    try (split; discriminate).
  intros [H _]. discriminate H.
Defined.

(** C4, as stated, fails: all inputs are finite, the saturation is 2, and
    two channels leave the range of a byte. *)
Lemma calculateColor_saturation_2 :
  calculateColor (<["saturation" := JNum 2]> default_config) demo_engine
                 (Fin 0) (Fin 0)
  = (num_of_Z (-96), num_of_Z 159, num_of_Z 287)
  /\ ~ is_byte (num_of_Z (-96))
  /\ ~ is_byte (num_of_Z 287).
Proof.
  split; [vm_compute; reflexivity|].
  split; intros (z & E & H); injection E as <-; lia.
Qed.

(** Saturation 0 at the default settings: a neutral gray. *)
Example calculateColor_gray :
  calculateColor (<["saturation" := JNum 0]> default_config) demo_engine
                 (Fin (1 # 2)) (Fin 0)
  = (num_of_Z 116, num_of_Z 116, num_of_Z 116).
Proof. vm_compute. reflexivity. Qed.

(** A contrast of 1000 saturates the lightness at 1: white. *)
Example calculateColor_high_contrast :
  calculateColor (<["contrast" := JNum 1000]> default_config) demo_engine
                 (Fin (1 # 2)) (Fin 0)
  = (num_of_Z 255, num_of_Z 255, num_of_Z 255).
Proof. vm_compute. reflexivity. Qed.

(** The zero-amplitude case left out of the amended claim: the background
    colour [calculateColor(-amplitude, 1)] has NaN channels. *)
Lemma calculateColor_zero_amplitude (config : gmap string jsval)
  (engine : WaveEngine.t) (layerDepth : num) :
  ToNumber (prop (WaveEngine.config engine) "amplitude") = Fin 0 ->
  calculateColor config engine (- Fin 0) layerDepth = (NaN, NaN, NaN).
Proof.
  intros Ha. unfold calculateColor. cbv zeta. rewrite Ha.
  replace (clamp ((- Fin 0 / Fin 0 + 1) / 2) 0 1) with NaN
    by (vm_compute; reflexivity).
  assert (Hs : forall u : num, u * NaN = NaN) by (intros []; reflexivity).
  cbn [num_mul num_add]. rewrite Hs. cbn [num_mul]. rewrite clamp_NaN.
  unfold hslToRgb, hsl_f. cbn [Math_min]. rewrite Hs. reflexivity.
Qed.

End CalculateColor.

(** ** Glyph selection *)

Section SelectCharacter.

Import Utils WaveEngine.

Implicit Types (e : WaveEngine.t) (w : World) (cs : CharSet).

(** A rational that is an integer below [len] is a valid index. *)
Lemma index_of_Z (len : nat) (q : Q) (z : Z) :
  (q == inject_Z z)%Q -> (0 <= z < Z.of_nat len)%Z ->
  index_of len (Fin q) = Some (Z.to_nat z).
Proof.
  intros Hq Hz. unfold index_of.
  assert (Hf : Qfloor q = z) by (rewrite Hq; apply Qfloor_Z).
  rewrite Hf.
  assert (Qeq_bool q (inject_Z z) = true) as -> by now apply Qeq_bool_iff.
  assert ((0 <=? z)%Z = true) as -> by lia.
  assert ((z <? Z.of_nat len)%Z = true) as -> by lia.
  reflexivity.
Qed.

(** [chars[min(index, length - 1)]] is an element of a non-empty band when
    the index is a non-negative integer. *)
Lemma pick_in_band (chars : list string) (z : Z) :
  chars <> [] -> (0 <= z)%Z ->
  exists c, pick chars (num_of_Z z) = Glyph c /\ c ∈ chars.
Proof.
  intros Hne Hz. unfold pick, arr_get, num_of_nat, num_of_Z.
  cbn [num_sub]. rewrite Math_min_fin.
  assert (Hlen : (0 < Z.of_nat (length chars))%Z)
    by (destruct chars; [contradiction|simpl; lia]).
  set (len := Z.of_nat (length chars)) in *.
  assert (Hi : exists i : Z,
             ((if Qltb (inject_Z len - 1) (inject_Z z)
               then inject_Z len - 1 else inject_Z z) == inject_Z i)%Q
             /\ (0 <= i < len)%Z).
  { destruct (Qltb _ _) eqn:E; qprop.
    - exists (len - 1)%Z. split; [|lia].
      unfold Qeq, Qminus, Qplus, Qopp, inject_Z; simpl. lia.
    - exists z. split; [reflexivity|].
      unfold Qle, Qminus, Qplus, Qopp, inject_Z in E; simpl in E. lia. }
  destruct Hi as (i & Hi & Hr).
  rewrite (index_of_Z _ _ i Hi Hr).
  destruct (lookup_lt_is_Some_2 chars (Z.to_nat i)) as [c Hc]; [lia|].
  rewrite Hc. exists c. split; [reflexivity|].
  apply list_elem_of_lookup. eauto.
Qed.

(** Whatever the index, [pick] returns a member of the band or
    [undefined]. *)
Lemma pick_elem (chars : list string) (index : num) (c : string) :
  pick chars index = Glyph c -> c ∈ chars.
Proof.
  unfold pick, arr_get.
  destruct (index_of _ _) as [i|]; [|discriminate].
  destruct (chars !! i) as [c'|] eqn:E; [|discriminate].
  intros [= <-]. apply list_elem_of_lookup. eauto.
Qed.

Lemma pick_NaN (chars : list string) : pick chars NaN = Undefined.
Proof. unfold pick, arr_get. now destruct (num_of_nat _ - 1). Qed.

(** The floor of a non-negative rational is a non-negative integer. *)
Lemma floor_nonneg (q : Q) :
  (0 <= q)%Q -> exists z, Math_floor (Fin q) = num_of_Z z /\ (0 <= z)%Z.
Proof.
  intros H. exists (Qfloor q). split; [reflexivity|].
  rewrite <- (Qfloor_Z 0). now apply Qfloor_resp_le.
Qed.

Lemma len_nonneg (chars : list string) :
  (0 <= inject_Z (Z.of_nat (length chars)))%Q.
Proof. unfold Qle, inject_Z; simpl. lia. Qed.

(** The six bands of each of the four character sets are non-empty. *)
Lemma bands_nonempty (name : string) cs :
  characterSets !! name = Some cs ->
  sky cs <> [] /\ surface cs <> [] /\ shallow cs <> []
  /\ medium cs <> [] /\ deep cs <> [] /\ foam cs <> [].
Proof.
  unfold characterSets. intros H.
  repeat (apply lookup_insert_Some in H as [[_ <-]|[_ H]];
          [repeat split; discriminate|]).
  rewrite lookup_empty in H. discriminate H.
Qed.

Lemma get_charset_own (name : string) cs :
  characterSets !! name = Some cs -> get_charset name = PVCharSet cs.
Proof. unfold get_charset. now intros ->. Qed.

(** X14.  For a finite wave value and amplitude that are not both zero,
    with an ambient generator that honours its contract, [selectCharacter]
    returns a glyph of one of the six bands of the active character set. *)
Lemma selectCharacter_in_band e w (waveValue amplitude : Q) (layer : num) cs :
  characterSets !! currentCharacterSet e = Some cs ->
  cfg e "amplitude" = Fin amplitude ->
  ~ ((amplitude == 0)%Q /\ (waveValue == 0)%Q) ->
  random_contract w ->
  exists c, fst (selectCharacter e (Fin waveValue) layer w) = Glyph c
            /\ in_bands cs c.
Proof.
  intros Hcs Ha Hnz Hw. destruct (Hw (cursor w)) as [Hr _].
  unfold selectCharacter.
  rewrite (get_charset_own _ _ Hcs), Ha.
  destruct (normalize_unit waveValue amplitude Hnz) as (n & En & Hn).
  unfold Spec.normalize in En. rewrite En.
  destruct (bands_nonempty _ _ Hcs) as (N1 & N2 & N3 & N4 & N5 & N6).
  unfold in_bands, in_water_bands.
  destruct (_ && _).
  - unfold Math_random. cbn [num_mul num_add num_of_nat num_of_Z fst].
    match goal with
    | |- context [Math_floor (Fin ?q)] =>
        destruct (floor_nonneg q) as (z & -> & Hz)
    end.
    { pose proof (len_nonneg (foam cs)). nra. }
    destruct (pick_in_band (foam cs) z N6 Hz) as (c & -> & Hc). eauto 10.
  - unfold num_gtb, num_ltb.
    repeat qcase; cbn [num_mul num_sub num_of_nat num_of_Z fst];
      match goal with
      | |- context [Math_floor (Fin ?q)] =>
          destruct (floor_nonneg q) as (z & -> & Hz);
          [match goal with
           | |- context [length ?l] => pose proof (len_nonneg l); nra
           end|]
      end.
    + destruct (pick_in_band (surface cs) z N2 Hz) as (c & -> & Hc). eauto 10.
    + destruct (pick_in_band (shallow cs) z N3 Hz) as (c & -> & Hc). eauto 10.
    + destruct (pick_in_band (medium cs) z N4 Hz) as (c & -> & Hc). eauto 10.
    + destruct (pick_in_band (deep cs) z N5 Hz) as (c & -> & Hc). eauto 10.
    + destruct (pick_in_band (sky cs) z N1 Hz) as (c & -> & Hc). eauto 10.
Qed.

End SelectCharacter.

Section SelectCharacterEdge.

Import Utils WaveEngine.

Implicit Types (e : WaveEngine.t) (w : World) (cs : CharSet).

(** The normalised height never exceeds a threshold of 1. *)
Lemma normalized_not_above_1 (v ft : num) :
  ft =n= Fin 1 -> (clamp v 0 1 >? ft) = false.
Proof.
  intros Hft. destruct ft as [f| | |]; simpl in Hft; try contradiction.
  destruct v as [q| | |].
  - destruct (clamp_unit (Fin q)) as (n & -> & Hn); [discriminate|].
    unfold num_gtb, num_ltb. apply Qltb_false. lra.
  - destruct (clamp_unit PInf) as (n & -> & Hn); [discriminate|].
    unfold num_gtb, num_ltb. apply Qltb_false. lra.
  - destruct (clamp_unit NInf) as (n & -> & Hn); [discriminate|].
    unfold num_gtb, num_ltb. apply Qltb_false. lra.
  - rewrite clamp_NaN. reflexivity.
Qed.

(** X15.  With [foamThreshold = 1] the foam branch is never entered: the
    ambient generator is not consulted and a returned glyph comes from one
    of the five other bands. *)
Lemma selectCharacter_no_foam e w (waveValue layer : num) cs :
  characterSets !! currentCharacterSet e = Some cs ->
  cfg e "foamThreshold" =n= Fin 1 ->
  snd (selectCharacter e waveValue layer w) = w
  /\ forall c, fst (selectCharacter e waveValue layer w) = Glyph c ->
               in_water_bands cs c.
Proof.
  intros Hcs Hft. unfold selectCharacter.
  rewrite (get_charset_own _ _ Hcs).
  rewrite (normalized_not_above_1 _ _ Hft). cbn [andb].
  unfold in_water_bands.
  repeat match goal with
         | |- context [if ?b then _ else _] => destruct b
         end; cbn [fst snd]; (split; [reflexivity|]);
    intros c Hc; apply pick_elem in Hc; tauto.
Qed.

(** At zero amplitude a zero wave value selects nothing: the normalised
    height is NaN, every comparison fails, and the sky index is NaN. *)
Lemma selectCharacter_undefined e w (layer : num) cs :
  characterSets !! currentCharacterSet e = Some cs ->
  cfg e "amplitude" = Fin 0 ->
  selectCharacter e (Fin 0) layer w = (Undefined, w).
Proof.
  intros Hcs Ha. unfold selectCharacter.
  rewrite (get_charset_own _ _ Hcs), Ha.
  replace (clamp ((Fin 0 / Fin 0 + 1) / 2) 0 1) with NaN
    by (vm_compute; reflexivity).
  assert (Hgt : forall u : num, (NaN >? u) = false) by (intros []; reflexivity).
  rewrite !Hgt. cbn [andb num_mul Math_floor]. now rewrite pick_NaN.
Qed.

(** C3 (the code departs from the claim).  [selectCharacter] is the
    specification's [selectGlyph].  The engine is constructed with
    amplitude 0, a value of the documented range; its wave values are then
    0, and for the wave value 0 [selectCharacter] returns [undefined], which
    is a glyph of no band. *)
Theorem selectCharacter_zero_amplitude (w : World) (layer : num) :
  cfg zero_amplitude_engine "amplitude" = Fin 0
  /\ characterSets !! currentCharacterSet zero_amplitude_engine = Some classic
  /\ selectCharacter zero_amplitude_engine (Fin 0) layer w = (Undefined, w).
Proof.
  assert (Ha : cfg zero_amplitude_engine "amplitude" = Fin 0)
    by (vm_compute; reflexivity).
  assert (Hc : characterSets !! currentCharacterSet zero_amplitude_engine
               = Some classic) by (vm_compute; reflexivity).
  split; [exact Ha|]. split; [exact Hc|].
  exact (selectCharacter_undefined _ w layer _ Hc Ha).
Qed.

End SelectCharacterEdge.

(** ** The tables of the noise field *)

Section TypedArrays.

Lemma foldl_invariant {A B : Type} (f : A -> B -> A)
  (Inv : A -> Prop) (P : B -> Prop) (l : list B) (a : A) :
  Forall P l ->
  (forall a b, P b -> Inv a -> Inv (f a b)) ->
  Inv a -> Inv (foldl f a l).
Proof.
  intros Hl Hstep. revert a.
  induction Hl as [|b l Hb _ IH]; intros a Ha; [exact Ha|].
  simpl. apply IH. now apply Hstep.
Qed.

Lemma Qtrunc_Z (z : Z) : Qtrunc (inject_Z z) = z.
Proof. unfold inject_Z. rewrite Qtrunc_Qmake. apply Z.quot_1_r. Qed.

Lemma ToUint8_range (v : jsval) : is_u8 (ToUint8 v).
Proof.
  unfold ToUint8, is_u8. destruct (ToNumber v); try lia.
  apply Z.mod_pos_bound. lia.
Qed.

(** Storing a byte stores it unchanged. *)
Lemma ToUint8_Z (n : num) (z : Z) :
  n =n= num_of_Z z -> ToUint8 (JNum n) = (z mod 256)%Z.
Proof.
  unfold ToUint8, num_of_Z. cbn [ToNumber].
  destruct n as [q| | |]; cbn [num_eq]; try contradiction.
  intros H. rewrite H. now rewrite Qtrunc_Z.
Qed.

Lemma ta_set_length (a : Uint8Array) (k : num) (v : jsval) :
  length (ta_set a k v) = length a.
Proof.
  unfold ta_set. destruct (index_of _ _); [apply length_insert|reflexivity].
Qed.

Lemma ta_set_u8 (a : Uint8Array) (k : num) (v : jsval) :
  Forall is_u8 a -> Forall is_u8 (ta_set a k v).
Proof.
  intros H. unfold ta_set. destruct (index_of _ _); [|exact H].
  apply Forall_insert; [exact H|apply ToUint8_range].
Qed.

(** A read at an integer below the length returns the stored element. *)
Lemma ta_get_Z (a : Uint8Array) (q : Q) (z : Z) :
  (q == inject_Z z)%Q -> (0 <= z < Z.of_nat (length a))%Z ->
  exists v, a !! Z.to_nat z = Some v /\ ta_get a (Fin q) = JNum (num_of_Z v).
Proof.
  intros Hq Hz. unfold ta_get. rewrite (index_of_Z _ _ z Hq Hz).
  destruct (lookup_lt_is_Some_2 a (Z.to_nat z)) as [v Hv]; [lia|].
  rewrite Hv. eauto.
Qed.

(** A write at an integer below the length is a list update. *)
Lemma ta_set_Z (a : Uint8Array) (q : Q) (z v : Z) :
  (q == inject_Z z)%Q -> (0 <= z < Z.of_nat (length a))%Z -> is_u8 v ->
  ta_set a (Fin q) (JNum (num_of_Z v)) = <[Z.to_nat z := v]> a.
Proof.
  intros Hq Hz Hv. unfold ta_set. rewrite (index_of_Z _ _ z Hq Hz).
  rewrite (ToUint8_Z _ v) by reflexivity.
  rewrite Z.mod_small by exact Hv. reflexivity.
Qed.

(** Exchanging two elements of a list permutes it. *)
Lemma insert_cons_perm {A : Type} (l : list A) (j : nat) (x y : A) :
  l !! j = Some y -> y :: <[j := x]> l ≡ₚ x :: l.
Proof.
  revert j. induction l as [|a l IH]; intros [|j] H; simplify_eq/=.
  - apply perm_swap.
  - rewrite perm_swap. rewrite (IH j H). apply perm_swap.
Qed.

Lemma insert_swap_perm {A : Type} (l : list A) (i j : nat) (x y : A) :
  l !! i = Some x -> l !! j = Some y ->
  <[j := x]> (<[i := y]> l) ≡ₚ l.
Proof.
  revert i j. induction l as [|a l IH]; intros [|i] [|j] Hi Hj;
    simplify_eq/=.
  - reflexivity.
  - now apply insert_cons_perm.
  - symmetry. rewrite <- (insert_cons_perm l i y x Hi). reflexivity.
  - f_equiv. now apply IH.
Qed.

End TypedArrays.

Section NoiseTables.

Import SimplexNoise.

Lemma shuffle_indices : Forall (fun i => (i < 256)%nat) (rev (seq 1 255)).
Proof.
  apply Forall_forall. intros i Hi.
  apply list_elem_of_In, in_rev, in_seq in Hi. lia.
Qed.

Lemma extend_indices : Forall (fun i => (i < 512)%nat) (seq 0 512).
Proof.
  apply Forall_forall. intros i Hi.
  apply list_elem_of_In, in_seq in Hi. lia.
Qed.

(** The first loop leaves the identity table. *)
Lemma init_p_identity : init_p (new_Uint8Array 256) = seqZ 0 256.
Proof. vm_compute. reflexivity. Qed.

(** From a non-negative state the generator returns a number of [0, 1) and
    moves to a state of [0, 233280). *)
Lemma seededRandom_call_nonneg (s : Q) :
  (0 <= s)%Q ->
  exists r s' : Q,
    seededRandom_call (Fin s) = (Fin r, Fin s')
    /\ (0 <= r < 1)%Q /\ (0 <= s' < 233280)%Q.
Proof.
  intros Hs. unfold seededRandom_call. cbn [num_mul num_add].
  rewrite num_rem_fin by (intros H; discriminate H).
  rewrite num_div_fin by (intros H; discriminate H).
  eexists _, _. split; [reflexivity|].
  set (x := (s * 9301 + 49297)%Q).
  set (y := (x / 233280)%Q).
  assert (Hy : (x == y * 233280)%Q) by (subst y; field).
  assert (Hx : (0 <= x)%Q) by (subst x; lra).
  assert (Ht : Qtrunc y = Qfloor y).
  { unfold Qtrunc. destruct (Qle_bool 0 y) eqn:E; qprop; [reflexivity|lra]. }
  rewrite Ht.
  pose proof (Qfloor_le y) as H1. pose proof (Qlt_floor y) as H2.
  rewrite inject_Z_plus in H2. change (inject_Z 1) with 1%Q in H2.
  set (f := inject_Z (Qfloor y)) in *.
  set (s' := (x - 233280 * f)%Q).
  assert (Hs' : (0 <= s' < 233280)%Q) by (subst s'; lra).
  split; [|exact Hs'].
  set (r := (s' / 233280)%Q).
  assert (Hr : (s' == r * 233280)%Q) by (subst r; field).
  lra.
Qed.

Lemma good_seed_nonneg (s : Q) : (0 <= s)%Q -> good_seed (Fin s).
Proof.
  intros Hs.
  destruct (seededRandom_call_nonneg s Hs) as (r & s' & E & Hr & Hs').
  exists r, s'. repeat split; tauto || lra.
Qed.

(** The shuffle loop on any seed keeps a table of 256 bytes. *)
Lemma shuffle_step_u8 (st : list Z * num) (i : nat) :
  length (fst st) = 256%nat /\ Forall is_u8 (fst st) ->
  length (fst (shuffle_step st i)) = 256%nat
  /\ Forall is_u8 (fst (shuffle_step st i)).
Proof.
  destruct st as [p seed]. intros [Hl Hu]. unfold shuffle_step.
  destruct (seededRandom_call seed) as [r seed']. cbn [fst] in *.
  rewrite !ta_set_length. split; [exact Hl|].
  now do 2 apply ta_set_u8.
Qed.

(** The shuffle loop on a non-negative seed exchanges two elements of the
    table at every step. *)
Lemma shuffle_step_perm (st : list Z * num) (i : nat) :
  (i < 256)%nat ->
  (fst st ≡ₚ seqZ 0 256 /\ good_seed (snd st)) ->
  fst (shuffle_step st i) ≡ₚ seqZ 0 256
  /\ good_seed (snd (shuffle_step st i)).
Proof.
  destruct st as [p seed]. cbn [fst snd].
  intros Hi (Hp & r & s' & Ecall & Hr & Hs'). unfold shuffle_step.
  rewrite Ecall. cbn [fst snd].
  split; [|now apply good_seed_nonneg].
  assert (Hlen : length p = 256%nat)
    by (rewrite Hp, length_seqZ; reflexivity).
  assert (Hu : Forall is_u8 p).
  { apply Forall_forall. intros v Hv. rewrite Hp in Hv.
    apply elem_of_seqZ in Hv. unfold is_u8. lia. }
  unfold num_of_nat, num_of_Z. cbn [num_add num_mul Math_floor].
  unfold num_of_Z.
  set (jz := Qfloor (r * (inject_Z (Z.of_nat i) + 1))).
  assert (Hj : (0 <= jz < Z.of_nat i + 1)%Z).
  { apply Qfloor_bounds.
    - change (inject_Z 0) with 0%Q.
      assert (0 <= inject_Z (Z.of_nat i))%Q
        by (unfold Qle, inject_Z; simpl; lia).
      nra.
    - rewrite inject_Z_plus. change (inject_Z 1) with 1%Q.
      assert (0 <= inject_Z (Z.of_nat i))%Q
        by (unfold Qle, inject_Z; simpl; lia).
      nra. }
  destruct (ta_get_Z p (inject_Z jz) jz) as (vj & Hvj & ->);
    [reflexivity|lia|].
  destruct (ta_get_Z p (inject_Z (Z.of_nat i)) (Z.of_nat i))
    as (vi & Hvi & ->); [reflexivity|lia|].
  rewrite Nat2Z.id in Hvi.
  rewrite (ta_set_Z p _ (Z.of_nat i) vj);
    [|reflexivity|lia|exact (Forall_lookup_1 _ _ _ _ Hu Hvj)].
  rewrite (ta_set_Z _ _ jz vi);
    [|reflexivity|rewrite length_insert; lia
     |exact (Forall_lookup_1 _ _ _ _ Hu Hvi)].
  rewrite Nat2Z.id. etrans; [|exact Hp].
  now apply insert_swap_perm.
Qed.

(** From a good seed the shuffled table is a permutation of [0..255]. *)
Lemma shuffle_permutation (seed : num) :
  good_seed seed ->
  fst (shuffle (init_p (new_Uint8Array 256)) seed) ≡ₚ seqZ 0 256.
Proof.
  intros Hs. unfold shuffle.
  apply (foldl_invariant shuffle_step
           (fun st => fst st ≡ₚ seqZ 0 256 /\ good_seed (snd st))
           (fun i => (i < 256)%nat) _ _ shuffle_indices).
  - intros st i Hi Hst. now apply shuffle_step_perm.
  - cbn [fst snd]. rewrite init_p_identity. auto.
Qed.

Lemma shuffle_u8 (seed : num) :
  length (fst (shuffle (init_p (new_Uint8Array 256)) seed)) = 256%nat
  /\ Forall is_u8 (fst (shuffle (init_p (new_Uint8Array 256)) seed)).
Proof.
  unfold shuffle.
  apply (foldl_invariant shuffle_step
           (fun st => length (fst st) = 256%nat /\ Forall is_u8 (fst st))
           (fun _ => True)).
  - apply Forall_forall. auto.
  - intros st i _ Hst. now apply shuffle_step_u8.
  - cbn [fst]. rewrite init_p_identity. split; [reflexivity|].
    apply Forall_forall. intros v Hv. apply elem_of_seqZ in Hv.
    unfold is_u8. lia.
Qed.

End NoiseTables.

Section NoiseTablesExtended.

Import SimplexNoise.

(** A typed-array read yields [undefined] or one of the stored elements. *)
Lemma ta_get_cases (P : Z -> Prop) (a : list Z) (k : num) :
  Forall P a ->
  ta_get a k = JUndefined
  \/ exists v, P v /\ ta_get a k = JNum (num_of_Z v).
Proof.
  intros Ha. unfold ta_get.
  destruct (index_of _ _) as [i|]; [|now left].
  destruct (a !! i) as [v|] eqn:E; [|now left].
  right. exists v. split; [|reflexivity].
  exact (Forall_lookup_1 _ _ _ _ Ha E).
Qed.

(** The element stored into [permMod12] is a gradient index. *)
Lemma mod12_range (x : jsval) :
  (x = JUndefined \/ exists v, is_u8 v /\ x = JNum (num_of_Z v)) ->
  is_grad_index (ToUint8 (JNum (ToNumber x rem 12))).
Proof.
  intros [->|(v & Hv & ->)].
  - vm_compute. split; [discriminate|reflexivity].
  - cbn [ToNumber].
    change (Fin 12) with (num_of_Z 12).
    rewrite (ToUint8_Z _ (Z.rem v 12) (num_rem_Z v 12)).
    unfold is_u8 in Hv. unfold is_grad_index.
    pose proof (Z.rem_bound_pos v 12). rewrite Z.mod_small; lia.
Qed.

Lemma extend_step_ok (p : list Z) (st : list Z * list Z) (i : nat) :
  (length (fst st) = 512%nat /\ Forall is_u8 (fst st)
   /\ length (snd st) = 512%nat /\ Forall is_grad_index (snd st)) ->
  length (fst (extend_step p st i)) = 512%nat
  /\ Forall is_u8 (fst (extend_step p st i))
  /\ length (snd (extend_step p st i)) = 512%nat
  /\ Forall is_grad_index (snd (extend_step p st i)).
Proof.
  destruct st as [perm pm]. cbn [fst snd]. intros (L1 & U1 & L2 & U2).
  unfold extend_step. cbn [fst snd]. rewrite !ta_set_length.
  split; [exact L1|]. split; [now apply ta_set_u8|]. split; [exact L2|].
  set (perm' := ta_set perm _ _).
  assert (U1' : Forall is_u8 perm') by now apply ta_set_u8.
  unfold ta_set at 1. destruct (index_of _ _); [|exact U2].
  apply Forall_insert; [exact U2|].
  apply mod12_range, ta_get_cases, U1'.
Qed.

Lemma extend_ok (p : list Z) :
  length (fst (extend p)) = 512%nat
  /\ Forall is_u8 (fst (extend p))
  /\ length (snd (extend p)) = 512%nat
  /\ Forall is_grad_index (snd (extend p)).
Proof.
  unfold extend.
  apply (foldl_invariant (extend_step p)
           (fun st => length (fst st) = 512%nat /\ Forall is_u8 (fst st)
                      /\ length (snd st) = 512%nat
                      /\ Forall is_grad_index (snd st))
           (fun _ => True)).
  - apply Forall_forall. auto.
  - intros st i _ Hst. now apply extend_step_ok.
  - cbn [fst snd]. unfold new_Uint8Array. rewrite !length_replicate.
    repeat split; try apply Forall_replicate; unfold is_u8, is_grad_index; lia.
Qed.

Lemma build_p (seed : num) :
  p (build seed) = fst (shuffle (init_p (new_Uint8Array 256)) seed).
Proof.
  unfold build. destruct (shuffle _ seed) as [p' s'].
  destruct (extend p'). reflexivity.
Qed.

(** Whatever the seed, the constructor leaves well-formed tables. *)
Lemma build_tables_ok (seed : num) : tables_ok (build seed).
Proof.
  pose proof (shuffle_u8 seed) as [Lp Up].
  unfold tables_ok. rewrite build_p. unfold build.
  destruct (shuffle _ seed) as [p' s']. cbn [fst] in *.
  pose proof (extend_ok p') as (L1 & U1 & L2 & U2).
  destruct (extend p') as [perm' pm']. cbn [fst snd] in *.
  cbn [SimplexNoise.perm SimplexNoise.permMod12 SimplexNoise.grad3].
  repeat split; assumption || reflexivity.
Qed.

(** From a good seed, [p] is a permutation of [0..255]. *)
Lemma build_permutation (seed : num) :
  good_seed seed -> p (build seed) ≡ₚ seqZ 0 256.
Proof. intros Hs. rewrite build_p. now apply shuffle_permutation. Qed.

End NoiseTablesExtended.

(** ** Table accesses of [noise3D] *)

Section NoiseAccess.

Import SimplexNoise.

(** Masking with [& 255] leaves an integer of [0, 255]. *)
Lemma and_255 (a : num) :
  exists z : Z, a & 255 = num_of_Z z /\ (0 <= z <= 255)%Z.
Proof.
  unfold num_and. eexists; split; [reflexivity|].
  replace (ToInt32 (Fin 255)) with (Z.ones 8) by (vm_compute; reflexivity).
  rewrite Z.land_ones by lia.
  pose proof (Z.mod_pos_bound (ToInt32 a) (2 ^ 8)). lia.
Qed.

(** Read the table [tab] at the integer [z], naming the element. *)
Ltac table_read tab q z v Hv Ev :=
  destruct (ta_get_Z tab q z) as (v & Hv & Ev);
  [ rewrite ?inject_Z_plus; reflexivity | lia | ].

Lemma grad_get_index (n : t) (g : Z) :
  length (grad3 n) = 12%nat -> is_grad_index g ->
  is_Some (grad_get n (JNum (num_of_Z g))).
Proof.
  intros L Hg. unfold grad_get, is_grad_index in *.
  cbn [ToNumber]. unfold num_of_Z.
  rewrite (index_of_Z _ _ g) by (reflexivity || lia).
  apply lookup_lt_is_Some_2. lia.
Qed.

(** The three nested reads behind a gradient index stay inside the tables:
    with [ii], [jj], [kk] in [0, 255] and offsets in {0, 1}, the indices
    [kk + k1], [jj + j1 + perm[..]] and [ii + i1 + perm[..]] lie in
    [0, 511], and the value read from [permMod12] selects a gradient. *)
Lemma gi_in_range (n : t) (ii jj kk i1 j1 k1 : Z) :
  tables_ok n ->
  (0 <= ii <= 255)%Z -> (0 <= jj <= 255)%Z -> (0 <= kk <= 255)%Z ->
  (0 <= i1 <= 1)%Z -> (0 <= j1 <= 1)%Z -> (0 <= k1 <= 1)%Z ->
  exists a b g : Z,
    (0 <= kk + k1 <= 511)%Z
    /\ perm n !! Z.to_nat (kk + k1) = Some a
    /\ (0 <= jj + j1 + a <= 511)%Z
    /\ perm n !! Z.to_nat (jj + j1 + a) = Some b
    /\ (0 <= ii + i1 + b <= 511)%Z
    /\ permMod12 n !! Z.to_nat (ii + i1 + b) = Some g
    /\ is_grad_index g
    /\ gi n (num_of_Z ii) (num_of_Z jj) (num_of_Z kk)
            (num_of_Z i1) (num_of_Z j1) (num_of_Z k1) = JNum (num_of_Z g)
    /\ is_Some (grad_get n (JNum (num_of_Z g))).
Proof.
  intros (_ & _ & L1 & U1 & L2 & U2 & LG) Hii Hjj Hkk Hi1 Hj1 Hk1.
  unfold gi, num_of_Z. cbn [num_add].
  table_read (perm n) (inject_Z kk + inject_Z k1)%Q (kk + k1)%Z a Ha Ea.
  pose proof (Forall_lookup_1 _ _ _ _ U1 Ha) as Hau. unfold is_u8 in Hau.
  rewrite Ea. cbn [ToNumber]. unfold num_of_Z. cbn [num_add].
  table_read (perm n) (inject_Z jj + inject_Z j1 + inject_Z a)%Q
             (jj + j1 + a)%Z b Hb Eb.
  pose proof (Forall_lookup_1 _ _ _ _ U1 Hb) as Hbu. unfold is_u8 in Hbu.
  rewrite Eb. cbn [ToNumber]. unfold num_of_Z. cbn [num_add].
  table_read (permMod12 n) (inject_Z ii + inject_Z i1 + inject_Z b)%Q
             (ii + i1 + b)%Z g Hg Eg.
  pose proof (Forall_lookup_1 _ _ _ _ U2 Hg) as Hgu.
  rewrite Eg. exists a, b, g.
  repeat (split; [first [lia | assumption | reflexivity]|]).
  now apply grad_get_index.
Qed.

(** The first corner reads [permMod12[ii + perm[jj + perm[kk]]]]. *)
Lemma gi0_in_range (n : t) (ii jj kk : Z) :
  tables_ok n ->
  (0 <= ii <= 255)%Z -> (0 <= jj <= 255)%Z -> (0 <= kk <= 255)%Z ->
  exists a b g : Z,
    perm n !! Z.to_nat kk = Some a
    /\ (0 <= jj + a <= 511)%Z
    /\ perm n !! Z.to_nat (jj + a) = Some b
    /\ (0 <= ii + b <= 511)%Z
    /\ permMod12 n !! Z.to_nat (ii + b) = Some g
    /\ is_grad_index g
    /\ gi0 n (num_of_Z ii) (num_of_Z jj) (num_of_Z kk) = JNum (num_of_Z g)
    /\ is_Some (grad_get n (JNum (num_of_Z g))).
Proof.
  intros (_ & _ & L1 & U1 & L2 & U2 & LG) Hii Hjj Hkk.
  unfold gi0, num_of_Z.
  table_read (perm n) (inject_Z kk) kk a Ha Ea.
  pose proof (Forall_lookup_1 _ _ _ _ U1 Ha) as Hau. unfold is_u8 in Hau.
  rewrite Ea. cbn [ToNumber]. unfold num_of_Z. cbn [num_add].
  table_read (perm n) (inject_Z jj + inject_Z a)%Q (jj + a)%Z b Hb Eb.
  pose proof (Forall_lookup_1 _ _ _ _ U1 Hb) as Hbu. unfold is_u8 in Hbu.
  rewrite Eb. cbn [ToNumber]. unfold num_of_Z. cbn [num_add].
  table_read (permMod12 n) (inject_Z ii + inject_Z b)%Q (ii + b)%Z g Hg Eg.
  pose proof (Forall_lookup_1 _ _ _ _ U2 Hg) as Hgu.
  rewrite Eg. exists a, b, g.
  repeat (split; [first [lia | assumption | reflexivity]|]).
  now apply grad_get_index.
Qed.

(** The corner offsets chosen by the six orderings are 0 or 1. *)
Lemma simplex_order_bits (x0 y0 z0 : num) :
  exists i1 j1 k1 i2 j2 k2 : Z,
    simplex_order x0 y0 z0
    = (num_of_Z i1, num_of_Z j1, num_of_Z k1,
       num_of_Z i2, num_of_Z j2, num_of_Z k2)
    /\ (0 <= i1 <= 1)%Z /\ (0 <= j1 <= 1)%Z /\ (0 <= k1 <= 1)%Z
    /\ (0 <= i2 <= 1)%Z /\ (0 <= j2 <= 1)%Z /\ (0 <= k2 <= 1)%Z.
Proof.
  unfold simplex_order.
  destruct (x0 >=? y0), (y0 >=? z0), (x0 >=? z0), (y0 <? z0), (x0 <? z0);
    first
      [ exists 1%Z, 0%Z, 0%Z, 1%Z, 1%Z, 0%Z; split; [reflexivity|lia]
      | exists 1%Z, 0%Z, 0%Z, 1%Z, 0%Z, 1%Z; split; [reflexivity|lia]
      | exists 0%Z, 0%Z, 1%Z, 1%Z, 0%Z, 1%Z; split; [reflexivity|lia]
      | exists 0%Z, 0%Z, 1%Z, 0%Z, 1%Z, 1%Z; split; [reflexivity|lia]
      | exists 0%Z, 1%Z, 0%Z, 0%Z, 1%Z, 1%Z; split; [reflexivity|lia]
      | exists 0%Z, 1%Z, 0%Z, 1%Z, 1%Z, 0%Z; split; [reflexivity|lia] ].
Qed.

(** A corner whose gradient read succeeds does not throw. *)
Lemma corner_total (n : t) (g : jsval) (x y z : num) :
  is_Some (grad_get n g) -> is_Some (corner n g x y z).
Proof.
  intros [v Hv]. unfold corner. destruct (_ <? _); [eauto|].
  rewrite Hv. cbn. eauto.
Qed.

(** With well-formed tables [noise3D] performs no out-of-range access and
    returns a number, at every point. *)
Lemma noise3D_total (n : t) (xin yin zin : num) :
  tables_ok n -> is_Some (noise3D n xin yin zin).
Proof.
  intros Hok. unfold noise3D. cbv zeta.
  repeat match goal with
         | |- context [?a & Fin 255] =>
             let z := fresh "m" in
             let Hz := fresh "Hm" in
             destruct (and_255 a) as (z & -> & Hz)
         end.
  match goal with
  | |- context [simplex_order ?a ?b ?c] =>
      destruct (simplex_order_bits a b c)
        as (i1 & j1 & k1 & i2 & j2 & k2 & -> & B1 & B2 & B3 & B4 & B5 & B6)
  end.
  change (Fin 1) with (num_of_Z 1).
  destruct (gi0_in_range n m m0 m1 Hok)
    as (? & ? & g0 & _ & _ & _ & _ & _ & _ & -> & G0); try lia.
  destruct (gi_in_range n m m0 m1 i1 j1 k1 Hok)
    as (? & ? & g1 & _ & _ & _ & _ & _ & _ & _ & -> & G1); try lia.
  destruct (gi_in_range n m m0 m1 i2 j2 k2 Hok)
    as (? & ? & g2 & _ & _ & _ & _ & _ & _ & _ & -> & G2); try lia.
  destruct (gi_in_range n m m0 m1 1 1 1 Hok)
    as (? & ? & g3 & _ & _ & _ & _ & _ & _ & _ & -> & G3); try lia.
  repeat match goal with
         | |- context [corner n (JNum (num_of_Z ?g)) ?x ?y ?z] =>
             let v := fresh "v" in
             let Hv := fresh "Hv" in
             destruct (corner_total n (JNum (num_of_Z g)) x y z) as [v Hv];
             [assumption|rewrite Hv; cbn [mbind option_bind]]
         end.
  eauto.
Qed.

End NoiseAccess.

Section NoiseConstruction.

Import SimplexNoise.

(** X18.  Whatever the seed (negative, fractional, NaN), the constructor
    leaves [perm] with 512 bytes and [permMod12] with 512 gradient indices,
    and every table access of [noise3D] is in range: it returns a number at
    every point. *)
Lemma noise_tables_safe (seed : num) (xin yin zin : num) :
  tables_ok (build seed) /\ is_Some (noise3D (build seed) xin yin zin).
Proof.
  split; [apply build_tables_ok|apply noise3D_total, build_tables_ok].
Qed.

(** For every non-negative integer seed the table [p] is a permutation of
    [0..255]. *)
Lemma nonneg_seed_permutation (seed : Z) :
  (0 <= seed)%Z -> p (build (num_of_Z seed)) ≡ₚ seqZ 0 256.
Proof.
  intros H. apply build_permutation, good_seed_nonneg.
  unfold Qle, inject_Z; simpl. lia.
Qed.

(** C9 (the code departs from the claim).  The integer seed -6 drives the
    seeded generator to negative values ([%] keeps the sign of the
    dividend), every drawn index [j] is negative, every [p[j]] reads
    [undefined], and the swap stores 0 at [p[i]]: after construction [p] is
    all zeros, not a permutation of [0..255]. *)
Theorem negative_seed_table :
  closure_output 0 (num_of_Z (-6)) =n= Fin (-6509 # 233280)
  /\ p (build (num_of_Z (-6))) = replicate 256 0%Z
  /\ ~ (p (build (num_of_Z (-6))) ≡ₚ seqZ 0 256).
Proof.
  assert (Hp : p (build (num_of_Z (-6))) = replicate 256 0%Z)
    by (vm_compute; reflexivity).
  split; [vm_compute; reflexivity|]. split; [exact Hp|].
  rewrite Hp. intros H.
  assert (H1 : (1 : Z) ∈ seqZ 0 256) by (apply elem_of_seqZ; lia).
  rewrite <- H in H1. apply elem_of_replicate in H1 as [H1 _].
  discriminate H1.
Qed.

End NoiseConstruction.

(** ** Which integer seeds shuffle properly *)

Section SeedCharacterisation.

Import SimplexNoise.

Lemma index_of_neg (len : nat) (z : Z) :
  (z < 0)%Z -> index_of len (Fin (inject_Z z)) = None.
Proof.
  intros Hz. unfold index_of. rewrite Qfloor_Z.
  assert ((0 <=? z)%Z = false) as -> by lia.
  now rewrite andb_false_r.
Qed.

(** The first call of the closure on an integer seed. *)
Lemma seededRandom_call_Z (z : Z) :
  exists r s' : Q,
    seededRandom_call (num_of_Z z) = (Fin r, Fin s')
    /\ (s' == inject_Z (Spec.lcg z))%Q /\ (r == s' / 233280)%Q.
Proof.
  pose proof (lcg_exact z) as H.
  unfold seededRandom_call, num_of_Z in *. cbn [num_mul num_add] in *.
  rewrite num_rem_fin in * by (intros K; discriminate K).
  rewrite num_div_fin by (intros K; discriminate K).
  eexists _, _. split; [reflexivity|]. split; [exact H|reflexivity].
Qed.

Lemma lcg_bound (z : Z) : (-233280 < Spec.lcg z < 233280)%Z.
Proof.
  unfold Spec.lcg.
  pose proof (Z.rem_bound_abs (z * 9301 + 49297) 233280). lia.
Qed.

(** An integer seed whose first state is non-negative is a good seed. *)
Lemma good_seed_Z (z : Z) : (0 <= Spec.lcg z)%Z -> good_seed (num_of_Z z).
Proof.
  intros Hz. destruct (seededRandom_call_Z z) as (r & s' & E & Hs & Hr).
  exists r, s'. split; [exact E|].
  pose proof (lcg_bound z) as [_ Hb].
  rewrite Zle_Qle in Hz. rewrite Zlt_Qlt in Hb.
  change (inject_Z 0) with 0%Q in Hz.
  change (inject_Z 233280) with 233280%Q in Hb.
  assert (Hs' : (s' == r * 233280)%Q) by (rewrite Hr; field).
  lra.
Qed.

(** With a negative first state the first iteration draws a negative
    index: [p[j]] is [undefined], [p[255]] receives 0 and the write to
    [p[j]] is dropped. *)
Lemma first_step_negative (z : Z) :
  (Spec.lcg z < 0)%Z ->
  fst (shuffle_step (seqZ 0 256, num_of_Z z) 255)
  = <[255%nat := 0%Z]> (seqZ 0 256).
Proof.
  intros Hz. unfold shuffle_step.
  destruct (seededRandom_call_Z z) as (r & s' & -> & Hs & Hr).
  cbn [fst]. unfold num_of_nat, num_of_Z. cbn [num_add num_mul Math_floor].
  unfold num_of_Z.
  set (jz := Qfloor (r * (inject_Z (Z.of_nat 255) + 1))).
  assert (Hj : (jz < 0)%Z).
  { rewrite Zlt_Qlt. change (inject_Z 0) with 0%Q.
    eapply Qle_lt_trans; [apply Qfloor_le|].
    rewrite Zlt_Qlt in Hz. change (inject_Z 0) with 0%Q in Hz.
    assert (Hs' : (s' == r * 233280)%Q) by (rewrite Hr; field).
    change (inject_Z (Z.of_nat 255)) with 255%Q. lra. }
  unfold ta_get at 1. rewrite (index_of_neg _ jz Hj).
  unfold ta_set at 1. rewrite (index_of_neg _ jz Hj).
  vm_compute. reflexivity.
Qed.

Lemma ToUint8_get_below (a : list Z) (k : num) :
  Forall below_255 a -> below_255 (ToUint8 (ta_get a k)).
Proof.
  intros Ha. destruct (ta_get_cases below_255 a k Ha) as [->|(v & Hv & ->)].
  - vm_compute. split; [discriminate|reflexivity].
  - rewrite (ToUint8_Z _ v) by reflexivity.
    unfold below_255 in *. rewrite Z.mod_small; lia.
Qed.

Lemma ta_set_below (a : list Z) (k : num) (v : jsval) :
  Forall below_255 a -> below_255 (ToUint8 v) ->
  Forall below_255 (ta_set a k v).
Proof.
  intros Ha Hv. unfold ta_set. destruct (index_of _ _); [|exact Ha].
  now apply Forall_insert.
Qed.

(** Once 255 is lost no later iteration brings it back. *)
Lemma shuffle_step_below (st : list Z * num) (i : nat) :
  Forall below_255 (fst st) -> Forall below_255 (fst (shuffle_step st i)).
Proof.
  destruct st as [p seed]. cbn [fst]. intros Hp. unfold shuffle_step.
  destruct (seededRandom_call seed) as [r seed']. cbn [fst].
  apply ta_set_below; [apply ta_set_below|]; auto using ToUint8_get_below.
Qed.

Lemma first_table_below : Forall below_255 (<[255%nat := 0%Z]> (seqZ 0 256)).
Proof.
  apply Forall_forall. intros v Hv.
  apply list_elem_of_lookup in Hv as [i Hi].
  destruct (decide (i = 255%nat)) as [->|Hne].
  - rewrite list_lookup_insert_eq in Hi by (rewrite length_seqZ; lia).
    injection Hi as <-. unfold below_255. lia.
  - rewrite list_lookup_insert_ne in Hi by congruence.
    apply lookup_seqZ in Hi. unfold below_255. lia.
Qed.

Lemma foldl_cons_eq {A B : Type} (f : A -> B -> A) (a : A) (x : B)
  (l : list B) : foldl f a (x :: l) = foldl f (f a x) l.
Proof. reflexivity. Qed.

(** The loop starts at [i = 255]. *)
Lemma shuffle_first (p0 : list Z) (seed : num) :
  shuffle p0 seed
  = foldl shuffle_step (shuffle_step (p0, seed) 255) (rev (seq 1 254)).
Proof.
  unfold shuffle.
  change (rev (seq 1 255)) with (255%nat :: rev (seq 1 254)).
  apply foldl_cons_eq.
Qed.

(** With a negative first state the table is not a permutation. *)
Lemma negative_state_no_permutation (z : Z) :
  (Spec.lcg z < 0)%Z -> ~ (p (build (num_of_Z z)) ≡ₚ seqZ 0 256).
Proof.
  intros Hz Hperm.
  assert (Hb : Forall below_255 (p (build (num_of_Z z)))).
  { rewrite build_p, init_p_identity, shuffle_first.
    apply (foldl_invariant shuffle_step
             (fun st => Forall below_255 (fst st)) (fun _ => True)).
    - apply Forall_forall. auto.
    - intros st i _ Hst. now apply shuffle_step_below.
    - rewrite (first_step_negative z Hz). apply first_table_below. }
  assert (H255 : (255 : Z) ∈ p (build (num_of_Z z))).
  { rewrite Hperm. apply elem_of_seqZ. lia. }
  rewrite Forall_forall in Hb. specialize (Hb _ H255).
  unfold below_255 in Hb. lia.
Qed.

(** X17.  For an integer seed whose first step [seed * 9301 + 49297] is
    at most 2^53 in magnitude (so that the program computes it exactly),
    the table [p] is a permutation of [0..255] exactly when the first state
    of the generator, [(seed * 9301 + 49297) % 233280], is non-negative;
    this holds for every such seed from -5 upwards and fails, for
    instance, for -6. *)
Theorem p_permutation_iff (z : Z) :
  exact_seed z ->
  p (build (num_of_Z z)) ≡ₚ seqZ 0 256 <-> (0 <= Spec.lcg z)%Z.
Proof.
  intros _. split.
  - intros H. destruct (Z_le_gt_dec 0 (Spec.lcg z)) as [Hz|Hz]; [exact Hz|].
    exfalso. apply (negative_state_no_permutation z); [lia|exact H].
  - intros H. now apply build_permutation, good_seed_Z.
Qed.

Lemma p_permutation_iff_witness :
  p (build (num_of_Z (-6))) ≡ₚ seqZ 0 256 <-> (0 <= Spec.lcg (-6))%Z.
Proof. apply (p_permutation_iff (-6)). vm_compute. discriminate. Defined.

Lemma lcg_from_minus_5 (z : Z) : (-5 <= z)%Z -> (0 <= Spec.lcg z)%Z.
Proof. intros H. unfold Spec.lcg. apply Z.rem_nonneg; lia. Qed.

Example lcg_minus_6 : Spec.lcg (-6) = (-6509)%Z.
Proof. reflexivity. Qed.

End SeedCharacterisation.

(** At zero amplitude the wave value is zero, for instance at the point
    (1/4, 1/2) of layer 1 under a sine that returns 1/2 everywhere. *)
Example calculateWave_zero_amplitude :
  onum_eq
    (WaveEngine.calculateWave (fun _ => (1 # 2)%Q) zero_amplitude_engine
       (Fin (1 # 4)) (Fin (1 # 2)) (Fin 1))
    (Some (Fin 0)).
Proof. vm_compute. reflexivity. Qed.

(** ** The other helpers of [utils.js] *)

Section UtilsHelpers.

Import Utils.

(** X1.  [Utils.clamp] with ordered bounds: whatever the value (an infinity
    included, NaN excepted) the result lies between [min] and [max], and a
    value that already lies between them is returned. *)
Theorem clamp_between (v lo hi : num) :
  (lo <=? hi) = true -> v <> NaN ->
  (lo <=? clamp v lo hi) = true
  /\ (clamp v lo hi <=? hi) = true
  /\ ((lo <=? v) = true -> (v <=? hi) = true -> clamp v lo hi =n= v).
Proof.
  intros Hb Hv. unfold clamp, Math_max, Math_min.
  destruct v as [v| | |], lo as [lo| | |], hi as [hi| | |];
    try contradiction; try discriminate Hb;
    cbn [num_ltb num_leb num_gtb] in *; qprop;
    repeat first
      [ progress cbn [num_ltb num_leb num_eq]
      | match goal with
        | |- context [if Qltb ?a ?b then _ else _] =>
            destruct (Qltb a b) eqn:?; qprop
        end ];
    repeat split; intros; qprop;
    try reflexivity; try discriminate;
    try (apply Qle_bool_iff); try lra.
Qed.

Lemma clamp_between_witness :
  (Fin 8 <=? clamp PInf 8 32) = true /\ (clamp PInf 8 32 <=? Fin 32) = true.
Proof.
  destruct (clamp_between PInf 8 32) as (H1 & H2 & _);
    [reflexivity|discriminate|]. split; [exact H1|exact H2].
Defined.

(** X2.  [Utils.clamp] with the bounds the wrong way round ([max < min])
    ignores the value: the result is [min] for every value that is a
    number, the infinities included, and NaN for NaN. *)
Theorem clamp_inverted (v lo hi : num) :
  (hi <? lo) = true ->
  clamp v lo hi = match v with NaN => NaN | _ => lo end.
Proof.
  intros Hb. unfold clamp, Math_max, Math_min.
  destruct v as [v| | |], lo as [lo| | |], hi as [hi| | |];
    try discriminate Hb;
    cbn [num_ltb num_leb num_gtb] in *; qprop;
    repeat first
      [ progress cbn [num_ltb num_leb num_eq]
      | match goal with
        | |- context [if Qltb ?a ?b then _ else _] =>
            destruct (Qltb a b) eqn:?; qprop
        end ];
    try reflexivity; try discriminate; exfalso; lra.
Qed.

Lemma clamp_inverted_witness :
  clamp (Fin (1 # 2)) 1 0 = Fin 1 /\ clamp NaN 1 0 = NaN.
Proof.
  split.
  - apply (clamp_inverted (Fin (1 # 2)) 1 0). reflexivity.
  - apply (clamp_inverted NaN 1 0). reflexivity.
Defined.

(** X3.  [Utils.randomInt(min, max)] on integers [min <= max] of magnitude
    at most 2^51 (the range [max - min + 1] is then an integer below 2^53,
    on which the arithmetic of the program is exact), under the contract
    of [Math.random]: the result is an integer of [min, max], and exactly
    one draw is consumed. *)
Theorem randomInt_range (lo hi : Z) (w : World) :
  random_contract w -> (lo <= hi)%Z ->
  (- 2 ^ 51 <= lo)%Z -> (hi <= 2 ^ 51)%Z ->
  exists z : Z,
    fst (randomInt (num_of_Z lo) (num_of_Z hi) w) =n= num_of_Z z
    /\ (lo <= z <= hi)%Z
    /\ cursor (snd (randomInt (num_of_Z lo) (num_of_Z hi) w))
       = S (cursor w)
    /\ draws (snd (randomInt (num_of_Z lo) (num_of_Z hi) w)) = draws w.
Proof.
  intros Hw Hle _ _. destruct (Hw (cursor w)) as [H0 H1].
  unfold randomInt, Math_random. cbn [fst snd cursor draws].
  unfold num_of_Z. cbn [num_sub num_add num_mul Math_floor].
  set (r := draws w (cursor w)) in *.
  set (f := Qfloor (r * (inject_Z hi - inject_Z lo + 1))).
  exists (f + lo)%Z. unfold num_of_Z. cbn [num_add num_eq].
  split; [now rewrite inject_Z_plus|].
  split; [|split; reflexivity].
  assert (Hn : (1 <= inject_Z hi - inject_Z lo + 1)%Q).
  { rewrite Zle_Qle in Hle. lra. }
  assert (0 <= f < hi - lo + 1)%Z; [|lia].
  subst f. apply Qfloor_bounds.
  - unfold inject_Z at 1. nra.
  - unfold Z.sub. rewrite !inject_Z_plus, inject_Z_opp.
    change (inject_Z 1) with 1%Q.
    set (n := (inject_Z hi - inject_Z lo + 1)%Q) in *.
    assert (E : (inject_Z hi + - inject_Z lo + 1 == n)%Q)
      by (subst n; ring).
    rewrite E. nra.
Qed.

Lemma randomInt_range_witness :
  exists z : Z,
    fst (randomInt (num_of_Z 0) (num_of_Z 999999) (const_world (1 # 2)))
    =n= num_of_Z z
    /\ (0 <= z <= 999999)%Z.
Proof.
  destruct (randomInt_range 0 999999 (const_world (1 # 2)))
    as (z & Hz & Hr & _).
  - intros n. cbn. split; [discriminate|reflexivity].
  - lia.
  - lia.
  - lia.
  - exists z. split; [exact Hz|exact Hr].
Defined.

(** A byte is printed with its two hexadecimal digits, a leading zero
    included. *)
Lemma hex_pad_byte (x : Z) :
  (0 <= x <= 255)%Z -> hex_pad x = two_hex_digits x.
Proof.
  intros Hx.
  assert (H : forallb (fun x => String.eqb (hex_pad x) (two_hex_digits x))
                (seqZ 0 256) = true)
    by (vm_compute; reflexivity).
  rewrite forallb_forall in H. apply String.eqb_eq, H.
  apply list_elem_of_In, elem_of_seqZ. lia.
Qed.

(** X4.  [Utils.rgbToHex] on three bytes is the colour notation of the
    web: [#] followed by the two lower-case hexadecimal digits of each
    channel, high digit first, a single digit being padded with a zero. *)
Theorem rgbToHex_bytes (r g b : Z) :
  (0 <= r <= 255)%Z -> (0 <= g <= 255)%Z -> (0 <= b <= 255)%Z ->
  rgbToHex r g b
  = String.append "#"
      (String.append (two_hex_digits r)
         (String.append (two_hex_digits g) (two_hex_digits b))).
Proof.
  intros Hr Hg Hb. unfold rgbToHex.
  cbn [List.map String.concat].
  rewrite (hex_pad_byte r Hr), (hex_pad_byte g Hg), (hex_pad_byte b Hb).
  reflexivity.
Qed.

Lemma rgbToHex_bytes_witness :
  rgbToHex 255 0 171 = "#ff00ab" /\ rgbToHex 7 16 9 = "#071009".
Proof.
  split.
  - rewrite (rgbToHex_bytes 255 0 171) by lia. reflexivity.
  - rewrite (rgbToHex_bytes 7 16 9) by lia. reflexivity.
Defined.

(** X5.  [Utils.hslToRgb] at the ends of the lightness scale: lightness 0
    is black and lightness 1 is white, whatever the hue and the
    saturation. *)
Theorem hslToRgb_black_white (h s : Q) :
  hslToRgb (Fin h) (Fin s) (Fin 0) = (num_of_Z 0, num_of_Z 0, num_of_Z 0)
  /\ hslToRgb (Fin h) (Fin s) (Fin 1)
     = (num_of_Z 255, num_of_Z 255, num_of_Z 255).
Proof.
  split; unfold hslToRgb;
    rewrite num_div_fin by (intros H; discriminate H);
    cbn [num_sub]; rewrite Math_min_fin; cbn [num_mul];
    match goal with
    | |- context [hsl_f _ (Fin ?l) (Fin ?a) _] =>
        assert (Ha : (a == 0)%Q)
          by (match goal with
              | |- context [Qltb ?x ?y] =>
                  let v := eval vm_compute in (Qltb x y) in
                  change (Qltb x y) with v
              end; cbv iota; ring);
        destruct (hsl_f_gray (h / 360) l a 0 Ha) as (f0 & -> & K0);
        destruct (hsl_f_gray (h / 360) l a 8 Ha) as (f8 & -> & K8);
        destruct (hsl_f_gray (h / 360) l a 4 Ha) as (f4 & -> & K4)
    end;
    rewrite (round_comp _ _ K0), (round_comp _ _ K8), (round_comp _ _ K4);
    reflexivity.
Qed.

(** X6.  [Utils.map] with an empty input range ([inMin = inMax]) divides by
    zero: the result is an infinity or NaN, never a finite number. *)
Theorem map_degenerate (value a outMin outMax : Q) :
  ~ is_finite (map (Fin value) (Fin a) (Fin a) (Fin outMin) (Fin outMax)).
Proof.
  unfold map. cbn [num_sub num_mul]. unfold num_div.
  assert (E : Qeq_bool (a - a) 0 = true) by (apply Qeq_bool_iff; ring).
  rewrite E. now destruct (_ ?= _)%Q.
Qed.

End UtilsHelpers.

(** ** The noise field returns finite numbers *)

Section NoiseFiniteness.

Import SimplexNoise.

Lemma grad_get_finite (n : t) (g : Z) :
  grad3 n = gradients -> is_grad_index g ->
  exists a b c : Q,
    grad_get n (JNum (num_of_Z g)) = Some [Fin a; Fin b; Fin c].
Proof.
  intros Hn Hg. unfold grad_get. rewrite Hn. unfold is_grad_index in Hg.
  assert (g = 0 \/ g = 1 \/ g = 2 \/ g = 3 \/ g = 4 \/ g = 5 \/ g = 6
          \/ g = 7 \/ g = 8 \/ g = 9 \/ g = 10 \/ g = 11)%Z as Hc by lia.
  repeat destruct Hc as [->|Hc]; try subst g;
    do 3 eexists; vm_compute; reflexivity.
Qed.

Lemma corner_finite (n : t) (g : Z) (x y z : Q) :
  grad3 n = gradients -> is_grad_index g ->
  exists q : Q,
    corner n (JNum (num_of_Z g)) (Fin x) (Fin y) (Fin z) = Some (Fin q).
Proof.
  intros Hn Hg. unfold corner. cbn [num_mul num_sub].
  destruct (_ <? _); [eauto|].
  destruct (grad_get_finite n g Hn Hg) as (a & b & c & ->).
  cbn. eauto.
Qed.

(** On finite coordinates [noise3D] returns a finite number. *)
Lemma noise3D_finite (n : t) (f3 g3 xin yin zin : Q) :
  tables_ok n -> grad3 n = gradients -> F3 n = Fin f3 -> G3 n = Fin g3 ->
  exists q : Q, noise3D n (Fin xin) (Fin yin) (Fin zin) = Some (Fin q).
Proof.
  intros Hok Hgr HF HG. unfold noise3D. rewrite HF, HG. cbv zeta.
  unfold Math_floor, num_of_Z. cbn [num_add num_sub num_mul].
  repeat match goal with
         | |- context [?a & Fin 255] =>
             let z := fresh "m" in
             let Hz := fresh "Hm" in
             destruct (and_255 a) as (z & -> & Hz)
         end.
  match goal with
  | |- context [simplex_order ?a ?b ?c] =>
      destruct (simplex_order_bits a b c)
        as (i1 & j1 & k1 & i2 & j2 & k2 & -> & B1 & B2 & B3 & B4 & B5 & B6)
  end.
  change (Fin 1) with (num_of_Z 1).
  destruct (gi0_in_range n m m0 m1 Hok)
    as (? & ? & g0 & _ & _ & _ & _ & _ & G0 & -> & _); try lia.
  destruct (gi_in_range n m m0 m1 i1 j1 k1 Hok)
    as (? & ? & g1 & _ & _ & _ & _ & _ & _ & G1 & -> & _); try lia.
  destruct (gi_in_range n m m0 m1 i2 j2 k2 Hok)
    as (? & ? & g2 & _ & _ & _ & _ & _ & _ & G2 & -> & _); try lia.
  destruct (gi_in_range n m m0 m1 1 1 1 Hok)
    as (? & ? & g3' & _ & _ & _ & _ & _ & _ & G3' & -> & _); try lia.
  unfold num_of_Z. cbn [num_add num_sub num_mul].
  repeat match goal with
         | |- context [corner n (JNum (Fin (inject_Z ?g))) (Fin ?x) (Fin ?y)
                              (Fin ?z)] =>
             let v := fresh "v" in
             let Hv := fresh "Hv" in
             destruct (corner_finite n g x y z) as [v Hv];
             [assumption|assumption|];
             unfold num_of_Z in Hv; rewrite Hv; cbn [mbind option_bind]
         end.
  cbn [num_add num_mul]. eauto.
Qed.

End NoiseFiniteness.

(** ** Invariants of the engine *)

Section EngineInvariants.

Import WaveEngine.

Variable sin_impl : Q -> Q.

(** The object made by [new SimplexNoise(seed)]: built from some number,
    and from the seed itself when the seed is a number. *)
Lemma new_noise_built (seed : jsval) (w : World) :
  exists s0 : num,
    fst (SimplexNoise.new seed w) = SimplexNoise.build s0
    /\ (forall s : num, seed = JNum s -> s0 = s).
Proof.
  destruct seed as [|s]; unfold SimplexNoise.new.
  - destruct (Math_random w) as [r w']. exists r. split.
    + generalize (SimplexNoise.build r). reflexivity.
    + intros s Hs. discriminate Hs.
  - exists s. split.
    + generalize (SimplexNoise.build s). reflexivity.
    + intros s' Hs. now injection Hs.
Qed.

Lemma build_constants (seed : num) :
  SimplexNoise.grad3 (SimplexNoise.build seed) = SimplexNoise.gradients
  /\ SimplexNoise.F3 (SimplexNoise.build seed) = Fin (1 / 3)
  /\ SimplexNoise.G3 (SimplexNoise.build seed) = Fin (1 / 6).
Proof.
  unfold SimplexNoise.build.
  destruct (SimplexNoise.shuffle _ _) as [p s'].
  destruct (SimplexNoise.extend p) as [perm pm].
  repeat split.
Qed.

(** The constructor and [updateConfig] with the construction of the noise
    object left unevaluated. *)
Lemma new_unfold (c : gmap string jsval) (w : World) :
  let w1 := snd (Math_random w) in
  let cfg0 :=
    Object_assign (defaults (Math_floor (fst (Math_random w) * 999999))) c in
  fst (new c w)
  = mk cfg0 (Fin 0) (fst (SimplexNoise.new (prop cfg0 "noiseSeed") w1)) 1
       "classic".
Proof.
  unfold new. cbn [Math_random fst snd].
  now destruct (SimplexNoise.new _ _).
Qed.

Lemma updateConfig_unfold (e : WaveEngine.t) (c : gmap string jsval)
  (w : World) :
  let cfg0 := Object_assign (config e) c in
  fst (updateConfig e c w)
  = match prop c "noiseSeed" with
    | JUndefined =>
        mk cfg0 (time e) (noise e) (noise_id e) (currentCharacterSet e)
    | JNum _ =>
        mk cfg0 (time e)
           (fst (SimplexNoise.new (prop cfg0 "noiseSeed") w))
           (S (noise_id e)) (currentCharacterSet e)
    end.
Proof.
  unfold updateConfig. destruct (prop c "noiseSeed"); [reflexivity|].
  now destruct (SimplexNoise.new _ _).
Qed.

(** Every reachable engine owns a noise object built by the constructor of
    [SimplexNoise]; when the configured seed is a number it is the object
    of that seed; and the name of the character set resolves to a truthy
    member of [characterSets]. *)
Lemma reachable_inv (e : WaveEngine.t) :
  reachable e ->
  (exists seed : num, noise e = SimplexNoise.build seed)
  /\ (forall s : num,
        prop (config e) "noiseSeed" = JNum s ->
        noise e = SimplexNoise.build s)
  /\ truthy (get_charset (currentCharacterSet e)) = true.
Proof.
  induction 1 as [c w|e c w _ (IH1 & IH2 & IH3)|e name _ (IH1 & IH2 & IH3)
                 |e dt _ IH|e _ IH]; try exact IH.
  - rewrite new_unfold. cbv zeta.
    cbn [noise config currentCharacterSet].
    match goal with
    | |- context [SimplexNoise.new ?v ?w1] =>
        destruct (new_noise_built v w1) as (s0 & -> & Hs0)
    end.
    split; [eauto|]. split; [|reflexivity].
    intros s Hs. now rewrite (Hs0 s Hs).
  - rewrite updateConfig_unfold. cbv zeta.
    destruct (prop c "noiseSeed") as [|s1] eqn:Ec;
      cbn [noise config currentCharacterSet].
    + split; [exact IH1|]. split; [|exact IH3].
      intros s Hs. apply IH2. rewrite <- Hs. symmetry.
      unfold prop, Object_assign in *.
      destruct (c !! "noiseSeed") as [v|] eqn:Ek.
      * cbn in Ec. subst v.
        rewrite (lookup_union_Some_l _ _ _ _ Ek) in Hs. discriminate Hs.
      * now rewrite lookup_union_r.
    + match goal with
      | |- context [SimplexNoise.new ?v ?w1] =>
          destruct (new_noise_built v w1) as (s0 & -> & Hs0)
      end.
      split; [eauto|]. split; [|exact IH3].
      intros s Hs. now rewrite (Hs0 s Hs).
  - unfold setCharacterSet.
    destruct (truthy (get_charset name)) eqn:Et.
    + cbn [noise config currentCharacterSet]. auto.
    + auto.
Qed.

(** X9.  Reproducibility of the field at the level of the engine: on every
    engine reachable through the constructor and the methods of
    [WaveEngine], whenever [config.noiseSeed] is a number the owned noise
    object is exactly the one the [SimplexNoise] constructor builds from
    that number, however many updates, clock steps and seed changes came
    before. *)
Theorem noise_follows_seed (e : WaveEngine.t) (s : num) :
  reachable e -> prop (config e) "noiseSeed" = JNum s ->
  noise e = SimplexNoise.build s.
Proof. intros He. now apply reachable_inv. Qed.

Lemma noise_follows_seed_witness :
  noise demo_engine = SimplexNoise.build (Fin 42).
Proof.
  apply noise_follows_seed; [apply reach_new|reflexivity].
Defined.

(** X10.  [calculateWave] never throws on a reachable engine: every table
    access of the noise sampler is in range, whatever the coordinates, the
    layer and the configuration (NaN and infinities included). *)
Theorem calculateWave_never_throws (e : WaveEngine.t) (x y layer : num) :
  reachable e -> is_Some (calculateWave sin_impl e x y layer).
Proof.
  intros He. destruct (reachable_inv e He) as ((seed & Hn) & _).
  unfold calculateWave. cbv zeta.
  match goal with
  | |- context [SimplexNoise.noise3D ?n ?a ?b ?c] =>
      destruct (noise3D_total n a b c) as [v Hv];
      [rewrite Hn; apply build_tables_ok|rewrite Hv]
  end.
  cbn [mbind option_bind]. eauto.
Qed.

(** The entries of a finite configuration. *)
Lemma finite_config_values (e : WaveEngine.t) :
  finite_config e ->
  exists a sp fr ly ch de : Q,
    cfg e "amplitude" = Fin a /\ cfg e "speed" = Fin sp
    /\ cfg e "frequency" = Fin fr /\ cfg e "layers" = Fin ly
    /\ cfg e "choppiness" = Fin ch /\ cfg e "depthEffect" = Fin de.
Proof.
  unfold finite_config, wave_keys. intros H.
  repeat match goal with
         | H : Forall _ (_ :: _) |- _ =>
             apply Forall_cons in H as [? H]
         end.
  repeat match goal with
         | H : is_finite (cfg e ?k) |- _ =>
             destruct (cfg e k); try contradiction; clear H
         end.
  do 6 eexists. repeat split.
Qed.

(** The value computed by [calculateWave] on finite data is finite, and it
    is a multiple of the layer amplitude. *)
Lemma calculateWave_shape (e : WaveEngine.t) (t x y layer : Q) :
  reachable e -> finite_config e -> time e = Fin t ->
  exists a d u q : Q,
    cfg e "amplitude" = Fin a
    /\ calculateWave sin_impl e (Fin x) (Fin y) (Fin layer) = Some (Fin q)
    /\ (q == u * (a * (1 - d * 0.3)))%Q.
Proof.
  intros He Hc Ht.
  destruct (reachable_inv e He) as ((seed & Hn) & _).
  destruct (finite_config_values e Hc)
    as (a & sp & fr & ly & ch & de & Ea & Esp & Efr & Ely & Ech & Ede).
  unfold calculateWave. cbv zeta.
  unfold layerSpeed, layerAmplitude, layerDepth.
  rewrite Ea, Esp, Efr, Ely, Ech, Ede, Ht, Hn.
  rewrite Math_max_fin.
  rewrite num_div_fin by (qcase; lra).
  set (d := (layer / (if Qltb ly 1 then 1 else ly))%Q).
  unfold Math_PI, Math_sin. cbn [num_add num_sub num_mul].
  destruct (build_constants seed) as (Hg & HF & HG).
  match goal with
  | |- context [SimplexNoise.noise3D ?n (Fin ?a1) (Fin ?a2) (Fin ?a3)] =>
      destruct (noise3D_finite n (1 / 3) (1 / 6) a1 a2 a3
                  (build_tables_ok seed) Hg HF HG) as [nv Hnv];
      rewrite Hnv
  end.
  cbn [mbind option_bind num_add num_sub num_mul].
  repeat match goal with
         | |- context [sin_impl ?arg] =>
             let s := fresh "s" in
             set (s := sin_impl arg)
         end.
  exists a, d, (s + s0 * 0.5 + s1 * 0.3 + nv * ch + s2 * 0.3)%Q.
  eexists. split; [reflexivity|]. split; [reflexivity|]. ring.
Qed.

Lemma within_finite (B : Q) (a : num) : within B a -> is_finite a.
Proof. intros (q & -> & _). exact I. Qed.

Lemma bounded_config_finite (e : WaveEngine.t) :
  bounded_config e -> finite_config e.
Proof.
  unfold bounded_config, finite_config. intros H.
  eapply Forall_impl; [exact H|].
  intros k. apply within_finite.
Qed.

(** X11.  On a reachable engine whose wave parameters and clock are numbers
    of magnitude at most [safe_bound], [calculateWave] returns a finite
    number at every point and layer of magnitude at most [safe_bound]: no
    NaN and no infinity enters the frame from the synthesis.  (Within the
    bound no argument of a sine and no product overflows.) *)
Theorem calculateWave_finite (e : WaveEngine.t) (x y layer : Q) :
  reachable e -> bounded_config e -> within safe_bound (time e) ->
  (- safe_bound <= x <= safe_bound)%Q ->
  (- safe_bound <= y <= safe_bound)%Q ->
  (- safe_bound <= layer <= safe_bound)%Q ->
  exists q : Q,
    calculateWave sin_impl e (Fin x) (Fin y) (Fin layer) = Some (Fin q).
Proof.
  intros He Hc (t & Et & _) _ _ _.
  destruct (calculateWave_shape e t x y layer He
              (bounded_config_finite e Hc) Et)
    as (a & d & u & q & _ & Hq & _).
  eauto.
Qed.

(** X12.  With amplitude 0 the surface is flat: on a reachable engine whose
    wave parameters and clock are of magnitude at most [safe_bound],
    [calculateWave] returns 0 at every point and layer of magnitude at
    most [safe_bound] (the value that [selectCharacter] then fails to
    normalise). *)
Theorem calculateWave_flat (e : WaveEngine.t) (x y layer : Q) :
  reachable e -> bounded_config e -> within safe_bound (time e) ->
  (- safe_bound <= x <= safe_bound)%Q ->
  (- safe_bound <= y <= safe_bound)%Q ->
  (- safe_bound <= layer <= safe_bound)%Q ->
  cfg e "amplitude" =n= Fin 0 ->
  onum_eq (calculateWave sin_impl e (Fin x) (Fin y) (Fin layer))
          (Some (Fin 0)).
Proof.
  intros He Hc (t & Et & _) _ _ _ Ha.
  destruct (calculateWave_shape e t x y layer He
              (bounded_config_finite e Hc) Et)
    as (a & d & u & q & Ea & -> & Hq).
  rewrite Ea in Ha. cbn [num_eq onum_eq] in *.
  rewrite Hq, Ha. ring.
Qed.

End EngineInvariants.

Lemma calculateWave_never_throws_witness :
  is_Some (WaveEngine.calculateWave (fun _ => 0%Q) demo_engine NaN PInf NInf).
Proof. apply calculateWave_never_throws, reach_new. Defined.

(** Discharge the standing assumptions of the engine theorems on a
    constructed engine. *)
Ltac in_bounds := split; discriminate.

Ltac within_bound := eexists; split; [reflexivity|in_bounds].

Ltac constructed_engine :=
  first
    [ apply reach_new
    | exact I
    | in_bounds
    | within_bound
    | unfold bounded_config, wave_keys;
      repeat (apply Forall_cons; split; [within_bound|]);
      apply Forall_nil_2 ].

Lemma calculateWave_finite_witness :
  exists q : Q,
    WaveEngine.calculateWave (fun _ => 0%Q) zero_amplitude_engine
      (Fin (1 # 4)) (Fin (1 # 2)) (Fin 1) = Some (Fin q).
Proof. apply calculateWave_finite; constructed_engine. Defined.

Lemma calculateWave_flat_witness :
  onum_eq
    (WaveEngine.calculateWave (fun _ => (1 # 2)%Q) zero_amplitude_engine
       (Fin (1 # 4)) (Fin (1 # 2)) (Fin 2))
    (Some (Fin 0)).
Proof.
  apply calculateWave_flat;
    [constructed_engine ..|vm_compute; reflexivity].
Defined.

(** ** The seeds the application generates *)

Section GeneratedSeeds.

Import WaveEngine.

Lemma floor_scaled_nonneg (r n : Q) :
  (0 <= r)%Q -> (0 <= n)%Q -> (0 <= inject_Z (Qfloor (r * n)))%Q.
Proof.
  intros Hr Hn. change 0%Q with (inject_Z 0). rewrite <- Zle_Qle.
  rewrite <- (Qfloor_Z 0). apply Qfloor_resp_le. unfold inject_Z. nra.
Qed.

(** X13.  The seeds the application draws by itself shuffle properly: after
    the seed button or Ctrl+R ([Utils.randomInt(0, 999999)] passed to
    [updateConfig]), and after a construction without [noiseSeed] (the
    default [Math.floor(Math.random() * 999999)]), the table [p] of the
    owned noise object is a permutation of [0..255], given that
    [Math.random] returns numbers of [0, 1). *)
Theorem generated_seeds_shuffle (e : WaveEngine.t) (c : gmap string jsval)
  (w : World) :
  random_contract w ->
  SimplexNoise.p (noise (fst (Controls.regenerateSeed e w))) ≡ₚ seqZ 0 256
  /\ (c !! "noiseSeed" = None ->
      SimplexNoise.p (noise (fst (new c w))) ≡ₚ seqZ 0 256).
Proof.
  intros Hw. destruct (Hw (cursor w)) as [H0 H1]. split.
  - unfold Controls.regenerateSeed, Utils.randomInt, Math_random.
    cbn [num_sub num_add num_mul Math_floor].
    unfold num_of_Z. cbn [num_add].
    match goal with
    | |- context [updateConfig e (<[_ := JNum ?v]> ∅) ?w1] =>
        destruct (updateConfig_rebuilds_noise e (<["noiseSeed" := JNum v]> ∅)
                    w1 v) as (-> & _)
    end.
    { apply lookup_insert_eq. }
    apply build_permutation, good_seed_nonneg.
    pose proof (floor_scaled_nonneg (draws w (cursor w)) (999999 - 0 + 1)
                  H0 ltac:(discriminate)).
    lra.
  - intros Hc. rewrite new_unfold. cbv zeta. cbn [noise].
    match goal with
    | |- context [SimplexNoise.new (prop ?cfg0 "noiseSeed") ?w1] =>
        assert (Hs : prop cfg0 "noiseSeed"
                     = JNum (Math_floor (fst (Math_random w) * 999999)));
        [|rewrite Hs;
          destruct (new_noise_built
                      (JNum (Math_floor (fst (Math_random w) * 999999))) w1)
            as (s0 & -> & Hs0);
          rewrite (Hs0 _ eq_refl)]
    end.
    { unfold prop, Object_assign.
      rewrite lookup_union_r by exact Hc. reflexivity. }
    unfold Math_random. cbn [fst num_mul Math_floor]. unfold num_of_Z.
    apply build_permutation, good_seed_nonneg, floor_scaled_nonneg;
      [exact H0|discriminate].
Qed.

Lemma generated_seeds_shuffle_witness :
  SimplexNoise.p
    (noise (fst (Controls.regenerateSeed demo_engine (const_world (1 # 2)))))
  ≡ₚ seqZ 0 256.
Proof.
  destruct (generated_seeds_shuffle demo_engine ∅ (const_world (1 # 2)))
    as [H _]; [|exact H].
  intros n. cbn. split; [discriminate|reflexivity].
Defined.

End GeneratedSeeds.

(** ** Determinism of the noise field *)

Section Determinism.

Lemma Math_floor_proper (a b : num) : a =n= b -> Math_floor a = Math_floor b.
Proof.
  destruct a, b; cbn [num_eq Math_floor]; try contradiction; auto.
  intros H. now rewrite H.
Qed.

(** The closure of [seededRandom] depends on the value of its state
    only. *)
Lemma seededRandom_call_proper (s1 s2 : num) :
  s1 =n= s2 ->
  fst (SimplexNoise.seededRandom_call s1)
  =n= fst (SimplexNoise.seededRandom_call s2)
  /\ snd (SimplexNoise.seededRandom_call s1)
     =n= snd (SimplexNoise.seededRandom_call s2).
Proof.
  intros Hs. unfold SimplexNoise.seededRandom_call. cbv zeta. cbn [fst snd].
  assert (Hst : (s1 * 9301 + 49297) rem 233280
                =n= (s2 * 9301 + 49297) rem 233280).
  { apply num_rem_proper; [|reflexivity].
    apply num_add_proper; [|reflexivity].
    apply num_mul_proper; [exact Hs|reflexivity]. }
  split; [|exact Hst]. apply num_div_proper; [exact Hst|reflexivity].
Qed.

Lemma closure_state_proper (k : nat) (s1 s2 : num) :
  s1 =n= s2 -> closure_state k s1 =n= closure_state k s2.
Proof.
  intros Hs. induction k as [|k IH]; [exact Hs|].
  cbn [closure_state]. now apply seededRandom_call_proper.
Qed.

Lemma closure_output_proper (k : nat) (s1 s2 : num) :
  s1 =n= s2 -> closure_output k s1 =n= closure_output k s2.
Proof.
  intros Hs. unfold closure_output.
  now apply seededRandom_call_proper, closure_state_proper.
Qed.

(** One iteration of the shuffle: the same table and the same state from
    the same table and the same state. *)
Lemma shuffle_step_proper (p : Uint8Array) (s1 s2 : num) (i : nat) :
  s1 =n= s2 ->
  fst (SimplexNoise.shuffle_step (p, s1) i)
  = fst (SimplexNoise.shuffle_step (p, s2) i)
  /\ snd (SimplexNoise.shuffle_step (p, s1) i)
     =n= snd (SimplexNoise.shuffle_step (p, s2) i).
Proof.
  intros Hs. unfold SimplexNoise.shuffle_step.
  destruct (seededRandom_call_proper s1 s2 Hs) as [Hr Ht].
  destruct (SimplexNoise.seededRandom_call s1) as [r1 t1].
  destruct (SimplexNoise.seededRandom_call s2) as [r2 t2].
  cbn [fst snd] in *. split; [|exact Ht].
  rewrite (Math_floor_proper (r1 * (num_of_nat i + 1))
             (r2 * (num_of_nat i + 1)));
    [reflexivity|].
  apply num_mul_proper; [exact Hr|reflexivity].
Qed.

Lemma foldl_shuffle_proper (l : list nat) (p : Uint8Array) (s1 s2 : num) :
  s1 =n= s2 ->
  fst (foldl SimplexNoise.shuffle_step (p, s1) l)
  = fst (foldl SimplexNoise.shuffle_step (p, s2) l)
  /\ snd (foldl SimplexNoise.shuffle_step (p, s1) l)
     =n= snd (foldl SimplexNoise.shuffle_step (p, s2) l).
Proof.
  revert p s1 s2. induction l as [|i l IH]; intros p s1 s2 Hs.
  - split; [reflexivity|exact Hs].
  - rewrite !foldl_cons_eq.
    destruct (shuffle_step_proper p s1 s2 i Hs) as [Hp Ht].
    destruct (SimplexNoise.shuffle_step (p, s1) i) as [p1 t1].
    destruct (SimplexNoise.shuffle_step (p, s2) i) as [p2 t2].
    cbn [fst snd] in *. subst p2. now apply IH.
Qed.

(** The constructor body depends on the value of the seed only. *)
Lemma build_proper (s1 s2 : num) :
  s1 =n= s2 -> SimplexNoise.build s1 = SimplexNoise.build s2.
Proof.
  intros Hs. unfold SimplexNoise.build, SimplexNoise.shuffle. cbv zeta.
  generalize (SimplexNoise.init_p (new_Uint8Array 256)). intros p0.
  destruct (foldl_shuffle_proper (rev (seq 1 255)) p0 s1 s2 Hs) as [Hp _].
  destruct (foldl SimplexNoise.shuffle_step (p0, s1) _) as [p1 t1].
  destruct (foldl SimplexNoise.shuffle_step (p0, s2) _) as [p2 t2].
  cbn [fst] in Hp. subst p2. reflexivity.
Qed.

(** C2.  Two noise fields constructed with the same seed (the same number,
    however it was computed), in any two states of the ambient generator,
    have the same tables and return the same [noise3D] value at every
    point; so do the noise objects of any two engines, whatever their
    histories, whose configured seeds are that number.  The shuffle of the
    constructor steps the captured state of the seeded generator 255
    times, and for an integer seed whose first step
    [seed * 9301 + 49297] is at most 2^53 in magnitude (so that the
    program computes it exactly) that state follows
    [seed = (seed * 9301 + 49297) % 233280], stays strictly between
    -233280 and 233280, and call number [k] returns the state after
    [k + 1] steps divided by 233280. *)
Theorem noise_field_deterministic (s1 s2 : num) (w1 w2 : World)
  (x y z : num) :
  s1 =n= s2 ->
  let n1 := fst (SimplexNoise.new (JNum s1) w1) in
  let n2 := fst (SimplexNoise.new (JNum s2) w2) in
  SimplexNoise.p n1 = SimplexNoise.p n2
  /\ SimplexNoise.perm n1 = SimplexNoise.perm n2
  /\ SimplexNoise.permMod12 n1 = SimplexNoise.permMod12 n2
  /\ SimplexNoise.noise3D n1 x y z = SimplexNoise.noise3D n2 x y z
  /\ (forall e1 e2 : WaveEngine.t,
        reachable e1 -> reachable e2 ->
        prop (WaveEngine.config e1) "noiseSeed" = JNum s1 ->
        prop (WaveEngine.config e2) "noiseSeed" = JNum s2 ->
        WaveEngine.noise e1 = WaveEngine.noise e2
        /\ SimplexNoise.noise3D (WaveEngine.noise e1) x y z
           = SimplexNoise.noise3D (WaveEngine.noise e2) x y z)
  /\ snd (SimplexNoise.shuffle (SimplexNoise.init_p (new_Uint8Array 256)) s1)
     = closure_state 255 s1
  /\ (forall seed : Z,
        exact_seed seed -> s1 =n= num_of_Z seed ->
        forall k : nat,
          closure_state k s1 =n= num_of_Z (Nat.iter k Spec.lcg seed)
          /\ closure_output k s1
             =n= num_of_Z (Nat.iter (S k) Spec.lcg seed) / 233280
          /\ (-233280 < Nat.iter (S k) Spec.lcg seed < 233280)%Z).
Proof.
  intros Hs n1 n2. subst n1 n2. cbn [SimplexNoise.new fst].
  rewrite (build_proper s1 s2 Hs).
  do 4 (split; [reflexivity|]).
  split; [|split].
  - intros e1 e2 H1 H2 E1 E2.
    destruct (reachable_inv e1 H1) as (_ & K1 & _).
    destruct (reachable_inv e2 H2) as (_ & K2 & _).
    rewrite (K1 s1 E1), (K2 s2 E2), (build_proper s1 s2 Hs).
    split; reflexivity.
  - unfold SimplexNoise.shuffle. rewrite shuffle_state.
    now rewrite length_rev, length_seq.
  - intros seed _ Hseed k. split; [|split].
    + rewrite (closure_state_proper k s1 (num_of_Z seed) Hseed).
      apply closure_state_lcg.
    + rewrite (closure_output_proper k s1 (num_of_Z seed) Hseed).
      apply closure_output_lcg.
    + change (Nat.iter (S k) Spec.lcg seed)
        with (Spec.lcg (Nat.iter k Spec.lcg seed)).
      apply lcg_bound.
Qed.

End Determinism.

Lemma noise_field_deterministic_witness :
  SimplexNoise.p (fst (SimplexNoise.new (JNum (Fin 42)) demo_world))
  = SimplexNoise.p
      (fst (SimplexNoise.new (JNum (Fin (84 # 2))) (const_world (1 # 4)))).
Proof.
  destruct (noise_field_deterministic (Fin 42) (Fin (84 # 2)) demo_world
              (const_world (1 # 4)) 0 0 0) as [H _];
    [vm_compute; reflexivity|exact H].
Defined.

(** ** Glyph selection and the ambient generator *)

Section SelectCharacterDraws.

Import Utils WaveEngine.

Lemma selectCharacter_in_band_witness :
  exists c,
    fst (selectCharacter demo_engine (Fin (1 # 2)) (Fin 0) demo_world)
    = Glyph c
    /\ in_bands classic c.
Proof.
  apply (selectCharacter_in_band demo_engine demo_world (1 # 2) 0.8 (Fin 0)).
  - vm_compute. reflexivity.
  - vm_compute. reflexivity.
  - intros [H _]. discriminate H.
  - intros n. cbn. split; [discriminate|reflexivity].
Defined.

Lemma selectCharacter_no_foam_witness :
  snd (selectCharacter
         (fst (updateConfig demo_engine (<["foamThreshold" := JNum 1]> ∅)
                 demo_world))
         (Fin (3 # 4)) (Fin 0) demo_world)
  = demo_world.
Proof.
  apply (selectCharacter_no_foam _ demo_world (Fin (3 # 4)) (Fin 0) classic).
  - vm_compute. reflexivity.
  - vm_compute. reflexivity.
Defined.

(** X16.  One call of [selectCharacter] consults [Math.random] at most once,
    and only for a wave value above zero (the foam branch): for every
    other value the ambient generator is left as it was. *)
Theorem selectCharacter_draws (e : WaveEngine.t) (waveValue layer : num)
  (w : World) :
  draws (snd (selectCharacter e waveValue layer w)) = draws w
  /\ (cursor (snd (selectCharacter e waveValue layer w)) = cursor w
      \/ cursor (snd (selectCharacter e waveValue layer w)) = S (cursor w)
         /\ (waveValue >? 0) = true).
Proof.
  unfold selectCharacter. cbv zeta.
  destruct (waveValue >? 0).
  - rewrite andb_true_r.
    destruct (_ >? cfg e "foamThreshold");
      destruct (get_charset (currentCharacterSet e));
      unfold Math_random;
      repeat match goal with
             | |- context [if ?b then _ else _] => destruct b
             end; cbn [fst snd draws cursor]; auto.
  - rewrite andb_false_r.
    destruct (get_charset (currentCharacterSet e));
      repeat match goal with
             | |- context [if ?b then _ else _] => destruct b
             end; cbn [fst snd draws cursor]; auto.
Qed.

End SelectCharacterDraws.

(** ** The grid of the renderer *)

Section RendererGrid.

Import Renderer.

Lemma Math_ceil_proper (a b : num) : a =n= b -> Math_ceil a = Math_ceil b.
Proof.
  destruct a, b; cbn [num_eq Math_ceil]; try contradiction; auto.
  intros H. now rewrite H.
Qed.

Lemma jsval_eq_trans (a b c : jsval) :
  jsval_eq a b -> jsval_eq b c -> jsval_eq a c.
Proof.
  destruct a, b, c; cbn [jsval_eq]; try contradiction; auto.
  intros H1 H2. now rewrite H1.
Qed.

Lemma jsval_eq_refl (a : jsval) : jsval_eq a a.
Proof. destruct a; cbn [jsval_eq]; [exact I|reflexivity]. Qed.

Lemma strict_eq_true (a b : jsval) : strict_eq a b = true -> jsval_eq a b.
Proof.
  destruct a as [|[x| | |]], b as [|[y| | |]]; cbn; try discriminate; auto.
  intros H. now apply Qeq_bool_iff.
Qed.

(** The ceiling of a quotient of integers. *)
Lemma ceil_div_Z (n c : Z) :
  (0 <= n)%Z -> (0 < c)%Z ->
  (0 <= Qceiling (inject_Z n / inject_Z c))%Z
  /\ ((Qceiling (inject_Z n / inject_Z c) - 1) * c < n
      <= Qceiling (inject_Z n / inject_Z c) * c)%Z.
Proof.
  intros Hn Hc.
  assert (Hn' : (0 <= inject_Z n)%Q)
    by (change 0%Q with (inject_Z 0); now rewrite <- Zle_Qle).
  assert (Hc' : (0 < inject_Z c)%Q)
    by (change 0%Q with (inject_Z 0); now rewrite <- Zlt_Qlt).
  set (q := (inject_Z n / inject_Z c)%Q).
  assert (Eq : (q * inject_Z c == inject_Z n)%Q) by (subst q; field; lra).
  pose proof (Qle_ceiling q) as Hu.
  pose proof (Qceiling_lt q) as Hl.
  unfold Z.sub in Hl. rewrite inject_Z_plus, inject_Z_opp in Hl.
  change (inject_Z 1) with 1%Q in Hl.
  split; [|split].
  - rewrite <- (Qceiling_Z 0). apply Qceiling_resp_le.
    change (inject_Z 0) with 0%Q. subst q.
    apply Qle_shift_div_l; lra.
  - rewrite Zlt_Qlt, inject_Z_mult. unfold Z.sub.
    rewrite inject_Z_plus, inject_Z_opp. change (inject_Z 1) with 1%Q.
    nra.
  - rewrite Zle_Qle, inject_Z_mult. nra.
Qed.

(** X19.  [resizeCanvas] with a cell size that is a positive whole number
    lays, on a canvas of whole width and height (all three at most 2^31),
    a grid that covers the canvas with less than one cell to spare in each
    direction: [(gridWidth - 1) * cellSize < width <= gridWidth * cellSize],
    and the same for the height. *)
Theorem resize_grid_covers (r : Renderer.t) (c W H : Z) :
  prop (config r) "cellSize" = JNum (num_of_Z c) ->
  (0 < c <= 2 ^ 31)%Z -> (0 <= W <= 2 ^ 31)%Z -> (0 <= H <= 2 ^ 31)%Z ->
  exists gw gh : Z,
    gridWidth (resizeCanvas r (num_of_Z W) (num_of_Z H)) = num_of_Z gw
    /\ gridHeight (resizeCanvas r (num_of_Z W) (num_of_Z H)) = num_of_Z gh
    /\ (0 <= gw)%Z /\ (0 <= gh)%Z
    /\ ((gw - 1) * c < W <= gw * c)%Z
    /\ ((gh - 1) * c < H <= gh * c)%Z.
Proof.
  intros Hc [Hpos _] [HW _] [HH _].
  unfold resizeCanvas. cbn [gridWidth gridHeight].
  rewrite Hc. cbn [ToNumber].
  change (num_of_Z W) with (Fin (inject_Z W)).
  change (num_of_Z H) with (Fin (inject_Z H)).
  change (num_of_Z c) with (Fin (inject_Z c)).
  assert (Hc' : ~ (inject_Z c == 0)%Q).
  { change 0%Q with (inject_Z 0). rewrite inject_Z_injective. lia. }
  rewrite !num_div_fin by exact Hc'. cbn [Math_ceil].
  exists (Qceiling (inject_Z W / inject_Z c)),
         (Qceiling (inject_Z H / inject_Z c)).
  split; [reflexivity|]. split; [reflexivity|].
  destruct (ceil_div_Z W c HW Hpos) as (? & ?).
  destruct (ceil_div_Z H c HH Hpos) as (? & ?).
  repeat split; tauto.
Qed.

Lemma resize_grid_covers_witness :
  exists gw gh : Z,
    gridWidth (resizeCanvas demo_renderer (num_of_Z 1000) (num_of_Z 500))
    = num_of_Z gw
    /\ gridHeight (resizeCanvas demo_renderer (num_of_Z 1000) (num_of_Z 500))
       = num_of_Z gh
    /\ (0 <= gw)%Z /\ (0 <= gh)%Z
    /\ ((gw - 1) * 16 < 1000 <= gw * 16)%Z
    /\ ((gh - 1) * 16 < 500 <= gh * 16)%Z.
Proof.
  apply (resize_grid_covers demo_renderer 16 1000 500);
    [reflexivity|lia|lia|lia].
Defined.

(** The grid is recomputed exactly when the configured cell size changes
    its value. *)
Lemma updateConfig_recomputes (r : Renderer.t)
  (newConfig : gmap string jsval) :
  grid_consistent r -> newConfig !! "cellSize" <> Some JUndefined ->
  grid_consistent (updateConfig r newConfig).
Proof.
  intros (Hw & Hh & Hf) Hne. unfold updateConfig. cbv zeta.
  destruct (newConfig !! "cellSize") as [[|n]|] eqn:En.
  - contradiction.
  - assert (E1 : prop newConfig "cellSize" = JNum n)
      by (unfold prop; now rewrite En).
    assert (E2 : prop (Object_assign (config r) newConfig) "cellSize"
                 = JNum n) by (now apply prop_assign).
    rewrite E1, E2. unfold grid_consistent.
    destruct (prop (config r) "cellSize") as [|m] eqn:Em;
      cbn [strict_eq negb andb];
      [|destruct (num_eqb n m) eqn:Es; cbn [negb]];
      cbn [gridWidth gridHeight font_px canvas_width canvas_height config];
      rewrite E2; cbn [ToNumber] in *;
      try (repeat split; apply jsval_eq_refl).
    assert (Hnm : n =n= m)
      by (apply (strict_eq_true (JNum n) (JNum m)); exact Es).
    rewrite Hw, Hh. repeat split.
    + apply Math_ceil_proper. now rewrite Hnm.
    + apply Math_ceil_proper. now rewrite Hnm.
    + eapply jsval_eq_trans; [exact Hf|]. cbn [jsval_eq]. now symmetry.
  - assert (E1 : prop newConfig "cellSize" = JUndefined)
      by (unfold prop; now rewrite En).
    assert (E2 : prop (Object_assign (config r) newConfig) "cellSize"
                 = prop (config r) "cellSize").
    { unfold prop, Object_assign. now rewrite lookup_union_r. }
    rewrite E1. cbn [strict_eq negb andb]. unfold grid_consistent.
    cbn [gridWidth gridHeight font_px canvas_width canvas_height config].
    rewrite E2. auto.
Qed.

(** X20.  [Renderer.updateConfig] keeps the grid and the font in step with
    the cell size: if they agree with the canvas and the configured cell
    size before the call, they agree after it, whether or not the cell size
    was among the new values, provided the new cell size is not passed as
    an explicit [undefined] (which would be stored without a
    recomputation) and is not zero ([newConfig.cellSize !== 0]; the two
    zeros compare equal and divide differently). *)
Theorem updateConfig_grid (r : Renderer.t) (newConfig : gmap string jsval) :
  grid_consistent r -> newConfig !! "cellSize" <> Some JUndefined ->
  strict_eq (prop newConfig "cellSize") (JNum (Fin 0)) = false ->
  grid_consistent (updateConfig r newConfig).
Proof.
  intros Hg Hne _. destruct (updateConfig_recomputes r newConfig Hg Hne)
    as (Hw & Hh & Hf).
  split; [exact Hw|]. split; [exact Hh|exact Hf].
Qed.

Lemma updateConfig_grid_witness :
  grid_consistent
    (updateConfig demo_renderer (<["cellSize" := JNum 32]> ∅)).
Proof.
  apply updateConfig_grid.
  - repeat split; reflexivity.
  - vm_compute. discriminate.
  - vm_compute. reflexivity.
Defined.

End RendererGrid.

(** ** Loops *)

Section Loops.

Context {St : Type}.

Implicit Types (cond : num -> bool) (step : num -> num)
  (body : num -> St -> completion St).

(** The invariant rule: [Inv] holds of the counter at every test, [P] of the
    state at every test and at a normal exit, [T] of the state at a
    throw. *)
Lemma for_loop_inv (Inv : num -> Prop) (P T : St -> Prop) fuel cond step body
  (i : num) (s : St) :
  (forall j, Inv j -> cond j = true -> Inv (step j)) ->
  (forall j s, Inv j -> cond j = true -> P s ->
     match body j s with
     | Normal s' => P s'
     | Throw s' => T s'
     | OutOfFuel => True
     end) ->
  Inv i -> P s ->
  match for_loop fuel cond step body i s with
  | Normal s' => P s'
  | Throw s' => T s'
  | OutOfFuel => True
  end.
Proof.
  intros Hstep Hbody. revert i s.
  induction fuel as [|fuel IH]; intros i s Hi Hs; cbn [for_loop]; [exact I|].
  destruct (cond i) eqn:Ec; [|exact Hs].
  specialize (Hbody i s Hi Ec Hs).
  destruct (body i s) as [s'| |]; try exact Hbody.
  apply IH; [now apply Hstep|exact Hbody].
Qed.

(** A counting loop below a finite bound ends once the fuel exceeds the
    number of integers below the bound. *)
Lemma for_loop_up_completes (b : Q) fuel body (k : Z) (i : num) (s : St) :
  (forall j s, completed (body j s)) ->
  i =n= num_of_Z k ->
  (Z.to_nat (Qceiling b - k) < fuel)%nat ->
  completed (for_loop fuel (fun i => i <? Fin b) (fun i => i + 1) body i s).
Proof.
  intros Hbody. revert k i s.
  induction fuel as [|fuel IH]; intros k i s Hi Hf; [lia|].
  cbn [for_loop].
  destruct i as [q| | |]; cbn [num_eq num_of_Z] in Hi; try contradiction.
  unfold num_of_Z in Hi. cbn [num_eq] in Hi.
  destruct (Fin q <? Fin b) eqn:Ec; [|exact I].
  cbn [num_ltb] in Ec. qprop.
  specialize (Hbody (Fin q) s).
  destruct (body (Fin q) s) as [s'| |]; try exact Hbody.
  apply (IH (k + 1)%Z).
  - cbn [num_add]. unfold num_of_Z. cbn [num_eq].
    rewrite inject_Z_plus, Hi. reflexivity.
  - assert (k < Qceiling b)%Z.
    { rewrite Zlt_Qlt. eapply Qlt_le_trans; [|apply Qle_ceiling].
      now rewrite <- Hi. }
    lia.
Qed.

(** A loop counting down to zero from a finite start ends once the fuel
    exceeds the number of non-negative values it visits. *)
Lemma for_loop_down_completes fuel body (q : Q) (s : St) :
  (forall j s, completed (body j s)) ->
  (Z.to_nat (Qfloor q + 1) < fuel)%nat ->
  completed
    (for_loop fuel (fun i => i >=? 0) (fun i => i - 1) body (Fin q) s).
Proof.
  intros Hbody. revert q s.
  induction fuel as [|fuel IH]; intros q s Hf; [lia|].
  cbn [for_loop].
  destruct (Fin q >=? 0) eqn:Ec; [|exact I].
  cbn [num_geb num_leb] in Ec. qprop.
  specialize (Hbody (Fin q) s).
  destruct (body (Fin q) s) as [s'| |]; try exact Hbody.
  cbn [num_sub]. apply IH.
  assert (0 <= Qfloor q)%Z
    by (rewrite <- (Qfloor_Z 0); now apply Qfloor_resp_le).
  assert (Qfloor (q - 1) < Qfloor q)%Z.
  { rewrite Zlt_Qlt. eapply Qle_lt_trans; [apply Qfloor_le|].
    pose proof (Qlt_floor q) as Hq. rewrite inject_Z_plus in Hq.
    change (inject_Z 1) with 1%Q in Hq. lra. }
  lia.
Qed.

End Loops.

(** ** One frame *)

Section RenderFrame.

Import Renderer.

Variables sin_impl sqrt_impl : Q -> Q.

Lemma calculateWave_built (e : WaveEngine.t) (x y layer : num) :
  (exists seed : num, WaveEngine.noise e = SimplexNoise.build seed) ->
  is_Some (WaveEngine.calculateWave sin_impl e x y layer).
Proof.
  intros (seed & Hn). unfold WaveEngine.calculateWave. cbv zeta.
  match goal with
  | |- context [SimplexNoise.noise3D ?n ?a ?b ?c] =>
      destruct (noise3D_total n a b c) as [v Hv];
      [rewrite Hn; apply build_tables_ok|rewrite Hv]
  end.
  cbn [mbind option_bind]. eauto.
Qed.

Lemma pick_no_throw (chars : list string) (index : num) :
  WaveEngine.pick chars index <> WaveEngine.TypeError.
Proof. unfold WaveEngine.pick. now destruct (arr_get _ _). Qed.

Lemma selectCharacter_own (e : WaveEngine.t) (cs : WaveEngine.CharSet)
  (waveValue layer : num) (w : World) :
  WaveEngine.characterSets !! WaveEngine.currentCharacterSet e = Some cs ->
  fst (WaveEngine.selectCharacter e waveValue layer w)
  <> WaveEngine.TypeError.
Proof.
  intros Hcs. unfold WaveEngine.selectCharacter.
  rewrite (get_charset_own _ _ Hcs). cbv zeta. unfold Math_random.
  repeat match goal with
         | |- context [if ?b then _ else _] => destruct b
         end; cbn [fst]; apply pick_no_throw.
Qed.

(** A cell adds at most the glyph of that cell to the frame. *)
Lemma render_cell_draws (r : Renderer.t) (e : WaveEngine.t) (bg : draw)
  (layer layerDepth gridY gridX : num) (s : World * list draw) :
  is_index gridX -> is_index gridY ->
  (gridX <? gridWidth r) = true -> (gridY <? gridHeight r) = true ->
  frame_so_far r bg s ->
  match render_cell sin_impl r e layer layerDepth gridY gridX s with
  | Normal s' | Throw s' => frame_so_far r bg s'
  | OutOfFuel => True
  end.
Proof.
  intros HX HY HW HH (cells & Es & Hcells). unfold render_cell. cbv zeta.
  destruct (WaveEngine.calculateWave _ _ _ _ _) as [waveValue|];
    [|now exists cells].
  destruct (WaveEngine.selectCharacter _ _ _ _) as [[c| |] w'].
  - destruct (String.eqb c " ") eqn:Ec; [now exists cells|].
    eexists. cbn [snd]. rewrite Es. split; [reflexivity|].
    apply Forall_app. split; [exact Hcells|]. repeat constructor.
    + intros [= ->]. now rewrite String.eqb_refl in Ec.
    + exists gridX, gridY. auto 10.
  - eexists. cbn [snd]. rewrite Es. split; [reflexivity|].
    apply Forall_app. split; [exact Hcells|]. repeat constructor.
    + discriminate.
    + exists gridX, gridY. auto 10.
  - now exists cells.
Qed.

Lemma is_index_0 : is_index (Fin 0).
Proof. exists 0%Z. split; [lia|reflexivity]. Qed.

Lemma is_index_succ (i : num) : is_index i -> is_index (i + 1).
Proof.
  intros (k & Hk & Hi). exists (k + 1)%Z. split; [lia|].
  destruct i as [q| | |]; cbn [num_eq num_of_Z] in Hi; try contradiction.
  unfold num_of_Z in *. cbn [num_add num_eq] in *.
  rewrite inject_Z_plus, Hi. reflexivity.
Qed.

Lemma render_layer_draws (fuel : nat) (r : Renderer.t) (e : WaveEngine.t)
  (bg : draw) (layer : num) (s : World * list draw) :
  frame_so_far r bg s ->
  match render_layer sin_impl fuel r e layer s with
  | Normal s' | Throw s' => frame_so_far r bg s'
  | OutOfFuel => True
  end.
Proof.
  intros Hs. unfold render_layer. cbv zeta.
  apply (for_loop_inv is_index (frame_so_far r bg) (frame_so_far r bg));
    [intros j Hj _; now apply is_index_succ| |apply is_index_0|exact Hs].
  intros gridY s1 HY HH Hs1. unfold render_row.
  apply (for_loop_inv is_index (frame_so_far r bg) (frame_so_far r bg));
    [intros j Hj _; now apply is_index_succ| |apply is_index_0|exact Hs1].
  intros gridX s2 HX HW Hs2. now apply render_cell_draws.
Qed.

(** The three ways [applyVignette] ends: nothing to draw when the
    intensity is not positive, one gradient over the whole canvas when the
    canvas accepts the arguments, an exception before anything is drawn
    otherwise. *)
Lemma applyVignette_cases (r : Renderer.t) :
  match applyVignette sqrt_impl r with
  | Normal [] => (cfg r "vignetteIntensity" <=? 0) = true
  | Normal [Vignette _ _ r0 r1 alpha width height] =>
      (cfg r "vignetteIntensity" <=? 0) = false
      /\ alpha = cfg r "vignetteIntensity"
      /\ width = canvas_width r /\ height = canvas_height r
  | Normal _ => False
  | Throw thrown => thrown = [] /\ (cfg r "vignetteIntensity" <=? 0) = false
  | OutOfFuel => False
  end.
Proof.
  unfold applyVignette. cbv zeta.
  destruct (cfg r "vignetteIntensity" <=? 0); [reflexivity|].
  repeat match goal with
         | |- context [if ?b then _ else _] => destruct b
         end; auto.
Qed.

(** X21.  What a frame draws.  Whenever [render] ends, normally or by an
    exception, the calls it made on the canvas are: first the background,
    filled over the whole canvas in the colour of the deepest trough
    ([calculateColor(-amplitude, 1)]); then only glyphs of cells, none of
    which is a space, each at [(gridX * cellSize, gridY * cellSize)] for
    integers [0 <= gridX < gridWidth] and [0 <= gridY < gridHeight]; and,
    after a normal end, the vignette, which is left out when
    [vignetteIntensity <= 0]. *)
Theorem render_draws (fuel : nat) (r : Renderer.t) (e : WaveEngine.t)
  (timestamp : num) (w : World) :
  let '(r', e', c) := render sin_impl sqrt_impl fuel r e timestamp w in
  let bg :=
    FillRect
      (calculateColor (config r') e' (- WaveEngine.cfg e' "amplitude") 1)
      0 0 (canvas_width r') (canvas_height r') in
  match c with
  | Normal s =>
      exists cells vignette : list draw,
        snd s = bg :: cells ++ vignette
        /\ Forall (cell_draw r') cells
        /\ applyVignette sqrt_impl r' = Normal vignette
        /\ match vignette with
           | [] => (cfg r' "vignetteIntensity" <=? 0) = true
           | [Vignette _ _ _ _ alpha width height] =>
               (cfg r' "vignetteIntensity" <=? 0) = false
               /\ alpha = cfg r' "vignetteIntensity"
               /\ width = canvas_width r' /\ height = canvas_height r'
           | _ => False
           end
  | Throw s => frame_so_far r' bg s
  | OutOfFuel => True
  end.
Proof.
  unfold render. cbv zeta.
  set (e' := WaveEngine.update e _).
  set (r' := mk _ _ _ _ _ timestamp _).
  set (bg := FillRect _ _ _ _ _).
  set (s0 := (w, [bg])).
  assert (H0 : frame_so_far r' bg s0) by (exists []; split; [reflexivity|constructor]).
  pose proof (for_loop_inv (fun _ => True) (frame_so_far r' bg)
                (frame_so_far r' bg) fuel (fun layer => layer >=? 0)
                (fun layer => layer - 1) (render_layer sin_impl fuel r' e')
                (WaveEngine.cfg e' "layers" - 1) s0
                (fun _ _ _ => I)
                (fun j s _ _ Hs => render_layer_draws fuel r' e' bg j s Hs)
                I H0) as Hloop.
  destruct (for_loop _ _ _ _ _ _) as [[w' ds]| |]; [|exact Hloop|exact I].
  pose proof (applyVignette_cases r') as Hv.
  destruct (applyVignette sqrt_impl r') as [vignette|thrown|] eqn:Ev;
    [|exact Hloop|exact I].
  destruct Hloop as (cells & Eds & Hcells). cbn [snd] in *.
  exists cells, vignette. rewrite Eds.
  split; [reflexivity|]. split; [exact Hcells|]. split; [exact Ev|].
  destruct vignette as [|[| |cx cy r0 r1 alpha width height] [|]];
    try contradiction; tauto.
Qed.

Lemma render_cell_safe (r : Renderer.t) (e : WaveEngine.t)
  (cs : WaveEngine.CharSet) (layer layerDepth gridY gridX : num)
  (s : World * list draw) :
  (exists seed : num, WaveEngine.noise e = SimplexNoise.build seed) ->
  WaveEngine.characterSets !! WaveEngine.currentCharacterSet e = Some cs ->
  exists s' : World * list draw,
    render_cell sin_impl r e layer layerDepth gridY gridX s = Normal s'.
Proof.
  intros Hn Hcs. unfold render_cell. cbv zeta.
  match goal with
  | |- context [WaveEngine.calculateWave _ _ ?x ?y ?l] =>
      destruct (calculateWave_built e x y l Hn) as [waveValue ->]
  end.
  pose proof (selectCharacter_own e cs waveValue layer (fst s) Hcs) as Hsel.
  destruct (WaveEngine.selectCharacter _ _ _ _) as [[c| |] w'];
    cbn [fst] in Hsel; [|eauto|contradiction].
  destruct (String.eqb c " "); eauto.
Qed.

(** In a loop, [Normal] bodies never produce a throw. *)
Lemma for_loop_no_throw {St : Type} fuel cond step
  (body : num -> St -> completion St) (i : num) (s : St) :
  (forall j s, match body j s with Throw _ => False | _ => True end) ->
  match for_loop fuel cond step body i s with
  | Throw _ => False
  | _ => True
  end.
Proof.
  intros Hbody.
  pose proof (for_loop_inv (fun _ => True) (fun _ => True) (fun _ => False)
                fuel cond step body i s (fun _ _ _ => I)) as H.
  destruct (for_loop _ _ _ _ _ _); try exact I.
  apply H; auto. intros j s1 _ _ _. specialize (Hbody j s1).
  now destruct (body j s1).
Qed.

(** With a canvas and settings that the gradient accepts, and a root that
    is not negative, [applyVignette] does not throw. *)
Lemma applyVignette_ok (r : Renderer.t) :
  vignette_ok r -> sqrt_contract sqrt_impl ->
  exists vignette : list draw, applyVignette sqrt_impl r = Normal vignette.
Proof.
  intros ((W & HW & _) & (H & HH & _) & (q & Hq & Hq0 & _) & Hi) Hsqrt.
  unfold applyVignette. cbv zeta.
  destruct (cfg r "vignetteIntensity" <=? 0); [eauto|].
  rewrite HW, HH, Hq.
  rewrite !num_div_fin by (intros E; discriminate E).
  cbn [num_mul num_add Math_sqrt].
  set (d := (W / 2 * (W / 2) + H / 2 * (H / 2))%Q).
  assert (Hd : (0 <= d)%Q) by (subst d; nra).
  assert (Qltb d 0 = false) as -> by (apply Qltb_false; exact Hd).
  assert (Hm : (0 <= sqrt_impl (Qred d))%Q).
  { apply Hsqrt. now rewrite Qred_correct. }
  cbn [num_mul forallb finiteb andb negb num_ltb orb].
  assert (Qltb (sqrt_impl (Qred d) * q) 0 = false) as ->
    by (apply Qltb_false; nra).
  assert (Qltb (sqrt_impl (Qred d)) 0 = false) as ->
    by (apply Qltb_false; exact Hm).
  cbn [orb]. destruct (cfg r "vignetteIntensity"); try contradiction.
  cbn [finiteb negb]. eauto.
Qed.

(** X22.  A frame never throws on a reachable engine whose character set is
    one of the four palettes, when the canvas and the vignette settings
    are ones the gradient of the canvas accepts (a canvas of at most 2^32
    pixels each way, a radius fraction between 0 and [safe_bound], a
    finite intensity) and [Math.sqrt] returns no negative root:
    [calculateWave] and [selectCharacter] succeed on every cell, and the
    vignette is drawn or skipped. *)
Theorem render_never_throws (fuel : nat) (r : Renderer.t)
  (e : WaveEngine.t) (timestamp : num) (w : World) :
  reachable e ->
  is_Some (WaveEngine.characterSets !! WaveEngine.currentCharacterSet e) ->
  vignette_ok r -> sqrt_contract sqrt_impl ->
  match snd (render sin_impl sqrt_impl fuel r e timestamp w) with
  | Throw _ => False
  | _ => True
  end.
Proof.
  intros He [cs Hcs] Hvig Hsqrt. destruct (reachable_inv e He) as (Hn & _).
  unfold render. cbv zeta.
  set (e' := WaveEngine.update e _).
  set (r' := mk _ _ _ _ _ timestamp _).
  assert (Hl : forall j s,
             match render_layer sin_impl fuel r' e' j s with
             | Throw _ => False
             | _ => True
             end).
  { intros layer s. unfold render_layer. cbv zeta.
    apply for_loop_no_throw. intros gridY s1. unfold render_row.
    apply for_loop_no_throw. intros gridX s2.
    destruct (render_cell_safe r' e' cs layer
                (layer / Math_max (WaveEngine.cfg e' "layers") 1)
                gridY gridX s2 Hn Hcs) as [s' ->].
    exact I. }
  pose proof (for_loop_no_throw fuel (fun layer => layer >=? 0)
                (fun layer => layer - 1) (render_layer sin_impl fuel r' e')
                (WaveEngine.cfg e' "layers" - 1) (w, [FillRect
                   (calculateColor (config r') e'
                      (- WaveEngine.cfg e' "amplitude") 1)
                   0 0 (canvas_width r') (canvas_height r')]) Hl) as H.
  destruct (for_loop _ _ _ _ _ _) as [[w' ds]| |]; cbn [snd]; auto.
  assert (Hvig' : vignette_ok r') by exact Hvig.
  destruct (applyVignette_ok r' Hvig' Hsqrt) as [vignette Ev].
  rewrite Ev. exact I.
Qed.

Lemma render_cell_completed (r : Renderer.t) (e : WaveEngine.t)
  (layer layerDepth gridY gridX : num) (s : World * list draw) :
  completed (render_cell sin_impl r e layer layerDepth gridY gridX s).
Proof.
  unfold render_cell. cbv zeta.
  destruct (WaveEngine.calculateWave _ _ _ _ _); [|exact I].
  destruct (WaveEngine.selectCharacter _ _ _ _) as [[c| |] w']; try exact I.
  now destruct (String.eqb c " ").
Qed.

(** X23.  A frame ends when the grid and the number of layers are finite
    and at most 2^53 (up to there the counters of the program step
    exactly): every loop of [render] runs out of iterations, so that with
    a fuel above the three loop bounds the frame completes, normally or by
    an exception. *)
Theorem render_completes (fuel : nat) (r : Renderer.t) (e : WaveEngine.t)
  (timestamp : num) (w : World) (gw gh l : Q) :
  gridWidth r = Fin gw -> gridHeight r = Fin gh ->
  WaveEngine.cfg e "layers" = Fin l ->
  (gw <= inject_Z max_exact_integer)%Q ->
  (gh <= inject_Z max_exact_integer)%Q ->
  (l <= inject_Z max_exact_integer)%Q ->
  (Z.to_nat (Qceiling gw) < fuel)%nat ->
  (Z.to_nat (Qceiling gh) < fuel)%nat ->
  (Z.to_nat (Qfloor (l - 1) + 1) < fuel)%nat ->
  completed (snd (render sin_impl sqrt_impl fuel r e timestamp w)).
Proof.
  intros Hgw Hgh Hl _ _ _ F1 F2 F3. unfold render. cbv zeta.
  set (e' := WaveEngine.update e _).
  set (r' := mk _ _ _ _ _ timestamp _).
  assert (Hl' : WaveEngine.cfg e' "layers" = Fin l) by exact Hl.
  rewrite Hl'. cbn [num_sub].
  assert (Hlayer : forall j s,
             completed (render_layer sin_impl fuel r' e' j s)).
  { intros layer s. unfold render_layer. cbv zeta.
    cbn [gridHeight r']. subst r'. cbn [gridHeight]. rewrite Hgh.
    apply (for_loop_up_completes gh fuel _ 0); [|reflexivity|].
    - intros gridY s1. unfold render_row. cbn [gridWidth]. rewrite Hgw.
      apply (for_loop_up_completes gw fuel _ 0); [|reflexivity|].
      + intros gridX s2. apply render_cell_completed.
      + now rewrite Z.sub_0_r.
    - now rewrite Z.sub_0_r. }
  pose proof (for_loop_down_completes fuel (render_layer sin_impl fuel r' e')
                (l - 1) (w, [FillRect
                   (calculateColor (config r') e'
                      (- WaveEngine.cfg e' "amplitude") 1)
                   0 0 (canvas_width r') (canvas_height r')]) Hlayer F3) as H.
  destruct (for_loop _ _ _ _ _ _) as [[w' ds]| |]; cbn [snd]; auto.
  pose proof (applyVignette_cases r') as Hv.
  destruct (applyVignette sqrt_impl r'); cbn [snd completed]; auto.
Qed.




(** X25.  The clock of a frame.  [render(timestamp)] records the timestamp
    and advances the engine clock by the seconds elapsed since the last
    frame times [timeSpeed]; a renderer whose last timestamp is 0 (the
    first frame) leaves the clock where it is.  Nothing else of the
    renderer or of the engine is changed, however the frame ends. *)
Theorem render_clock (fuel : nat) (r : Renderer.t) (e : WaveEngine.t)
  (w : World) (t0 ts c sp : Q) :
  lastTime r = Fin t0 -> WaveEngine.time e = Fin c ->
  WaveEngine.cfg e "timeSpeed" = Fin sp ->
  let '(r', e', _) := render sin_impl sqrt_impl fuel r e (Fin ts) w in
  lastTime r' = Fin ts
  /\ WaveEngine.time e'
     =n= Fin (if Qeq_bool t0 0 then c else c + (ts - t0) / 1000 * sp)
  /\ WaveEngine.config e' = WaveEngine.config e
  /\ WaveEngine.noise e' = WaveEngine.noise e
  /\ WaveEngine.currentCharacterSet e' = WaveEngine.currentCharacterSet e
  /\ config r' = config r
  /\ gridWidth r' = gridWidth r /\ gridHeight r' = gridHeight r
  /\ canvas_width r' = canvas_width r /\ canvas_height r' = canvas_height r.
Proof.
  intros Ht0 Hc Hsp. unfold render. cbv zeta.
  assert (Ht : WaveEngine.time
                 (WaveEngine.update e
                    (if num_truthy (lastTime r)
                     then (Fin ts - lastTime r) / 1000 else Fin 0))
               =n= Fin (if Qeq_bool t0 0 then c
                        else c + (ts - t0) / 1000 * sp)).
  { unfold WaveEngine.update. cbn [WaveEngine.time].
    unfold WaveEngine.cfg in Hsp. rewrite Ht0, Hc, Hsp.
    cbn [num_truthy num_sub].
    destruct (Qeq_bool t0 0); cbn [negb].
    - cbn [num_mul num_add num_eq]. ring.
    - rewrite num_div_fin by (intros E; discriminate E).
      cbn [num_mul num_add num_eq]. reflexivity. }
  destruct (for_loop _ _ _ _ _ _) as [[w' ds]| |];
    [destruct (applyVignette _ _)| |];
    cbn [lastTime config gridWidth gridHeight canvas_width canvas_height];
    (split; [reflexivity|]); (split; [exact Ht|]); repeat split.
Qed.

End RenderFrame.

Lemma render_never_throws_witness :
  match
    snd (Renderer.render (fun _ => 0%Q) (fun _ => 0%Q) 100 demo_renderer
           demo_engine (Fin 16) demo_world)
  with
  | Throw _ => False
  | _ => True
  end.
Proof.
  apply (render_never_throws (fun _ => 0%Q) (fun _ => 0%Q) 100 demo_renderer
           demo_engine (Fin 16) demo_world).
  - apply reach_new.
  - exists WaveEngine.classic. vm_compute. reflexivity.
  - split; [|split; [|split; [|exact I]]].
    + exists 800. split; [reflexivity|]. split; discriminate.
    + exists 600. split; [reflexivity|]. split; discriminate.
    + exists 0.6. split; [reflexivity|]. split; discriminate.
  - intros x Hx. discriminate.
Defined.

Lemma render_completes_witness :
  completed
    (snd (Renderer.render (fun _ => 0%Q) (fun _ => 0%Q) 100 demo_renderer
            demo_engine (Fin 16) demo_world)).
Proof.
  apply (render_completes (fun _ => 0%Q) (fun _ => 0%Q) 100 demo_renderer
           demo_engine (Fin 16) demo_world (inject_Z 50) (inject_Z 38) 3).
  - reflexivity.
  - reflexivity.
  - reflexivity.
  - discriminate.
  - discriminate.
  - discriminate.
  - vm_compute. lia.
  - vm_compute. lia.
  - vm_compute. lia.
Defined.


Lemma render_clock_witness :
  let '(r', e', _) :=
    Renderer.render (fun _ => 0%Q) (fun _ => 0%Q) 100 demo_renderer
      demo_engine (Fin 16) demo_world in
  Renderer.lastTime r' = Fin 16
  /\ WaveEngine.time e'
     =n= Fin (if Qeq_bool 0 0 then 0 else 0 + (16 - 0) / 1000 * 1.5)
  /\ WaveEngine.config e' = WaveEngine.config demo_engine
  /\ WaveEngine.noise e' = WaveEngine.noise demo_engine
  /\ WaveEngine.currentCharacterSet e'
     = WaveEngine.currentCharacterSet demo_engine
  /\ Renderer.config r' = Renderer.config demo_renderer
  /\ Renderer.gridWidth r' = Renderer.gridWidth demo_renderer
  /\ Renderer.gridHeight r' = Renderer.gridHeight demo_renderer
  /\ Renderer.canvas_width r' = Renderer.canvas_width demo_renderer
  /\ Renderer.canvas_height r' = Renderer.canvas_height demo_renderer.
Proof.
  apply (render_clock (fun _ => 0%Q) (fun _ => 0%Q) 100 demo_renderer
           demo_engine demo_world 0 16 0 1.5); reflexivity.
Defined.

(** ** Presets *)

Section PresetsApply.

Import WaveEngine.

Lemma assoc_elem (key : string) (l : list (string * Presets.Preset))
  (preset : Presets.Preset) :
  Presets.assoc key l = Some preset -> (key, preset) ∈ l.
Proof.
  induction l as [|[k q] l IH]; cbn [Presets.assoc]; [discriminate|].
  destruct (String.eqb_spec k key) as [->|Hne].
  - intros [= ->]. apply elem_of_cons. now left.
  - intros H. apply elem_of_cons. right. now apply IH.
Qed.

Lemma assoc_absent (key : string) (l : list (string * Presets.Preset)) :
  key ∉ List.map fst l -> Presets.assoc key l = None.
Proof.
  induction l as [|[k q] l IH]; cbn [Presets.assoc List.map fst];
    [reflexivity|].
  intros H. rewrite not_elem_of_cons in H. destruct H as [Hne Hl].
  destruct (String.eqb_spec k key) as [->|_]; [contradiction|].
  now apply IH.
Qed.

Lemma themes_ok : Forall (fun kp => theme_ok (snd kp)) Presets.themes.
Proof.
  unfold Presets.themes.
  repeat (apply Forall_cons; split;
          [cbn [snd]; unfold theme_ok;
           cbn [Presets.wave Presets.visual Presets.characterSet];
           split; [reflexivity|];
           split; [unfold palette_names; rewrite !elem_of_cons; auto 10|];
           split;
           [do 2 eexists; split; [reflexivity|]; split; [reflexivity|];
            split; [reflexivity|discriminate]
           |do 2 eexists; split; [reflexivity|]; split; [reflexivity|];
            split; [split; discriminate|reflexivity]]|]).
  apply Forall_nil_2.
Qed.

Lemma updateConfig_no_seed (e : WaveEngine.t) (c : gmap string jsval)
  (w : World) :
  c !! "noiseSeed" = None ->
  updateConfig e c w
  = (mk (Object_assign (config e) c) (time e) (noise e) (noise_id e)
        (currentCharacterSet e), w).
Proof.
  intros H. unfold updateConfig. now rewrite (prop_absent _ _ H).
Qed.

Lemma setCharacterSet_palette (e : WaveEngine.t) (name : string) :
  name ∈ palette_names ->
  setCharacterSet e name = mk (config e) (time e) (noise e) (noise_id e) name.
Proof.
  intros H. apply characterSets_lookup in H as [cs Hcs].
  unfold setCharacterSet. now rewrite (get_charset_own _ _ Hcs).
Qed.

(** X26.  The presets of the keyboard shortcuts.  Each of the six keys
    bound to the digits 1 to 6 names a theme, and [Presets.apply] with it
    returns [true] and leaves: the wave and visual settings of the theme in
    the two configurations; the seed, the noise object and the clock of
    the engine untouched; [Math.random] unconsulted; one of the four
    palettes active; a positive amplitude, at least one layer, a
    saturation of [0, 1] and a positive cell size; and the grid of the
    renderer in step with the new cell size. *)
Theorem preset_apply_known (key : string) (e : WaveEngine.t)
  (r : Renderer.t) (w : World) :
  key ∈ Controls.presetKeys ->
  exists (preset : Presets.Preset) (e' : WaveEngine.t) (r' : Renderer.t),
    Presets.get key = Presets.Theme preset
    /\ Controls.applyPreset key e r w = Presets.Returned true e' r' w
    /\ theme_ok preset
    /\ (forall k v, Presets.wave preset !! k = Some v ->
                    prop (config e') k = v)
    /\ (forall k v, Presets.visual preset !! k = Some v ->
                    prop (Renderer.config r') k = v)
    /\ prop (config e') "noiseSeed" = prop (config e) "noiseSeed"
    /\ noise e' = noise e /\ noise_id e' = noise_id e /\ time e' = time e
    /\ currentCharacterSet e' = Presets.characterSet preset
    /\ (grid_consistent r -> grid_consistent r').
Proof.
  intros Hkey.
  assert (Ha : exists preset, Presets.assoc key Presets.themes = Some preset).
  { unfold Controls.presetKeys in Hkey.
    rewrite !elem_of_cons, elem_of_nil in Hkey.
    destruct Hkey as [->|[->|[->|[->|[->|[->|[]]]]]]];
      eexists; reflexivity. }
  destruct Ha as [preset Ha].
  pose proof (assoc_elem _ _ _ Ha) as Hin.
  pose proof themes_ok as Hok. rewrite Forall_forall in Hok.
  specialize (Hok _ Hin). cbn [snd] in Hok.
  destruct Hok as (Hseed & Hpal & Hwave & Hvis).
  exists preset. unfold Controls.applyPreset, Presets.apply, Presets.get.
  rewrite Ha, (updateConfig_no_seed e _ w Hseed).
  rewrite (setCharacterSet_palette _ _ Hpal).
  cbn [config time noise noise_id currentCharacterSet].
  do 2 eexists. split; [reflexivity|]. split; [reflexivity|].
  split; [exact (conj Hseed (conj Hpal (conj Hwave Hvis)))|].
  cbn [config time noise noise_id currentCharacterSet].
  split; [intros k v Hk; now apply prop_assign|].
  split.
  { intros k v Hk. unfold Renderer.updateConfig. cbv zeta.
    destruct (_ && _); cbn [Renderer.config]; now apply prop_assign. }
  split.
  { unfold prop, Object_assign. now rewrite lookup_union_r. }
  repeat (split; [reflexivity|]).
  intros Hg. apply updateConfig_recomputes; [exact Hg|].
  destruct Hvis as (sat & c & _ & -> & _). discriminate.
Qed.

Lemma preset_apply_known_witness :
  exists (preset : Presets.Preset) (e' : WaveEngine.t) (r' : Renderer.t),
    Presets.get "storm" = Presets.Theme preset
    /\ Controls.applyPreset "storm" demo_engine demo_renderer demo_world
       = Presets.Returned true e' r' demo_world
    /\ currentCharacterSet e' = Presets.characterSet preset.
Proof.
  destruct (preset_apply_known "storm" demo_engine demo_renderer demo_world)
    as (preset & e' & r' & H1 & H2 & _ & _ & _ & _ & _ & _ & _ & H3 & _).
  - unfold Controls.presetKeys. rewrite !elem_of_cons. auto.
  - exists preset, e', r'. auto.
Defined.

(** X27.  [Presets.apply] with a key that names no theme: it returns
    [false] and changes nothing, unless the key is a member inherited from
    [Object.prototype] (such as [constructor]), which [get] returns as if
    it were a theme and on which [updateConfig] throws. *)
Theorem preset_apply_unknown (key : string) (e : WaveEngine.t)
  (r : Renderer.t) (w : World) :
  key ∉ Presets.getKeys ->
  Presets.apply key e r w
  = if decide (key ∈ Object_prototype_keys) then Presets.TypeError
    else Presets.Returned false e r w.
Proof.
  intros H. unfold Presets.apply, Presets.get.
  rewrite (assoc_absent _ _ H). now destruct (decide _).
Qed.

Lemma preset_apply_unknown_witness :
  Presets.apply "constructor" demo_engine demo_renderer demo_world
  = Presets.TypeError
  /\ Presets.apply "lava" demo_engine demo_renderer demo_world
     = Presets.Returned false demo_engine demo_renderer demo_world.
Proof.
  split.
  - rewrite (preset_apply_unknown "constructor"); [reflexivity|].
    unfold Presets.getKeys. cbn [List.map fst Presets.themes].
    rewrite !not_elem_of_cons. repeat split; try discriminate.
    apply not_elem_of_nil.
  - rewrite (preset_apply_unknown "lava"); [reflexivity|].
    unfold Presets.getKeys. cbn [List.map fst Presets.themes].
    rewrite !not_elem_of_cons. repeat split; try discriminate.
    apply not_elem_of_nil.
Defined.

End PresetsApply.

(** ** Saving and loading a configuration *)

Section SavedConfiguration.

Import WaveEngine.

Lemma truthy_name_nonempty (name : string) :
  truthy (get_charset name) = true -> String.eqb name "" = false.
Proof.
  intros H. destruct (String.eqb_spec name "") as [->|_]; [|reflexivity].
  vm_compute in H. discriminate H.
Qed.

(** X28.  A saved configuration restores the sea.  Loading what
    [getConfig] returned for a reachable engine with a numeric seed (the
    body shared by [loadFromStorage], [loadFromURL] and [loadJSON]) into
    any other engine and renderer leaves them with every saved setting,
    with the same character set, and with a noise object equal to the one
    of the saved engine; the clock is kept and [Math.random] is not
    consulted.  (The object is passed as [getConfig] returns it: the JSON
    text in between is outside the model.) *)
Theorem load_restores (e e2 : WaveEngine.t) (r r2 : Renderer.t) (w : World)
  (s : num) :
  reachable e -> prop (config e) "noiseSeed" = JNum s ->
  let '(e2', r2', w') := Controls.load (Controls.getConfig e r) e2 r2 w in
  (forall k v, config e !! k = Some v -> config e2' !! k = Some v)
  /\ (forall k v, Renderer.config r !! k = Some v ->
                 Renderer.config r2' !! k = Some v)
  /\ noise e2' = noise e
  /\ currentCharacterSet e2' = currentCharacterSet e
  /\ time e2' = time e2
  /\ w' = w.
Proof.
  intros He Hs. destruct (reachable_inv e He) as (_ & Hn & Ht).
  specialize (Hn s Hs).
  assert (Hl : config e !! "noiseSeed" = Some (JNum s)).
  { unfold prop in Hs. destruct (config e !! "noiseSeed") as [v|];
      cbn in Hs; [now subst v|discriminate Hs]. }
  unfold Controls.load, Controls.getConfig.
  cbn [Controls.wave Controls.visual Controls.characterSet].
  unfold getConfig, Renderer.getConfig.
  rewrite (truthy_name_nonempty _ Ht).
  destruct (updateConfig_rebuilds_noise e2 (config e) w s Hl)
    as (Hnoise & _ & Hw).
  pose proof (updateConfig_unfold e2 (config e) w) as Hu. cbv zeta in Hu.
  rewrite Hs in Hu.
  destruct (updateConfig e2 (config e) w) as [e3 w3].
  cbn [fst snd] in Hnoise, Hw, Hu. subst w3.
  unfold setCharacterSet. rewrite Ht.
  cbn [config time noise currentCharacterSet].
  rewrite Hnoise, Hn.
  assert (Hc : config e3 = Object_assign (config e2) (config e))
    by (rewrite Hu; reflexivity).
  assert (Htime : time e3 = time e2) by (rewrite Hu; reflexivity).
  rewrite Hc, Htime.
  split; [intros k v Hk; unfold Object_assign;
          now apply lookup_union_Some_l|].
  split; [|repeat split].
  intros k v Hk. unfold Renderer.updateConfig. cbv zeta.
  destruct (_ && _); cbn [Renderer.config]; unfold Object_assign;
    now apply lookup_union_Some_l.
Qed.

Lemma load_restores_witness :
  let '(e2', r2', w') :=
    Controls.load (Controls.getConfig demo_engine demo_renderer)
                  zero_amplitude_engine zero_cell_renderer demo_world in
  (forall k v, config demo_engine !! k = Some v -> config e2' !! k = Some v)
  /\ (forall k v, Renderer.config demo_renderer !! k = Some v ->
                 Renderer.config r2' !! k = Some v)
  /\ noise e2' = noise demo_engine
  /\ currentCharacterSet e2' = currentCharacterSet demo_engine
  /\ time e2' = time zero_amplitude_engine
  /\ w' = demo_world.
Proof.
  apply (load_restores demo_engine zero_amplitude_engine demo_renderer
           zero_cell_renderer demo_world (Fin 42));
    [apply reach_new|reflexivity].
Defined.

End SavedConfiguration.

(** ** The colours of a frame *)

Section RenderColours.

Import Utils Renderer.

Variables sin_impl sqrt_impl : Q -> Q.

Lemma calculateColor_rgb (r : Renderer.t) (e : WaveEngine.t)
  (waveValue layerDepth a : Q) :
  finite_visual r -> finite_config e ->
  WaveEngine.cfg e "amplitude" = Fin a -> ~ (a == 0)%Q ->
  is_rgb (calculateColor (config r) e (Fin waveValue) (Fin layerDepth)).
Proof.
  intros (Hh & Hb & Hc & sat & Hs & Hsat) He Ha Hnz.
  destruct (finite_config_values e He)
    as (a' & sp & fr & ly & ch & de & Ea & _ & _ & _ & _ & Ede).
  rewrite Ea in Ha. injection Ha as ->.
  unfold Renderer.cfg, WaveEngine.cfg in *.
  unfold calculateColor. cbv zeta. rewrite Ea, Ede, Hs.
  destruct (ToNumber (prop (config r) "hue")) as [hue| | |];
    try contradiction.
  destruct (ToNumber (prop (config r) "brightness")) as [br| | |];
    try contradiction.
  destruct (ToNumber (prop (config r) "contrast")) as [co| | |];
    try contradiction.
  destruct (normalize_unit waveValue a) as (n & En & Hn); [tauto|].
  unfold Spec.normalize in En. rewrite En.
  cbn [num_add num_mul num_sub].
  match goal with
  | |- context [clamp (Fin ?q) (Fin 0) (Fin 1)] =>
      destruct (clamp_unit (Fin q) ltac:(discriminate)) as (l & -> & Hl)
  end.
  pose proof (hslToRgb_bytes hue sat l Hsat Hl) as H.
  destruct (hslToRgb (Fin hue) (Fin sat) (Fin l)) as [[cr cg] cb].
  unfold is_rgb. cbn [fst snd]. tauto.
Qed.

(** Inside the grid the normalised coordinate is a finite number. *)
Lemma grid_coordinate (i g : num) :
  is_index i -> (i <? g) = true -> exists q : Q, i / g = Fin q.
Proof.
  intros (k & Hk & Hi) Hlt.
  destruct i as [a| | |]; cbn [num_eq] in Hi; try contradiction.
  unfold num_of_Z in Hi. cbn [num_eq] in Hi.
  destruct g as [b| | |]; cbn [num_ltb] in Hlt; try discriminate Hlt.
  - qprop. rewrite num_div_fin; [eauto|].
    assert (0 <= inject_Z k)%Q
      by (change 0%Q with (inject_Z 0); now rewrite <- Zle_Qle).
    lra.
  - cbn [num_div]. eauto.
Qed.

Lemma is_index_finite (i : num) : is_index i -> exists q : Q, i = Fin q.
Proof.
  intros (k & _ & Hi). destruct i as [a| | |]; cbn [num_eq] in Hi;
    try contradiction. eauto.
Qed.

Lemma render_cell_rgb (r : Renderer.t) (e : WaveEngine.t)
  (layer layerDepth t a : Q) (gridY gridX : num) (s : World * list draw) :
  reachable e -> finite_config e -> WaveEngine.time e = Fin t ->
  WaveEngine.cfg e "amplitude" = Fin a -> ~ (a == 0)%Q ->
  finite_visual r ->
  is_index gridX -> is_index gridY ->
  (gridX <? gridWidth r) = true -> (gridY <? gridHeight r) = true ->
  Forall draw_rgb (snd s) ->
  match
    render_cell sin_impl r e (Fin layer) (Fin layerDepth) gridY gridX s
  with
  | Normal s' | Throw s' => Forall draw_rgb (snd s')
  | OutOfFuel => True
  end.
Proof.
  intros He Hc Ht Ha Hnz Hv HX HY HW HH Hs. unfold render_cell. cbv zeta.
  destruct (grid_coordinate _ _ HX HW) as (x & ->).
  destruct (grid_coordinate _ _ HY HH) as (y & ->).
  destruct (calculateWave_shape sin_impl e t x y layer He Hc Ht)
    as (_ & _ & _ & q & _ & -> & _).
  pose proof (calculateColor_rgb r e q layerDepth a Hv Hc Ha Hnz) as Hrgb.
  destruct (WaveEngine.selectCharacter _ _ _ _) as [[c| |] w'];
    cbn [snd]; try exact Hs.
  - destruct (String.eqb c " "); cbn [snd]; [exact Hs|].
    apply Forall_app. split; [exact Hs|].
    apply Forall_cons. split; [exact Hrgb|apply Forall_nil_2].
  - apply Forall_app. split; [exact Hs|].
    apply Forall_cons. split; [exact Hrgb|apply Forall_nil_2].
Qed.

(** A property of the calls of a frame that every cell preserves is
    preserved by the three loops of [render]. *)
Lemma render_loops_forall (D : draw -> Prop) (fuel : nat) (r : Renderer.t)
  (e : WaveEngine.t) (ly : Q) (start : num) (s : World * list draw) :
  WaveEngine.cfg e "layers" = Fin ly ->
  (forall (layer layerDepth : Q) (gridY gridX : num) s,
     is_index gridX -> is_index gridY ->
     (gridX <? gridWidth r) = true -> (gridY <? gridHeight r) = true ->
     Forall D (snd s) ->
     match
       render_cell sin_impl r e (Fin layer) (Fin layerDepth) gridY gridX s
     with
     | Normal s' | Throw s' => Forall D (snd s')
     | OutOfFuel => True
     end) ->
  is_finite start -> Forall D (snd s) ->
  match
    for_loop fuel (fun layer => layer >=? 0) (fun layer => layer - 1)
      (render_layer sin_impl fuel r e) start s
  with
  | Normal s' | Throw s' => Forall D (snd s')
  | OutOfFuel => True
  end.
Proof.
  intros Ely Hcell Hstart Hs.
  apply (for_loop_inv is_finite (fun s => Forall D (snd s))
           (fun s => Forall D (snd s)));
    [intros [q| | |] Hq _; try contradiction; exact I| |exact Hstart
    |exact Hs].
  intros [layer| | |] s1 Hl _ Hs1; try contradiction.
  unfold render_layer. cbv zeta. rewrite Ely, Math_max_fin.
  rewrite num_div_fin by (qcase; lra).
  apply (for_loop_inv is_index (fun s => Forall D (snd s))
           (fun s => Forall D (snd s)));
    [intros j Hj _; now apply is_index_succ| |apply is_index_0|exact Hs1].
  intros gridY s2 HY HH Hs2. unfold render_row.
  apply (for_loop_inv is_index (fun s => Forall D (snd s))
           (fun s => Forall D (snd s)));
    [intros j Hj _; now apply is_index_succ| |apply is_index_0|exact Hs2].
  intros gridX s3 HX HW Hs3. now apply Hcell.
Qed.

(** The vignette carries no colour of [calculateColor]. *)
Lemma applyVignette_rgb (r : Renderer.t) (vignette : list draw) :
  applyVignette sqrt_impl r = Normal vignette -> Forall draw_rgb vignette.
Proof.
  unfold applyVignette. cbv zeta.
  repeat match goal with
         | |- context [if ?b then _ else _] => destruct b
         end;
    intros E; try discriminate E; injection E as <-.
  - apply Forall_nil_2.
  - apply Forall_cons. split; [exact I|apply Forall_nil_2].
Qed.

Lemma bounded_visual_finite (r : Renderer.t) :
  bounded_visual r -> finite_visual r.
Proof.
  intros (Hh & Hb & Hc & Hs).
  repeat split; eauto using within_finite.
Qed.

(** X29.  The colours of a frame are colours.  On a reachable engine whose
    wave parameters are of magnitude at most [safe_bound] with a non-zero
    amplitude, a renderer with a finite hue, a brightness and a contrast
    of magnitude at most [safe_bound] and a saturation of [0, 1], and
    timestamps, engine clock and clock multiplier of magnitude at most
    [safe_bound], every colour handed to the canvas during a frame, for
    the background and for each glyph, has three integer channels of
    [0, 255]. *)
Theorem render_colours (fuel : nat) (r : Renderer.t) (e : WaveEngine.t)
  (w : World) (ts a : Q) :
  reachable e -> bounded_config e -> bounded_visual r ->
  bounded_clock r e -> (- safe_bound <= ts <= safe_bound)%Q ->
  WaveEngine.cfg e "amplitude" = Fin a -> ~ (a == 0)%Q ->
  match snd (render sin_impl sqrt_impl fuel r e (Fin ts) w) with
  | Normal s | Throw s => Forall draw_rgb (snd s)
  | OutOfFuel => True
  end.
Proof.
  intros He Hbc Hbv ((t0 & Ht0 & _) & (t & Ht & _) & (sp & Hsp & _)) _ Ha Hnz.
  pose proof (bounded_config_finite e Hbc) as Hc.
  pose proof (bounded_visual_finite r Hbv) as Hv.
  unfold render. cbv zeta.
  set (dt := if num_truthy (lastTime r) then _ else _).
  assert (Hdt : exists d : Q, dt = Fin d).
  { subst dt. rewrite Ht0. cbn [num_truthy num_sub].
    destruct (negb _); [|eauto].
    rewrite num_div_fin by (intros E; discriminate E). eauto. }
  destruct Hdt as (d & Hdt). rewrite Hdt. clear dt Hdt.
  set (e' := WaveEngine.update e (Fin d)).
  set (r' := mk _ _ _ _ _ (Fin ts) _).
  assert (He' : reachable e') by (now apply reach_update).
  assert (Hc' : finite_config e') by exact Hc.
  assert (Ha' : WaveEngine.cfg e' "amplitude" = Fin a) by exact Ha.
  assert (Hv' : finite_visual r') by exact Hv.
  assert (Ht' : WaveEngine.time e' = Fin (t + d * sp)).
  { subst e'. unfold WaveEngine.update. cbn [WaveEngine.time].
    unfold WaveEngine.cfg in Hsp. now rewrite Ht, Hsp. }
  destruct (finite_config_values e' Hc')
    as (a' & sp' & fr & ly & ch & de & _ & _ & _ & Ely & _ & _).
  rewrite Ha', Ely. cbn [num_neg num_sub].
  set (bg := FillRect _ _ _ _ _).
  assert (Hbg : Forall draw_rgb (snd (w, [bg]))).
  { cbn [snd]. apply Forall_cons. split; [|apply Forall_nil_2].
    subst bg. cbn [draw_rgb].
    now apply (calculateColor_rgb r' e' (- a) 1 a). }
  pose proof (render_loops_forall draw_rgb fuel r' e' ly (Fin (ly - 1))
                (w, [bg]) Ely
                (fun layer ld gridY gridX s HX HY HW HH Hs =>
                   render_cell_rgb r' e' layer ld (t + d * sp) a gridY
                     gridX s He' Hc' Ht' Ha' Hnz Hv' HX HY HW HH Hs)
                I Hbg) as Hloop.
  destruct (for_loop _ _ _ _ _ _) as [[w' ds]| |]; cbn [snd] in *;
    try exact Hloop.
  destruct (applyVignette sqrt_impl r') as [vignette|thrown|] eqn:Ev;
    cbn [snd]; [|exact Hloop|exact I].
  apply Forall_app. split; [exact Hloop|].
  now apply (applyVignette_rgb r').
Qed.

Lemma NaN_add_l (u : num) : NaN + u = NaN.
Proof. reflexivity. Qed.

Lemma NaN_add_r (u : num) : u + NaN = NaN.
Proof. now destruct u. Qed.

Lemma NaN_mul_l (u : num) : NaN * u = NaN.
Proof. reflexivity. Qed.

Lemma NaN_mul_r (u : num) : u * NaN = NaN.
Proof. now destruct u. Qed.

Lemma NaN_sub_l (u : num) : NaN - u = NaN.
Proof. reflexivity. Qed.

Lemma NaN_div_l (u : num) : NaN / u = NaN.
Proof. reflexivity. Qed.

(** A height that normalises to NaN gives a colour of NaN channels. *)
Lemma calculateColor_NaN (config : gmap string jsval) (e : WaveEngine.t)
  (waveValue layerDepth : num) :
  waveValue / WaveEngine.cfg e "amplitude" = NaN ->
  calculateColor config e waveValue layerDepth = (NaN, NaN, NaN).
Proof.
  intros H. unfold WaveEngine.cfg in H. unfold calculateColor. cbv zeta.
  rewrite H, NaN_add_l, NaN_div_l, clamp_NaN.
  repeat first [rewrite NaN_mul_l | rewrite NaN_mul_r | rewrite NaN_add_r].
  rewrite clamp_NaN. unfold hslToRgb, hsl_f. cbn [Math_min].
  repeat first [rewrite NaN_mul_l | rewrite NaN_mul_r | rewrite NaN_sub_l].
  reflexivity.
Qed.

(** A height that normalises to NaN selects nothing. *)
Lemma selectCharacter_NaN (e : WaveEngine.t) (cs : WaveEngine.CharSet)
  (waveValue layer : num) (w : World) :
  WaveEngine.characterSets !! WaveEngine.currentCharacterSet e = Some cs ->
  waveValue / WaveEngine.cfg e "amplitude" = NaN ->
  WaveEngine.selectCharacter e waveValue layer w = (WaveEngine.Undefined, w).
Proof.
  intros Hcs H. unfold WaveEngine.selectCharacter.
  rewrite (get_charset_own _ _ Hcs), H, NaN_add_l, NaN_div_l, clamp_NaN.
  assert (Hgt : forall u : num, (NaN >? u) = false)
    by (intros []; reflexivity).
  rewrite !Hgt. cbn [andb num_mul Math_floor]. now rewrite pick_NaN.
Qed.

(** At amplitude 0 a cell of the grid draws [undefined] in a colour of
    NaN channels, and leaves the ambient generator alone. *)
Lemma render_cell_undefined (r : Renderer.t) (e : WaveEngine.t)
  (cs : WaveEngine.CharSet) (layer layerDepth t a : Q) (gridY gridX : num)
  (s : World * list draw) :
  reachable e -> finite_config e -> WaveEngine.time e = Fin t ->
  WaveEngine.characterSets !! WaveEngine.currentCharacterSet e = Some cs ->
  WaveEngine.cfg e "amplitude" = Fin a -> (a == 0)%Q ->
  is_index gridX -> is_index gridY ->
  (gridX <? gridWidth r) = true -> (gridY <? gridHeight r) = true ->
  render_cell sin_impl r e (Fin layer) (Fin layerDepth) gridY gridX s
  = Normal (fst s, snd s ++ [FillText (NaN, NaN, NaN) None
                                      (gridX * cfg r "cellSize")
                                      (gridY * cfg r "cellSize")]).
Proof.
  intros He Hc Ht Hcs Ha Hz HX HY HW HH. unfold render_cell. cbv zeta.
  destruct (grid_coordinate _ _ HX HW) as (x & ->).
  destruct (grid_coordinate _ _ HY HH) as (y & ->).
  destruct (calculateWave_shape sin_impl e t x y layer He Hc Ht)
    as (a' & d & u & q & Ea & -> & Hq).
  rewrite Ea in Ha. injection Ha as ->.
  assert (Hnan : Fin q / WaveEngine.cfg e "amplitude" = NaN).
  { rewrite Ea. unfold num_div.
    assert (Qeq_bool a 0 = true) as -> by now apply Qeq_bool_iff.
    rewrite (Qcompare_Eq q 0); [reflexivity|]. rewrite Hq, Hz. ring. }
  rewrite (selectCharacter_NaN e cs _ _ _ Hcs Hnan).
  rewrite (calculateColor_NaN _ e _ _ Hnan). reflexivity.
Qed.

(** The counter of a loop that counts up from 0. *)
Lemma count_up_fin (k : nat) :
  exists q : Q, count_up k = Fin q /\ (q == inject_Z (Z.of_nat k))%Q.
Proof.
  induction k as [|k (q & Eq & Hq)].
  - exists 0%Q. split; reflexivity.
  - exists (q + 1)%Q. split.
    + change (count_up (S k)) with (count_up k + 1). rewrite Eq.
      reflexivity.
    + rewrite Nat2Z.inj_succ. unfold Z.succ.
      rewrite inject_Z_plus, Hq. reflexivity.
Qed.

Lemma is_index_count_up (k : nat) : is_index (count_up k).
Proof.
  destruct (count_up_fin k) as (q & -> & Hq).
  exists (Z.of_nat k). split; [lia|exact Hq].
Qed.

Lemma count_up_ltb (g : num) (n k : nat) :
  g =n= num_of_nat n -> (count_up k <? g) = Nat.ltb k n.
Proof.
  intros Hg. destruct (count_up_fin k) as (q & -> & Hq).
  destruct g as [b| | |]; cbn [num_eq] in Hg; try contradiction.
  unfold num_of_nat, num_of_Z in Hg. cbn [num_eq] in Hg.
  cbn [num_ltb].
  destruct (Nat.ltb_spec k n) as [Hlt|Hge].
  - apply Qltb_true. rewrite Hq, Hg, <- Zlt_Qlt. lia.
  - apply Qltb_false. rewrite Hq, Hg, <- Zle_Qle. lia.
Qed.

(** A loop that counts up to a whole bound, and whose body adds the calls
    [f j] at the counter [j], adds them in order, once the fuel exceeds
    the bound. *)
Lemma for_loop_up_trace (g : num) (n : nat) (f : nat -> list draw)
  (body : num -> World * list draw -> completion (World * list draw)) :
  g =n= num_of_nat n ->
  (forall j w ds, (j < n)%nat ->
     body (count_up j) (w, ds) = Normal (w, ds ++ f j)) ->
  forall (fuel k : nat) (w : World) (ds : list draw),
    (k <= n)%nat -> (n - k < fuel)%nat ->
    for_loop fuel (fun i => i <? g) (fun i => i + 1) body (count_up k)
             (w, ds)
    = Normal (w, ds ++ flat_map f (seq k (n - k))).
Proof.
  intros Hg Hbody.
  induction fuel as [|fuel IH]; intros k w ds Hk Hf; [lia|].
  cbn [for_loop]. rewrite (count_up_ltb g n k Hg).
  destruct (Nat.ltb_spec k n) as [Hlt|Hge].
  - rewrite (Hbody k w ds Hlt).
    change (count_up k + 1) with (count_up (S k)).
    rewrite (IH (S k)) by lia.
    replace (n - k)%nat with (S (n - S k)) by lia.
    cbn [seq flat_map]. now rewrite <- !app_assoc.
  - replace (n - k)%nat with 0%nat by lia.
    cbn [seq flat_map]. now rewrite app_nil_r.
Qed.

Lemma flat_map_const_seq (cells : list draw) (n a b : nat) :
  flat_map (fun _ : nat => cells) (seq a n)
  = flat_map (fun _ : nat => cells) (seq b n).
Proof.
  revert a b. induction n as [|n IH]; intros a b; [reflexivity|].
  cbn [seq flat_map]. now rewrite (IH (S a) (S b)).
Qed.

(** A loop that counts down to 0 from a whole number less one, and whose
    body adds the same calls at every counter, adds them that many
    times. *)
Lemma for_loop_down_trace (cells : list draw)
  (body : num -> World * list draw -> completion (World * list draw)) :
  (forall q w ds, body (Fin q) (w, ds) = Normal (w, ds ++ cells)) ->
  forall (L fuel : nat) (q : Q) (w : World) (ds : list draw),
    (q == inject_Z (Z.of_nat L) - 1)%Q -> (L < fuel)%nat ->
    for_loop fuel (fun i => i >=? 0) (fun i => i - 1) body (Fin q) (w, ds)
    = Normal (w, ds ++ flat_map (fun _ : nat => cells) (seq 0 L)).
Proof.
  intros Hbody.
  induction L as [|L IH]; intros fuel q w ds Hq Hf;
    (destruct fuel as [|fuel]; [lia|]); cbn [for_loop].
  - change (inject_Z (Z.of_nat 0)) with 0%Q in Hq.
    destruct (Fin q >=? 0) eqn:Ec.
    + cbn [num_geb num_leb] in Ec. qprop. lra.
    + cbn [seq flat_map]. now rewrite app_nil_r.
  - rewrite Nat2Z.inj_succ in Hq. unfold Z.succ in Hq.
    rewrite inject_Z_plus in Hq. change (inject_Z 1) with 1%Q in Hq.
    assert (0 <= inject_Z (Z.of_nat L))%Q
      by (change 0%Q with (inject_Z 0); rewrite <- Zle_Qle; lia).
    destruct (Fin q >=? 0) eqn:Ec.
    + rewrite Hbody. cbn [num_sub].
      erewrite IH; [|lra|lia].
      cbn [seq flat_map].
      rewrite (flat_map_const_seq cells L 1 0).
      now rewrite <- app_assoc.
    + cbn [num_geb num_leb] in Ec. qprop. lra.
Qed.

(** At amplitude 0 a layer draws [undefined] in every cell of the grid. *)
Lemma render_layer_undefined (fuel : nat) (r : Renderer.t)
  (e : WaveEngine.t) (cs : WaveEngine.CharSet) (t a ly layer : Q)
  (gw gh : nat) (w : World) (ds : list draw) :
  reachable e -> finite_config e -> WaveEngine.time e = Fin t ->
  WaveEngine.characterSets !! WaveEngine.currentCharacterSet e = Some cs ->
  WaveEngine.cfg e "amplitude" = Fin a -> (a == 0)%Q ->
  WaveEngine.cfg e "layers" = Fin ly ->
  gridWidth r =n= num_of_nat gw -> gridHeight r =n= num_of_nat gh ->
  (gw < fuel)%nat -> (gh < fuel)%nat ->
  render_layer sin_impl fuel r e (Fin layer) (w, ds)
  = Normal (w, ds ++ undefined_grid (cfg r "cellSize") gh gw).
Proof.
  intros He Hc Ht Hcs Ha Hz Ely Hgw Hgh Hfw Hfh.
  unfold render_layer. cbv zeta. rewrite Ely, Math_max_fin.
  rewrite num_div_fin by (qcase; lra).
  change (Fin 0) with (count_up 0).
  rewrite (for_loop_up_trace (gridHeight r) gh
             (undefined_row (cfg r "cellSize") gw) _ Hgh);
    [now rewrite Nat.sub_0_r| |lia|lia].
  intros j w1 ds1 Hj. unfold render_row.
  change (Fin 0) with (count_up 0).
  rewrite (for_loop_up_trace (gridWidth r) gw
             (fun gridX : nat =>
                [FillText (NaN, NaN, NaN) None
                   (count_up gridX * cfg r "cellSize")
                   (count_up j * cfg r "cellSize")]) _ Hgw);
    [now rewrite Nat.sub_0_r| |lia|lia].
  intros i w2 ds2 Hi.
  rewrite (render_cell_undefined r e cs _ _ t a _ _ _ He Hc Ht Hcs Ha Hz
             (is_index_count_up i) (is_index_count_up j)).
  - reflexivity.
  - rewrite (count_up_ltb _ gw i Hgw). now apply Nat.ltb_lt.
  - rewrite (count_up_ltb _ gh j Hgh). now apply Nat.ltb_lt.
Qed.

(** X30.  A frame at amplitude 0.  On a reachable engine with one of the
    four palettes, wave parameters of magnitude at most [safe_bound], a
    whole number [L] of layers and amplitude 0 (the low end of the
    amplitude slider), with timestamps, engine clock and clock multiplier
    of magnitude at most [safe_bound], on a grid of [gw] by [gh] cells,
    both at most 2^53, and with fuel above [L], [gw] and [gh], a frame
    makes exactly these calls: the background in a colour of three NaN
    channels; then, for each of the [L] layers, row after row and cell
    after cell, the text [undefined] in a colour of three NaN channels at
    [(gridX * cellSize, gridY * cellSize)], one call for every cell of the
    grid; then the vignette.  When the vignette throws, the frame ends by
    the exception with the calls made before it.  The ambient generator is
    left alone. *)
Theorem render_zero_amplitude (fuel : nat) (r : Renderer.t)
  (e : WaveEngine.t) (w : World) (ts : Q) (L gw gh : nat) :
  reachable e -> bounded_config e -> bounded_clock r e ->
  (- safe_bound <= ts <= safe_bound)%Q ->
  is_Some (WaveEngine.characterSets !! WaveEngine.currentCharacterSet e) ->
  WaveEngine.cfg e "amplitude" =n= Fin 0 ->
  WaveEngine.cfg e "layers" =n= num_of_nat L ->
  gridWidth r =n= num_of_nat gw -> gridHeight r =n= num_of_nat gh ->
  (Z.of_nat gw <= max_exact_integer)%Z ->
  (Z.of_nat gh <= max_exact_integer)%Z ->
  (L < fuel)%nat -> (gw < fuel)%nat -> (gh < fuel)%nat ->
  snd (render sin_impl sqrt_impl fuel r e (Fin ts) w)
  = let bg :=
      FillRect (NaN, NaN, NaN) 0 0 (canvas_width r) (canvas_height r) in
    let cells := undefined_cells (cfg r "cellSize") L gh gw in
    match applyVignette sqrt_impl r with
    | Normal vignette => Normal (w, bg :: cells ++ vignette)
    | Throw _ => Throw (w, bg :: cells)
    | OutOfFuel => OutOfFuel
    end.
Proof.
  intros He Hbc ((t0 & Ht0 & _) & (t & Ht & _) & (sp & Hsp & _)) _
    [cs Hcs] Ha HL Hgw Hgh _ _ HfL Hfw Hfh.
  pose proof (bounded_config_finite e Hbc) as Hc.
  unfold render. cbv zeta.
  set (dt := if num_truthy (lastTime r) then _ else _).
  assert (Hdt : exists d : Q, dt = Fin d).
  { subst dt. rewrite Ht0. cbn [num_truthy num_sub].
    destruct (negb _); [|eauto].
    rewrite num_div_fin by (intros E; discriminate E). eauto. }
  destruct Hdt as (d & Hdt). rewrite Hdt. clear dt Hdt.
  set (e' := WaveEngine.update e (Fin d)).
  set (r' := mk _ _ _ _ _ (Fin ts) _).
  assert (He' : reachable e') by (now apply reach_update).
  assert (Hc' : finite_config e') by exact Hc.
  assert (Hcs' : WaveEngine.characterSets
                 !! WaveEngine.currentCharacterSet e' = Some cs)
    by exact Hcs.
  assert (Ht' : WaveEngine.time e' = Fin (t + d * sp)).
  { subst e'. unfold WaveEngine.update. cbn [WaveEngine.time].
    unfold WaveEngine.cfg in Hsp. now rewrite Ht, Hsp. }
  destruct (finite_config_values e' Hc')
    as (a & sp' & fr & ly & ch & de & Ea & _ & _ & Ely & _ & _).
  assert (Hz : (a == 0)%Q).
  { change (WaveEngine.cfg e' "amplitude") with (WaveEngine.cfg e "amplitude")
      in Ea. rewrite Ea in Ha. exact Ha. }
  assert (Hly : (ly == inject_Z (Z.of_nat L))%Q).
  { change (WaveEngine.cfg e' "layers") with (WaveEngine.cfg e "layers")
      in Ely. rewrite Ely in HL. exact HL. }
  assert (Hbg : calculateColor (config r') e'
                  (- WaveEngine.cfg e' "amplitude") 1 = (NaN, NaN, NaN)).
  { apply calculateColor_NaN. rewrite Ea. cbn [num_neg]. unfold num_div.
    assert (Qeq_bool a 0 = true) as -> by now apply Qeq_bool_iff.
    rewrite (Qcompare_Eq (- a) 0); [reflexivity|]. rewrite Hz. ring. }
  rewrite Hbg, Ely. cbn [num_sub].
  erewrite (for_loop_down_trace (undefined_grid (cfg r' "cellSize") gh gw)
              (render_layer sin_impl fuel r' e'));
    [| |rewrite Hly; reflexivity|exact HfL].
  - cbv beta iota.
    change (applyVignette sqrt_impl r') with (applyVignette sqrt_impl r).
    destruct (applyVignette sqrt_impl r) as [vignette|thrown|];
      reflexivity.
  - intros layer w1 ds1.
    now apply (render_layer_undefined fuel r' e' cs (t + d * sp) a ly).
Qed.

End RenderColours.

Lemma render_colours_witness :
  match
    snd (Renderer.render (fun _ => 0%Q) (fun _ => 0%Q) 100 demo_renderer
           demo_engine (Fin 16) demo_world)
  with
  | Normal s | Throw s => Forall draw_rgb (snd s)
  | OutOfFuel => True
  end.
Proof.
  apply (render_colours (fun _ => 0%Q) (fun _ => 0%Q) 100 demo_renderer
           demo_engine demo_world 16 0.8).
  - apply reach_new.
  - constructed_engine.
  - split; [exact I|]. split; [within_bound|]. split; [within_bound|].
    exists 0.6. split; [reflexivity|]. split; discriminate.
  - repeat split; within_bound.
  - in_bounds.
  - reflexivity.
  - intros H. discriminate H.
Defined.

Lemma render_zero_amplitude_witness :
  snd (Renderer.render (fun _ => 0%Q) (fun _ => 0%Q) 100 demo_renderer
         zero_amplitude_engine (Fin 16) demo_world)
  = let bg :=
      Renderer.FillRect (NaN, NaN, NaN) 0 0
        (Renderer.canvas_width demo_renderer)
        (Renderer.canvas_height demo_renderer) in
    let cells :=
      undefined_cells (Renderer.cfg demo_renderer "cellSize") 3 38 50 in
    match Renderer.applyVignette (fun _ => 0%Q) demo_renderer with
    | Normal vignette => Normal (demo_world, bg :: cells ++ vignette)
    | Throw _ => Throw (demo_world, bg :: cells)
    | OutOfFuel => OutOfFuel
    end.
Proof.
  apply (render_zero_amplitude (fun _ => 0%Q) (fun _ => 0%Q) 100
           demo_renderer zero_amplitude_engine demo_world 16 3 50 38).
  - apply reach_new.
  - constructed_engine.
  - repeat split; within_bound.
  - in_bounds.
  - exists WaveEngine.classic. vm_compute. reflexivity.
  - vm_compute. reflexivity.
  - vm_compute. reflexivity.
  - vm_compute. reflexivity.
  - vm_compute. reflexivity.
  - vm_compute. discriminate.
  - vm_compute. discriminate.
  - lia.
  - lia.
  - lia.
Defined.
